(** * Ultra Doc Intelligence: the retrieval core, embedded and verified

    A shallow embedding of the Python modules under [app/core]
    ([chunker.py], [retriever.py], [vector_store.py], [confidence.py],
    [guardrails.py], [structured_extractor.py]) together with the theorems
    that settle the specification's claims about them.

    Conventions of the embedding.
    - A Python [str] is the list of its code points ([list Z], the values
      of [ord]); Python [int]s are [Z].
    - The Unicode tables behind [str.lower], [str.upper], [str.strip] and
      the [re] character categories belong to the interpreter, not to the
      repository: they are the fields of a record [unicode] that every
      definition takes as a parameter.  [ascii_tables] is their restriction
      to ASCII, used to run the definitions on concrete inputs.
    - A Python [float] is modelled by the rational it denotes ([Q]).  The
      arithmetic of the confidence score rounds each result to binary64
      ([rnd64]); the distances of the index, float32 sums inside the
      library, are exact rationals, and the embedder, which takes a square
      root, is modelled over [R].  NaN and infinities are not modelled.
    - A [while] loop is a function with fuel: [None] means that the fuel ran
      out before the loop condition became false. *)

From Stdlib Require Import ZArith QArith Qround Qpower Qreduction Reals Psatz.
From Stdlib Require Import List String Ascii Bool.
From stdpp Require Import base list strings gmap sorting.

Local Open Scope Z_scope.

(* ===================================================================== *)
(** * Python strings *)
(* ===================================================================== *)

Abbreviation str := (list Z).

(** The code points of a literal. *)
Fixpoint codes (s : string) : str :=
  match s with
  | EmptyString => []
  | String a r => Z.of_N (N_of_ascii a) :: codes r
  end.

(** The interpreter's Unicode tables. *)
Record unicode := {
  str_lower : str -> str;      (* str.lower() *)
  str_upper : str -> str;      (* str.upper() *)
  chr_lower : Z -> Z;          (* per-character lower-casing of re.IGNORECASE *)
  is_space : Z -> bool;        (* str.isspace(), the class \s *)
  is_digit : Z -> bool;        (* the class \d *)
  is_alnum : Z -> bool         (* str.isalnum(); \w is is_alnum or "_" *)
}.

(** What the proofs below need to know about [str.lower]. *)
Record lower_laws (U : unicode) : Prop := {
  lower_idem : forall s, str_lower U (str_lower U s) = str_lower U s;
  lower_nil : str_lower U [] = [];
  lower_nonempty : forall s, s <> [] -> str_lower U s <> []
}.

(** ** The ASCII fragment of the tables *)

Definition ascii_lower_chr (c : Z) : Z :=
  if (65 <=? c) && (c <=? 90) then c + 32 else c.

Definition ascii_upper_chr (c : Z) : Z :=
  if (97 <=? c) && (c <=? 122) then c - 32 else c.

Definition ascii_is_space (c : Z) : bool :=
  ((9 <=? c) && (c <=? 13)) || ((28 <=? c) && (c <=? 32)).

Definition ascii_is_digit (c : Z) : bool := (48 <=? c) && (c <=? 57).

Definition ascii_is_alnum (c : Z) : bool :=
  ascii_is_digit c || ((65 <=? c) && (c <=? 90)) || ((97 <=? c) && (c <=? 122)).

Definition ascii_tables : unicode := {|
  str_lower := List.map ascii_lower_chr;
  str_upper := List.map ascii_upper_chr;
  chr_lower := ascii_lower_chr;
  is_space := ascii_is_space;
  is_digit := ascii_is_digit;
  is_alnum := ascii_is_alnum
|}.

(** ** Slices, [in], [strip] *)

(** [PySlice_AdjustIndices] for a step of one: a negative bound counts from
    the end, and every bound is clamped to [0, n]. *)
Definition slice_bound (n i : Z) : Z :=
  if i <? 0 then Z.max 0 (i + n) else Z.min i n.

(** [l[lo:hi]] *)
Definition py_slice {A} (l : list A) (lo hi : Z) : list A :=
  let n := Z.of_nat (length l) in
  let a := slice_bound n lo in
  let b := slice_bound n hi in
  take (Z.to_nat (b - a)) (drop (Z.to_nat a) l).

(** Truth value of a string: non-empty. *)
Definition truthy (s : str) : bool :=
  match s with [] => false | _ :: _ => true end.

Definition str_eqb (a b : str) : bool := bool_decide (a = b).

(** [s.startswith(p)] *)
Fixpoint starts_with (p s : str) : bool :=
  match p, s with
  | [], _ => true
  | _ :: _, [] => false
  | a :: p', b :: s' => (a =? b) && starts_with p' s'
  end.

(** [needle in hay] on strings: substring search. *)
Fixpoint contains (needle hay : str) : bool :=
  starts_with needle hay ||
  match hay with
  | [] => false
  | _ :: hay' => contains needle hay'
  end.

Section Strings.
Variable U : unicode.

Fixpoint lstrip (s : str) : str :=
  match s with
  | [] => []
  | c :: r => if is_space U c then lstrip r else s
  end.

Definition rstrip (s : str) : str := reverse (lstrip (reverse s)).

(** [s.strip()] *)
Definition strip (s : str) : str := rstrip (lstrip s).

Definition lower (s : str) : str := str_lower U s.
End Strings.

(* ===================================================================== *)
(** * chunker.py *)
(* ===================================================================== *)

(** A page as the parser produces it: [{"page": n, "text": t}]. *)
Record Page := { page_text : str; page_number : Z }.

(** A chunk: [{"text": t, "page": n}]. *)
Record Chunk := { text : str; page : Z }.

Section Chunker.
Variable U : unicode.

(** One pass through the body of the [while] loop of [chunk_text]
    (lines 12-23): the loop state is [start] and the list [chunks]. *)
Definition loop_body (chunk_size overlap : Z) (txt : str) (page_no : Z)
    (st : Z * list Chunk) : Z * list Chunk :=
  let '(start, chunks) := st in
  let end_ := start + chunk_size in
  let chunk := py_slice txt start end_ in
  let chunks := if truthy (strip U chunk)
                then chunks ++ [{| text := chunk; page := page_no |}]
                else chunks in
  let start := end_ - overlap in
  let start := if start <? 0 then 0 else start in
  (start, chunks).

(** The [while start < text_length] loop. *)
Fixpoint while_loop (fuel : nat) (chunk_size overlap : Z) (txt : str)
    (page_no : Z) (st : Z * list Chunk) : option (list Chunk) :=
  if fst st <? Z.of_nat (length txt) then
    match fuel with
    | O => None
    | S fuel' =>
        while_loop fuel' chunk_size overlap txt page_no
          (loop_body chunk_size overlap txt page_no st)
    end
  else Some (snd st).

(** The body of [for page in pages]: the loop starts at [start = 0] and
    appends to the shared list [chunks]. *)
Definition chunk_page (fuel : nat) (chunk_size overlap : Z) (p : Page)
    (chunks : list Chunk) : option (list Chunk) :=
  while_loop fuel chunk_size overlap (page_text p) (page_number p) (0, chunks).

Fixpoint chunk_pages (fuel : nat) (chunk_size overlap : Z) (pages : list Page)
    (chunks : list Chunk) : option (list Chunk) :=
  match pages with
  | [] => Some chunks
  | p :: rest =>
      match chunk_page fuel chunk_size overlap p chunks with
      | None => None
      | Some chunks' => chunk_pages fuel chunk_size overlap rest chunks'
      end
  end.

(** [chunk_text(pages, chunk_size, overlap)]; every [while] loop gets
    [fuel] iterations. *)
Definition chunk_text (fuel : nat) (pages : list Page)
    (chunk_size overlap : Z) : option (list Chunk) :=
  chunk_pages fuel chunk_size overlap pages [].

(** The number of iterations the loop needs from [start] when the window
    advances by [step > 0]: the ceiling of [(len - start) / step]. *)
Definition steps_needed (len start step : Z) : nat :=
  Z.to_nat ((len - start + step - 1) / step).
End Chunker.

Definition chunk_size_default : Z := 500.
Definition overlap_default : Z := 100.

(* ===================================================================== *)
(** * retriever.py: the embedder *)
(* ===================================================================== *)

Section Embedder.
Variable U : unicode.

(** [vector[ord(char) % dim] += 1].  [%] with a zero divisor raises
    ZeroDivisionError ([None]); for [dim > 0] the slot is in range. *)
Definition bump (dim : Z) (v : list Z) (c : Z) : option (list Z) :=
  if dim =? 0 then None
  else Some (alter Z.succ (Z.to_nat (c mod dim)) v).

Fixpoint count_chars (dim : Z) (v : list Z) (s : str) : option (list Z) :=
  match s with
  | [] => Some v
  | c :: r =>
      match bump dim v c with
      | None => None
      | Some v' => count_chars dim v' r
      end
  end.

(** The raw character-count vector (lines 10-13); [np.zeros] raises on a
    negative dimension.  The counts are small integers, which float64
    holds exactly. *)
Definition char_counts (txt : str) (dim : Z) : option (list Z) :=
  if dim <? 0 then None
  else count_chars dim (replicate (Z.to_nat dim) 0) (lower U txt).

(** [np.linalg.norm] *)
Definition norm (v : list R) : R :=
  sqrt (fold_right (fun x acc => x * x + acc)%R 0%R v).

(** Lines 15-17: divide by the norm unless it is zero. *)
Definition normalize (v : list R) : list R :=
  if Req_dec_T (norm v) 0 then v
  else List.map (fun x => x / norm v)%R v.

(** [simple_embed(text, dim)] *)
Definition simple_embed (txt : str) (dim : Z) : option (list R) :=
  option_map (fun v => normalize (List.map IZR v)) (char_counts txt dim).
End Embedder.

Definition embed_dim_default : Z := 128.

(* ===================================================================== *)
(** * vector_store.py *)
(* ===================================================================== *)

(** The outcome of a call that may raise. *)
Inductive result (A : Type) : Type :=
| Return (a : A)
| Raised.
Arguments Return {A} a.
Arguments Raised {A}.

Abbreviation vec := (list Q).

(** A two-dimensional float32 array of shape [(length rows, ncols)]. *)
Record ndarray := { ncols : nat; rows : list vec }.

Definition ndarray_wf (a : ndarray) : Prop :=
  Forall (fun r => length r = ncols a) (rows a).

(** ** The flat L2 index *)

(** Modelled from the spec: [faiss.IndexFlatL2], a library outside the
    repository.  It keeps the added vectors in insertion order and answers
    a query by an exhaustive scan: the [k] entries closest in squared
    Euclidean distance, by ascending distance, ties by insertion order
    (lower index first).  From the library's Python wrapper: [add] and
    [search] assert that the array's second dimension is the index's [d],
    [search] asserts [k > 0], and a result row shorter than [k] is filled
    with label [-1]. *)
Record IndexFlatL2 := { d : nat; xb : list vec }.

Definition ntotal (i : IndexFlatL2) : nat := length (xb i).

Definition l2sqr (x y : vec) : Q :=
  fold_right Qplus 0%Q (zip_with (fun a b => (a - b) * (a - b))%Q x y).

Definition index_add (i : IndexFlatL2) (x : ndarray) : option IndexFlatL2 :=
  if Nat.eqb (ncols x) (d i) then Some {| d := d i; xb := xb i ++ rows x |}
  else None.

(** A hit: the label of a stored vector and its distance to the query. *)
Definition hit : Type := Z * Q.

Definition scan (i : IndexFlatL2) (q : vec) : list hit :=
  imap (fun j v => (Z.of_nat j, l2sqr q v)) (xb i).

(** [closer a b]: [a] comes before [b] in a result row. *)
Definition closer (a b : hit) : bool :=
  match (snd a ?= snd b)%Q with
  | Lt => true
  | Eq => fst a <=? fst b
  | Gt => false
  end.

Fixpoint insert_hit (h : hit) (l : list hit) : list hit :=
  match l with
  | [] => [h]
  | y :: r => if closer h y then h :: l else y :: insert_hit h r
  end.

Definition sort_hits (l : list hit) : list hit := fold_right insert_hit [] l.

(** The distance that fills a short result row (the largest float32). *)
Definition FLT_MAX : Q := 340282346638528859811704183484516925440 # 1.

Definition search_row (i : IndexFlatL2) (k : nat) (q : vec) : list hit :=
  let hits := take k (sort_hits (scan i q)) in
  hits ++ replicate (k - length hits)%nat (-1, FLT_MAX).

(** [index.search(x, k)]: one row of distances and one row of labels per
    query row. *)
Definition index_search (i : IndexFlatL2) (x : ndarray) (k : Z)
    : option (list (list Q) * list (list Z)) :=
  if Nat.eqb (ncols x) (d i) && (0 <? k) then
    let res := List.map (search_row i (Z.to_nat k)) (rows x) in
    Some (List.map (List.map snd) res, List.map (List.map fst) res)
  else None.

(** ** The store *)

Record VectorStore := {
  dim : nat;
  index : IndexFlatL2;
  text_chunks : list Chunk
}.

(** [VectorStore(dim)] *)
Definition VectorStore_init (n : nat) : VectorStore :=
  {| dim := n; index := {| d := n; xb := [] |}; text_chunks := [] |}.

(** [add(vectors, chunks)]: the state after the call and whether it
    raised.  The only check is the one inside [index.add]; when it raises,
    line 18 is not reached. *)
Definition add (s : VectorStore) (vectors : ndarray) (chunks : list Chunk)
    : VectorStore * result unit :=
  match index_add (index s) vectors with
  | None => (s, Raised)
  | Some i' =>
      ({| dim := dim s; index := i'; text_chunks := text_chunks s ++ chunks |},
       Return tt)
  end.

Record SearchResult := { chunk : Chunk; distance : Q }.

(** Lines 26-32: keep the hits whose label indexes [text_chunks]. *)
Definition collect (chunks : list Chunk) (hits : list hit) : list SearchResult :=
  omap (fun h : hit =>
          let (idx, dist) := h in
          if (0 <=? idx) && (idx <? Z.of_nat (length chunks)) then
            match chunks !! Z.to_nat idx with
            | Some c => Some {| chunk := c; distance := dist |}
            | None => None
            end
          else None) hits.

(** [search(query_vector, top_k)] *)
Definition search (s : VectorStore) (query_vector : ndarray) (top_k : Z)
    : result (list SearchResult) :=
  if Nat.eqb (ntotal (index s)) 0 then Return []
  else
    match index_search (index s) query_vector top_k with
    | None => Raised
    | Some (distances, indices) =>
        match indices !! 0%nat, distances !! 0%nat with
        | Some is0, Some ds0 => Return (collect (text_chunks s) (zip is0 ds0))
        | _, _ => Raised
        end
    end.

Definition top_k_default : Z := 5.

(** The one-row query array [v.reshape(1, -1)]. *)
Definition as_query (v : vec) : ndarray := {| ncols := length v; rows := [v] |}.

(** ** Persistence *)

(** Modelled from the spec: [faiss.write_index] / [faiss.read_index] and
    [json.dump] / [json.load], libraries outside the repository, which
    "persist and restore the full entry set plus dimension".  A file holds
    the flat index or the list of chunks that was written to it.  Of the
    ways the file system can fail, only the one that depends on the
    argument alone is kept: [os.makedirs] raises on the empty path. *)
Inductive file :=
| FaissFile (i : IndexFlatL2)
| JsonFile (cs : list Chunk).

Abbreviation filesystem := (gmap string file).

Definition STORE_DIR : string := "data/vector_store".

Fixpoint ends_with_slash (p : string) : bool :=
  match p with
  | EmptyString => false
  | String a EmptyString => Ascii.eqb a "/"
  | String _ r => ends_with_slash r
  end.

(** [os.path.join(path, name)] for a relative [name]. *)
Definition path_join (p name : string) : string :=
  match p with
  | EmptyString => name
  | _ => if ends_with_slash p then String.append p name
         else String.append p (String "/" name)
  end.

(** [save(path)]: the file system after the call, or [Raised]. *)
Definition save (s : VectorStore) (path : string) (fs : gmap string file)
    : result (gmap string file) :=
  match path with
  | EmptyString => Raised
  | _ =>
      Return (<[path_join path "chunks.json" := JsonFile (text_chunks s)]>
                (<[path_join path "index.faiss" := FaissFile (index s)]> fs))
  end.

(** [VectorStore.load(path)]: [Return None] when a file is missing. *)
Definition load (path : string) (fs : gmap string file)
    : result (option VectorStore) :=
  match fs !! path_join path "index.faiss", fs !! path_join path "chunks.json" with
  | Some fi, Some fc =>
      match fi, fc with
      | FaissFile i, JsonFile cs =>
          Return (Some {| dim := d i; index := i; text_chunks := cs |})
      | _, _ => Raised
      end
  | _, _ => Return None
  end.

(** ** retriever.py: building and querying the store *)

Section Retriever.
(** [embed32 s] stands for [simple_embed(s)] (128 components) after
    [astype("float32")]: its components are square roots rounded to
    floats, which the model of the store, over exact rationals, takes as
    given. *)
Variable embed32 : str -> vec.

(** [build_vector_store(chunks)].  On an empty list [np.array([])] has the
    one-dimensional shape [(0,)], and [vectors.shape[1]] raises. *)
Definition build_vector_store (chunks : list Chunk) : result VectorStore :=
  let vectors := List.map (fun c => embed32 (text c)) chunks in
  match vectors with
  | [] => Raised
  | v :: _ =>
      let arr := {| ncols := length v; rows := vectors |} in
      let store := VectorStore_init (ncols arr) in
      match add store arr chunks with
      | (store', Return _) => Return store'
      | (_, Raised) => Raised
      end
  end.

(** [retrieve(query, store, top_k)] *)
Definition retrieve (query : str) (store : VectorStore) (top_k : Z)
    : result (list SearchResult) :=
  search store (as_query (embed32 query)) top_k.
End Retriever.

(* ===================================================================== *)
(** * confidence.py *)
(* ===================================================================== *)

(** Round to the nearest integer, ties to the even one. *)
Definition round_half_even (x : Q) : Z :=
  let f := Qfloor x in
  match (x - inject_Z f ?= 1 # 2)%Q with
  | Lt => f
  | Gt => f + 1
  | Eq => if Z.even f then f else f + 1
  end.

(** ** Float arithmetic

    A Python float is an IEEE 754 binary64 number; a finite one is a
    rational, taken here as a [Q].  An arithmetic operation returns the
    exact result rounded to the nearest binary64 number, a tie going to the
    even mantissa.  The infinities and NaN are left out: a result beyond
    the largest finite number is not modelled. *)

(** [2 ** e] *)
Definition pow2 (e : Z) : Q := ((2 # 1) ^ e)%Q.

(** The exponent of the leading bit of a positive rational. *)
Definition floor_log2 (x : Q) : Z :=
  let k := Z.log2 (Qnum x) - Z.log2 (Zpos (Qden x)) in
  if Qle_bool (pow2 k) x then k else k - 1.

(** The exponent of the last mantissa bit of the binary64 numbers around a
    positive [x]: 53 bits of mantissa, and no exponent below that of the
    subnormal numbers. *)
Definition ulp_exponent (x : Q) : Z := Z.max (floor_log2 x - 52) (-1074).

(** A positive [x] rounded to the nearest multiple of its last bit. *)
Definition round_pos (x : Q) : Q :=
  let e := ulp_exponent x in
  (inject_Z (round_half_even (x / pow2 e)) * pow2 e)%Q.

(** The binary64 number nearest to [x], ties to even. *)
Definition rnd64 (x : Q) : Q :=
  let y := Qred x in
  match Qnum y with
  | Z0 => 0%Q
  | Zpos _ => round_pos y
  | Zneg _ => (- round_pos (- y))%Q
  end.

(** [a - b] and [a / b] on floats. *)
Definition fsub (a b : Q) : Q := rnd64 (a - b).
Definition fdiv (a b : Q) : Q := rnd64 (a / b).

(** [round(x, 2)] on a float: the decimal with two digits nearest to the
    exact value of [x], ties to the even digit, then the float nearest to
    that decimal. *)
Definition round2 (x : Q) : Q := rnd64 (round_half_even (x * 100) # 100).

Definition max_distance_default : Q := (15 # 10)%Q.

(** [calculate_confidence(retrieval_results, max_distance)] *)
Definition calculate_confidence (retrieval_results : list SearchResult)
    (max_distance : Q) : Q :=
  match retrieval_results with
  | [] => 0%Q
  | r :: _ =>
      let best_distance := distance r in
      if Qle_bool max_distance best_distance then 0%Q
      else round2 (fsub 1 (fdiv best_distance max_distance))
  end.

(* ===================================================================== *)
(** * The [re] module *)
(* ===================================================================== *)

(** The regular expressions of this repository use literals, [.], classes,
    the categories [\d \s \w], groups, alternation, greedy and lazy
    repetition, [\b] and [$].  The interpreter's matcher is a backtracking
    one: alternatives are tried from left to right, a greedy repetition
    tries the longest count first and a lazy one the shortest.  Every
    pattern has at most one capturing group. *)

Inductive cset :=
| CChr (c : Z)
| CRange (lo hi : Z)
| CDigit
| CSpace
| CWord.

Inductive regex :=
| Eps
| Chr (c : Z)
| AnyChr                                   (* [.]: anything but a newline *)
| OneOf (items : list cset)
| Seq (r1 r2 : regex)
| Or (r1 r2 : regex)
| Repeat (greedy : bool) (lo : nat) (hi : option nat) (r : regex)
| Group (r : regex)                        (* the capturing group 1 *)
| WordBoundary                             (* [\b] *)
| EndOfString.                             (* [$] *)

(** A successful match: the text from its first character on, the text
    after it, the character before that text, and group 1 ([None] when the
    group took no part in the match). *)
Record Match := {
  m_from : str;
  m_rest : str;
  m_last : option Z;
  m_group1 : option str
}.

(** [m.group(0)] *)
Definition group0 (m : Match) : str :=
  take (length (m_from m) - length (m_rest m))%nat (m_from m).

Definition ch (a : ascii) : Z := Z.of_N (N_of_ascii a).

Section Matcher.
Variable U : unicode.
Variable ignorecase : bool.               (* the flag re.IGNORECASE *)

Definition is_word (c : Z) : bool := is_alnum U c || (c =? ch "_").

(** Under IGNORECASE the pattern's characters are lower-cased when it is
    compiled and the subject's character when it is compared. *)
Definition fold_case (c : Z) : Z := if ignorecase then chr_lower U c else c.

Definition in_item (x : Z) (it : cset) : bool :=
  match it with
  | CChr c => fold_case c =? fold_case x
  | CRange lo hi =>
      if ignorecase
      then existsb (fun c => chr_lower U c =? chr_lower U x) (seqZ lo (hi - lo + 1))
      else (lo <=? x) && (x <=? hi)
  | CDigit => is_digit U (fold_case x)
  | CSpace => is_space U (fold_case x)
  | CWord => is_word (fold_case x)
  end.

Definition word_before (prev : option Z) : bool :=
  match prev with Some c => is_word c | None => false end.

Definition word_after (s : str) : bool :=
  match s with c :: _ => is_word c | [] => false end.

(** The loop of a repetition whose body is matched by [body]: [i]
    passes are done and at most [n] more may follow.  A greedy
    repetition first tries one more pass, a lazy one first tries to
    stop; stopping needs [lo <= i]. *)
Fixpoint rep_loop
    (body : option Z -> str -> option str ->
            (option Z -> str -> option str -> option Match) -> option Match)
    (greedy : bool) (lo : nat)
    (k : option Z -> str -> option str -> option Match)
    (n i : nat) (prev : option Z) (s : str) (cap : option str)
    {struct n} : option Match :=
  match n with
  | O => if (lo <=? i)%nat then k prev s cap else None
  | S n' =>
      if greedy then
        match body prev s cap (fun p s' c => rep_loop body greedy lo k n' (S i) p s' c) with
        | Some m => Some m
        | None => if (lo <=? i)%nat then k prev s cap else None
        end
      else
        match (if (lo <=? i)%nat then k prev s cap else None) with
        | Some m => Some m
        | None => body prev s cap (fun p s' c => rep_loop body greedy lo k n' (S i) p s' c)
        end
  end.

(** [mt r prev s cap k]: match [r] at the head of [s], where [prev] is the
    character before [s] and [cap] the group captured so far, then go on
    with [k]; [None] makes the caller backtrack.  A repetition without an
    upper bound runs its body at most [length s] times: every body in
    this repository consumes a character. *)
Fixpoint mt (r : regex) (prev : option Z) (s : str) (cap : option str)
    (k : option Z -> str -> option str -> option Match) {struct r}
    : option Match :=
  match r with
  | Eps => k prev s cap
  | Chr c =>
      match s with
      | x :: s' => if fold_case c =? fold_case x then k (Some x) s' cap else None
      | [] => None
      end
  | AnyChr =>
      match s with
      | x :: s' => if x =? 10 then None else k (Some x) s' cap
      | [] => None
      end
  | OneOf items =>
      match s with
      | x :: s' => if existsb (in_item x) items then k (Some x) s' cap else None
      | [] => None
      end
  | Seq r1 r2 => mt r1 prev s cap (fun p s' c => mt r2 p s' c k)
  | Or r1 r2 =>
      match mt r1 prev s cap k with
      | Some m => Some m
      | None => mt r2 prev s cap k
      end
  | Repeat greedy lo hi r' =>
      rep_loop (mt r') greedy lo k
        (match hi with Some h => h | None => length s end) 0%nat prev s cap
  | Group r' =>
      mt r' prev s cap
        (fun p s' _ => k p s' (Some (take (length s - length s')%nat s)))
  | WordBoundary =>
      if xorb (word_before prev) (word_after s) then k prev s cap else None
  | EndOfString =>
      match s with
      | [] => k prev s cap
      | [x] => if x =? 10 then k prev s cap else None
      | _ => None
      end
  end.

Definition match_here (r : regex) (prev : option Z) (s : str) : option Match :=
  mt r prev s None
    (fun p s' c => Some {| m_from := s; m_rest := s'; m_last := p; m_group1 := c |}).

(** The leftmost match at or after the head of [s]. *)
Fixpoint search_from (r : regex) (prev : option Z) (s : str) : option Match :=
  match match_here r prev s with
  | Some m => Some m
  | None =>
      match s with
      | [] => None
      | x :: s' => search_from r (Some x) s'
      end
  end.

(** [re.search(r, s)] *)
Definition re_search (r : regex) (s : str) : option Match :=
  search_from r None s.

(** [re.sub(r, repl, s)]: the non-overlapping matches from left to right;
    after an empty match the scan moves on by one character. *)
Fixpoint sub_from (fuel : nat) (r : regex) (repl : str) (prev : option Z)
    (s : str) : str :=
  match fuel with
  | O => s
  | S fuel' =>
      match search_from r prev s with
      | None => s
      | Some m =>
          let before := take (length s - length (m_from m))%nat s in
          match group0 m, m_from m with
          | [], x :: s' => before ++ repl ++ x :: sub_from fuel' r repl (Some x) s'
          | [], [] => before ++ repl
          | _ :: _, _ => before ++ repl ++ sub_from fuel' r repl (m_last m) (m_rest m)
          end
      end
  end.

Definition re_sub (r : regex) (repl s : str) : str :=
  sub_from (S (length s)) r repl None s.

(** [re.findall(r, s)] for a pattern without groups: the matched texts. *)
Fixpoint findall_from (fuel : nat) (r : regex) (prev : option Z) (s : str)
    : list str :=
  match fuel with
  | O => []
  | S fuel' =>
      match search_from r prev s with
      | None => []
      | Some m =>
          match group0 m, m_from m with
          | [], x :: s' => [] :: findall_from fuel' r (Some x) s'
          | [], [] => [[]]
          | g, _ => g :: findall_from fuel' r (m_last m) (m_rest m)
          end
      end
  end.

Definition re_findall (r : regex) (s : str) : list str :=
  findall_from (S (length s)) r None s.
End Matcher.

(** ** Reading a pattern *)

Definition escape (e : Z) : regex :=
  if e =? ch "d" then OneOf [CDigit]
  else if e =? ch "s" then OneOf [CSpace]
  else if e =? ch "w" then OneOf [CWord]
  else if e =? ch "b" then WordBoundary
  else if e =? ch "n" then Chr 10
  else Chr e.

Definition class_escape (e : Z) : cset :=
  if e =? ch "d" then CDigit
  else if e =? ch "s" then CSpace
  else if e =? ch "w" then CWord
  else if e =? ch "n" then CChr 10
  else CChr e.

(** The items of a class up to its closing bracket. *)
Fixpoint parse_class (n : nat) (s : str) (acc : list cset)
    : option (list cset * str) :=
  match n with
  | O => None
  | S n' =>
      match s with
      | [] => None
      | c :: s1 =>
          if c =? ch "]" then Some (reverse acc, s1)
          else if c =? ch "\" then
            match s1 with
            | e :: s2 => parse_class n' s2 (class_escape e :: acc)
            | [] => None
            end
          else
            match s1 with
            | m :: hi :: s3 =>
                if (m =? ch "-") && negb (hi =? ch "]")
                then parse_class n' s3 (CRange c hi :: acc)
                else parse_class n' s1 (CChr c :: acc)
            | _ => parse_class n' s1 (CChr c :: acc)
            end
      end
  end.

(** A decimal number at the head of [s]. *)
Fixpoint parse_nat (s : str) (acc : option nat) : option nat * str :=
  match s with
  | c :: s' =>
      if (ch "0" <=? c) && (c <=? ch "9")
      then parse_nat s' (Some (10 * default 0 acc + Z.to_nat (c - ch "0"))%nat)
      else (acc, s)
  | [] => (acc, s)
  end.

(** The bounds of a quantifier at the head of [s], if there is one. *)
Definition parse_bounds (s : str) : option (nat * option nat * str) :=
  match s with
  | c :: s1 =>
      if c =? ch "*" then Some (0, None, s1)%nat
      else if c =? ch "+" then Some (1, None, s1)%nat
      else if c =? ch "?" then Some (0, Some 1, s1)%nat
      else if c =? ch "{" then
        match parse_nat s1 None with
        | (Some lo, c2 :: s2) =>
            if c2 =? ch "}" then Some (lo, Some lo, s2)
            else if c2 =? ch "," then
              match parse_nat s2 None with
              | (hi, c3 :: s3) => if c3 =? ch "}" then Some (lo, hi, s3) else None
              | _ => None
              end
            else None
        | _ => None
        end
      else None
  | [] => None
  end.

(** An atom with the quantifier that follows it; a [?] after a quantifier
    makes it lazy. *)
Definition parse_quant (a : regex) (s : str) : regex * str :=
  match parse_bounds s with
  | Some (lo, hi, s1) =>
      match s1 with
      | c :: s2 => if c =? ch "?" then (Repeat false lo hi a, s2)
                   else (Repeat true lo hi a, s1)
      | [] => (Repeat true lo hi a, s1)
      end
  | None => (a, s)
  end.

Fixpoint parse_alt (n : nat) (s : str) : option (regex * str) :=
  match n with
  | O => None
  | S n' =>
      match parse_seq n' s with
      | Some (r1, c :: s1) =>
          if c =? ch "|" then
            match parse_alt n' s1 with
            | Some (r2, s2) => Some (Or r1 r2, s2)
            | None => None
            end
          else Some (r1, c :: s1)
      | other => other
      end
  end
with parse_seq (n : nat) (s : str) : option (regex * str) :=
  match n with
  | O => None
  | S n' =>
      match s with
      | [] => Some (Eps, [])
      | c :: _ =>
          if (c =? ch "|") || (c =? ch ")") then Some (Eps, s)
          else
            match parse_atom n' s with
            | Some (a, s1) =>
                let (a', s2) := parse_quant a s1 in
                match parse_seq n' s2 with
                | Some (Eps, s3) => Some (a', s3)
                | Some (r, s3) => Some (Seq a' r, s3)
                | None => None
                end
            | None => None
            end
      end
  end
with parse_atom (n : nat) (s : str) : option (regex * str) :=
  match n with
  | O => None
  | S n' =>
      match s with
      | [] => None
      | c :: s1 =>
          if c =? ch "(" then
            match s1 with
            | q :: c2 :: s2 =>
                if (q =? ch "?") && (c2 =? ch ":") then
                  match parse_alt n' s2 with
                  | Some (r, c3 :: s3) => if c3 =? ch ")" then Some (r, s3) else None
                  | _ => None
                  end
                else
                  match parse_alt n' s1 with
                  | Some (r, c3 :: s3) =>
                      if c3 =? ch ")" then Some (Group r, s3) else None
                  | _ => None
                  end
            | _ => None
            end
          else if c =? ch "[" then
            match parse_class n' s1 [] with
            | Some (items, s2) => Some (OneOf items, s2)
            | None => None
            end
          else if c =? ch "\" then
            match s1 with
            | e :: s2 => Some (escape e, s2)
            | [] => None
            end
          else if c =? ch "." then Some (AnyChr, s1)
          else if c =? ch "$" then Some (EndOfString, s1)
          else Some (Chr c, s1)
      end
  end.

(** [re.compile(p)], [None] for a pattern outside the fragment. *)
Definition re_parse (p : string) : option regex :=
  match parse_alt (3 * String.length p + 3) (codes p) with
  | Some (r, []) => Some r
  | _ => None
  end.

(** The compiled pattern; a pattern that cannot be read matches nothing. *)
Definition re_compile (p : string) : regex := default (OneOf []) (re_parse p).

(* ===================================================================== *)
(** * guardrails.py *)
(* ===================================================================== *)

Definition distance_threshold_default : Q := (15 # 10)%Q.
Definition min_match_ratio_default : Q := (2 # 10)%Q.

Definition critical_keywords : list str :=
  List.map codes ["ifsc"; "swift"; "iban"; "routing"]%string.

Definition rate_terms : list str :=
  List.map codes ["rate"; "charge"; "amount"]%string.

Definition currency_markers : list str :=
  List.map codes ["$"; "usd"; "inr"; "eur"; "gbp"; "cad"]%string.

Definition stop_words : list str :=
  List.map codes [
    "a"; "an"; "the"; "is"; "are"; "was"; "were"; "be"; "been"; "being";
    "have"; "has"; "had"; "do"; "does"; "did"; "will"; "would"; "could";
    "should"; "may"; "might"; "shall"; "can"; "need"; "dare"; "ought";
    "and"; "but"; "or"; "nor"; "not"; "so"; "yet"; "both"; "either";
    "neither"; "each"; "every"; "all"; "any"; "few"; "more"; "most";
    "other"; "some"; "such"; "no"; "only"; "own"; "same"; "than"; "too";
    "very"; "just"; "because"; "as"; "until"; "while"; "of"; "at"; "by";
    "for"; "with"; "about"; "against"; "between"; "through"; "during";
    "before"; "after"; "above"; "below"; "to"; "from"; "up"; "down";
    "in"; "out"; "on"; "off"; "over"; "under"; "again"; "further";
    "then"; "once"; "here"; "there"; "when"; "where"; "why"; "how";
    "what"; "which"; "who"; "whom"; "this"; "that"; "these"; "those";
    "i"; "me"; "my"; "myself"; "we"; "our"; "ours"; "ourselves";
    "you"; "your"; "yours"; "yourself"; "he"; "him"; "his"; "himself";
    "she"; "her"; "hers"; "herself"; "it"; "its"; "itself";
    "they"; "them"; "their"; "theirs"; "themselves"; "many"; "much";
    "tell"; "give"; "show"; "find"; "get"; "list"; "describe"
  ]%string.

(** [w in l] for a list or set of strings. *)
Definition in_list (w : str) (l : list str) : bool := existsb (str_eqb w) l.

Section Guardrails.
Variable U : unicode.

Definition strong_retrieval_guardrail (results : list SearchResult)
    (distance_threshold : Q) : bool :=
  match results with
  | [] => false
  | r :: _ => Qle_bool (distance r) distance_threshold
  end.

(** The loop of lines 19-21: the first keyword that the question has and
    the text lacks makes the check fail. *)
Fixpoint keyword_loop (kws : list str) (question txt : str) : bool :=
  match kws with
  | [] => true
  | kw :: rest =>
      if contains kw question && negb (contains kw txt) then false
      else keyword_loop rest question txt
  end.

Definition keyword_intent_guardrail (question txt : str) : bool :=
  let question := lower U question in
  let txt := lower U txt in
  keyword_loop critical_keywords question txt.

(** The comparison of line 57 is made on the exact ratio; the float
    quotient agrees with it for fewer than 10^15 question words. *)
Definition question_coverage_guardrail (question txt : str)
    (min_match_ratio : Q) : bool :=
  let question_words :=
    List.filter (fun w => negb (in_list w stop_words) && (1 <? Z.of_nat (length w)))
      (re_findall U false (re_compile "\w+") (lower U question)) in
  let text_words := re_findall U false (re_compile "\w+") (lower U txt) in
  match question_words with
  | [] => true
  | _ :: _ =>
      let matched := List.filter (fun w => in_list w text_words) question_words in
      Qle_bool min_match_ratio
        (inject_Z (Z.of_nat (length matched)) /
         inject_Z (Z.of_nat (length question_words)))
  end.

Definition rate_guardrail (question txt : str) : bool :=
  let question := lower U question in
  let txt := lower U txt in
  if contains (codes "rate") question || contains (codes "charge") question
     || contains (codes "amount") question
  then
    let has_number := bool_decide (is_Some (re_search U false (re_compile "\d") txt)) in
    let has_currency := existsb (fun c => contains c txt) currency_markers in
    has_number && has_currency
  else true.

(** [final_guardrail(question, results)]; the log lines are left out. *)
Definition final_guardrail (question : str) (results : list SearchResult) : bool :=
  if negb (strong_retrieval_guardrail results distance_threshold_default) then false
  else
    match results with
    | [] => false      (* not reached: the first check fails on [[]] *)
    | r :: _ =>
        let top_text := text (chunk r) in
        if negb (keyword_intent_guardrail question top_text) then false
        else if negb (question_coverage_guardrail question top_text
                        min_match_ratio_default) then false
        else if negb (rate_guardrail question top_text) then false
        else true
    end.
End Guardrails.

(* ===================================================================== *)
(** * structured_extractor.py *)
(* ===================================================================== *)

#[global] Instance result_ret : MRet result := @Return.
#[global] Instance result_bind : MBind result :=
  fun A B f x => match x with Return a => f a | Raised => Raised end.

Record StructuredFields := {
  shipment_id : option str;
  shipper : option str;
  consignee : option str;
  pickup_datetime : option str;
  delivery_datetime : option str;
  equipment_type : option str;
  mode : option str;
  rate : option str;
  currency : option str;
  weight : option str;
  carrier_name : option str
}.

Definition shipment_id_patterns : list string := [
  "shipment\s*(?:id|#|no|number)\s*[:\-]?\s*([A-Z0-9\-]+)";
  "load\s*(?:id|#|no|number)\s*[:\-]?\s*([A-Z0-9\-]+)";
  "order\s*(?:id|#|no|number)\s*[:\-]?\s*([A-Z0-9\-]+)";
  "pro\s*(?:#|number)\s*[:\-]?\s*([A-Z0-9\-]+)";
  "bol\s*(?:#|number)\s*[:\-]?\s*([A-Z0-9\-]+)";
  "\b(ld\d+)\b"
]%string.

Definition shipper_patterns : list string := [
  "shipper\s*[:\-]\s*(.+?)(?:\n|$|consignee|receiver|deliver)";
  "ship\s*from\s*[:\-]\s*(.+?)(?:\n|$)";
  "origin\s*[:\-]\s*(.+?)(?:\n|$)";
  "pickup\s*(?:location|address|from)\s*[:\-]\s*(.+?)(?:\n|$)"
]%string.

Definition consignee_patterns : list string := [
  "consignee\s*[:\-]\s*(.+?)(?:\n|$|shipper|deliver)";
  "receiver\s*[:\-]\s*(.+?)(?:\n|$)";
  "ship\s*to\s*[:\-]\s*(.+?)(?:\n|$)";
  "destination\s*[:\-]\s*(.+?)(?:\n|$)";
  "deliver(?:y)?\s*(?:location|address|to)\s*[:\-]\s*(.+?)(?:\n|$)"
]%string.

Definition pickup_datetime_patterns : list string := [
  "pickup\s*(?:date|time|datetime)\s*[:\-]\s*(.+?)(?:\n|$|delivery|deliver)";
  "pick\s*up\s*[:\-]\s*(\d{1,2}[\/\-]\d{1,2}[\/\-]\d{2,4}(?:\s+\d{1,2}:\d{2})?)";
  "pickup\s*[:\-]\s*(\d{1,2}[\/\-]\d{1,2}[\/\-]\d{2,4}(?:\s+\d{1,2}:\d{2})?)"
]%string.

Definition delivery_datetime_patterns : list string := [
  "delivery\s*(?:date|time|datetime)\s*[:\-]\s*(.+?)(?:\n|$|pickup|pick)";
  "deliver(?:y)?\s*[:\-]\s*(\d{1,2}[\/\-]\d{1,2}[\/\-]\d{2,4}(?:\s+\d{1,2}:\d{2})?)";
  "drop\s*off\s*[:\-]\s*(\d{1,2}[\/\-]\d{1,2}[\/\-]\d{2,4}(?:\s+\d{1,2}:\d{2})?)"
]%string.

Definition equipment_type_patterns : list string := [
  "equipment\s*(?:type)?\s*[:\-]\s*(.+?)(?:\n|$)";
  "\b(flatbed|reefer|dry\s*van|van|tanker|intermodal|container)\b"
]%string.

Definition mode_patterns : list string := [
  "mode\s*[:\-]\s*(\w+)";
  "\b(ftl|ltl|fcl|lcl|parcel|intermodal|drayage|truckload)\b"
]%string.

Definition rate_pattern : string :=
  String.append
    "(?:agreed\s*amount|carrier\s*rate|total\s*(?:rate|charge|amount)|rate|charge)\s*[:\-]?\s*"
    "\$?\s*([\d,]+\.?\d*)".

Definition dollar_pattern : string := "\$\s*([\d,]+\.?\d*)".

Definition currency_pattern : string := "\b(usd|inr|eur|gbp|cad)\b".

Definition weight_patterns : list string := [
  "weight\s*[:\-]\s*([\d,]+\.?\d*\s*(?:lbs?|kg|tons?)?)";
  "([\d,]+\.?\d*)\s*(?:lbs?|kg|tons?)\b"
]%string.

Definition carrier_name_patterns : list string := [
  "carrier\s*(?:name)?\s*[:\-]\s*(.+?)(?:\n|$|driver|dispatcher|rate)";
  "trucking\s*company\s*[:\-]\s*(.+?)(?:\n|$)"
]%string.

Section Extractor.
Variable U : unicode.

(** The local function [find] (lines 15-20).  [m.group(1)] is [None]
    when group 1 took no part in the match, and [None.strip()] raises. *)
Fixpoint find (patterns : list string) (source : str) : result (option str) :=
  match patterns with
  | [] => Return None
  | p :: rest =>
      match re_search U true (re_compile p) source with
      | Some m =>
          match m_group1 m with
          | Some g => Return (Some (strip U g))
          | None => Raised
          end
      | None => find rest source
      end
  end.

(** Truth value of [rate]: neither [None] nor the empty string. *)
Definition truthy_opt (o : option str) : bool :=
  match o with Some s => truthy s | None => false end.

(** Lines 76-90. *)
Definition find_rate (txt lower_ : str) : option str :=
  let rate :=
    match re_search U false (re_compile rate_pattern) lower_ with
    | Some m => m_group1 m
    | None => None
    end in
  if truthy_opt rate then rate
  else
    match re_search U false (re_compile dollar_pattern) txt with
    | Some m => m_group1 m
    | None => rate
    end.

(** Lines 93-97. *)
Definition find_currency (txt lower_ : str) : result (option str) :=
  match re_search U false (re_compile currency_pattern) lower_ with
  | Some m =>
      match m_group1 m with
      | Some g => Return (Some (str_upper U g))
      | None => Raised
      end
  | None =>
      if contains (codes "$") txt then Return (Some (codes "USD"))
      else Return None
  end.

(** [extract_structured_fields(full_text)] for a [str] argument. *)
Definition extract_structured_fields (full_text : str) : result StructuredFields :=
  let txt := re_sub U false (re_compile "\s+") (codes " ") full_text in
  let lower_ := lower U txt in
  v_shipment_id ← find shipment_id_patterns txt;
  v_shipper ← find shipper_patterns lower_;
  v_consignee ← find consignee_patterns lower_;
  v_pickup ← find pickup_datetime_patterns lower_;
  v_delivery ← find delivery_datetime_patterns lower_;
  v_equipment ← find equipment_type_patterns lower_;
  v_mode ← find mode_patterns lower_;
  let v_rate := find_rate txt lower_ in
  v_currency ← find_currency txt lower_;
  v_weight ← find weight_patterns lower_;
  v_carrier ← find carrier_name_patterns lower_;
  Return {|
    shipment_id := v_shipment_id;
    shipper := v_shipper;
    consignee := v_consignee;
    pickup_datetime := v_pickup;
    delivery_datetime := v_delivery;
    equipment_type := v_equipment;
    mode := v_mode;
    rate := v_rate;
    currency := v_currency;
    weight := v_weight;
    carrier_name := v_carrier
  |}.
End Extractor.

(* ===================================================================== *)
(** * The vocabulary of the statements *)
(* ===================================================================== *)

(** The stores that the constructor, [add] and [load] produce keep
    [self.dim] equal to the dimension of the flat index. *)
Definition store_ok (s : VectorStore) : Prop := dim s = d (index s).

(** [a] is at least as close as [b]: smaller distance, or the same
    distance and a label that is not larger. *)
Definition hit_le (a b : hit) : Prop :=
  (snd a < snd b)%Q \/ ((snd a == snd b)%Q /\ fst a <= fst b).

(** [a] is strictly closer than [b]: the label breaks the tie. *)
Definition hit_lt (a b : hit) : Prop :=
  (snd a < snd b)%Q \/ ((snd a == snd b)%Q /\ fst a < fst b).

(** The search result for the entry at position [i] of the store. *)
Definition entry_result (s : VectorStore) (q : vec) (i : nat) : option SearchResult :=
  match text_chunks s !! i, xb (index s) !! i with
  | Some c, Some v => Some {| chunk := c; distance := l2sqr q v |}
  | _, _ => None
  end.

(** Entry [i] is strictly closer to [q] than entry [j], or as close and
    inserted earlier. *)
Definition entry_before (s : VectorStore) (q : vec) (i j : nat) : Prop :=
  match xb (index s) !! i, xb (index s) !! j with
  | Some v, Some w =>
      (l2sqr q v < l2sqr q w)%Q \/ ((l2sqr q v == l2sqr q w)%Q /\ (i < j)%nat)
  | _, _ => False
  end.

(** A hit that [scan] produced. *)
Definition scanned (i : IndexFlatL2) (q : vec) (h : hit) : Prop :=
  exists (j : nat) (v : vec), xb i !! j = Some v /\ h = (Z.of_nat j, l2sqr q v).

(** The positions that [collect] keeps. *)
Definition kept_labels (chunks : list Chunk) (hits : list hit) : list nat :=
  omap (fun h : hit =>
          if (0 <=? fst h) && (fst h <? Z.of_nat (length chunks))
          then Some (Z.to_nat (fst h)) else None) hits.

(** [needle] occurs in [hay] as a run of consecutive characters. *)
Definition substring (needle hay : str) : Prop :=
  exists pre post, hay = pre ++ needle ++ post.

(** The number of characters counted in a vector of counts. *)
Definition total (v : list Z) : Z := fold_right Z.add 0 v.

(** The sum of the squares of the components. *)
Definition sumsq (v : list R) : R := fold_right (fun x acc => x * x + acc)%R 0%R v.

(** Group 1 lies on every path through the pattern. *)
Fixpoint sets_group (r : regex) : bool :=
  match r with
  | Group _ => true
  | Seq r1 r2 => sets_group r1 || sets_group r2
  | Or r1 r2 => sets_group r1 && sets_group r2
  | Repeat _ lo _ r' => (0 <? lo)%nat && sets_group r'
  | _ => false
  end.

(** The outcome of a match attempt has group 1 whenever it is a match. *)
Definition has_group (o : option Match) : Prop :=
  forall m, o = Some m -> is_Some (m_group1 m).

(** The [k]-th window over a page text when the window start advances by
    [step]: [text[k * step : k * step + chunk_size]]. *)
Definition window (txt : str) (chunk_size step : Z) (k : nat) : str :=
  py_slice txt (Z.of_nat k * step) (Z.of_nat k * step + chunk_size).

(** The chunks of one page in closed form: its windows number
    [0 .. ceil(len / step) - 1], without those that are all whitespace. *)
Definition page_windows (U : unicode) (chunk_size overlap : Z) (p : Page)
    : list Chunk :=
  omap (fun k =>
          let w := window (page_text p) chunk_size (chunk_size - overlap) k in
          if forallb (is_space U) w then None
          else Some {| text := w; page := page_number p |})
    (seq 0 (steps_needed (Z.of_nat (length (page_text p))) 0
              (chunk_size - overlap))).

(** [c] is cut out of page [p]: it carries the page's number and its text
    is a run of consecutive characters of the page that is not all
    whitespace. *)
Definition page_piece (U : unicode) (p : Page) (c : Chunk) : Prop :=
  page c = page_number p /\
  substring (text c) (page_text p) /\
  strip U (text c) <> [].

(** The number of characters of [s] whose code falls into slot [j] of a
    vector of [dim] slots. *)
Definition slot_count (dim : Z) (s : str) (j : nat) : Z :=
  Z.of_nat (length (List.filter (fun c => Nat.eqb (Z.to_nat (c mod dim)) j) s)).

(** A rational stand-in for the embedder, to run the retriever on concrete
    texts: the raw counts of 128 slots, not normalised. *)
Definition count_embed (s : str) : vec :=
  List.map inject_Z (default [] (char_counts ascii_tables s 128)).

(* ===================================================================== *)
(** * main.py: the pure parts of the endpoints *)
(* ===================================================================== *)

(** The eleven keys of the structured record. *)
Inductive field :=
| F_shipment_id | F_shipper | F_consignee | F_pickup_datetime
| F_delivery_datetime | F_equipment_type | F_mode | F_rate | F_currency
| F_weight | F_carrier_name.

Definition field_name (f : field) : string :=
  match f with
  | F_shipment_id => "shipment_id"
  | F_shipper => "shipper"
  | F_consignee => "consignee"
  | F_pickup_datetime => "pickup_datetime"
  | F_delivery_datetime => "delivery_datetime"
  | F_equipment_type => "equipment_type"
  | F_mode => "mode"
  | F_rate => "rate"
  | F_currency => "currency"
  | F_weight => "weight"
  | F_carrier_name => "carrier_name"
  end.

(** [structured_data.get(field)] on the record of the eleven fields. *)
Definition get_field (f : field) (r : StructuredFields) : option str :=
  match f with
  | F_shipment_id => shipment_id r
  | F_shipper => shipper r
  | F_consignee => consignee r
  | F_pickup_datetime => pickup_datetime r
  | F_delivery_datetime => delivery_datetime r
  | F_equipment_type => equipment_type r
  | F_mode => mode r
  | F_rate => rate r
  | F_currency => currency r
  | F_weight => weight r
  | F_carrier_name => carrier_name r
  end.

(** The dictionary [FIELD_KEYWORDS] of [ask_question], in its order. *)
Definition FIELD_KEYWORDS : list (field * list str) := [
  (F_shipment_id, List.map codes ["shipment id"; "shipment number"; "load id"]%string);
  (F_shipper, List.map codes ["shipper"]%string);
  (F_consignee, List.map codes ["consignee"; "receiver"]%string);
  (F_pickup_datetime, List.map codes ["pickup date"; "pickup time"; "pick up"]%string);
  (F_delivery_datetime, List.map codes ["delivery date"; "delivery time"; "deliver"]%string);
  (F_equipment_type, List.map codes ["equipment type"; "equipment"]%string);
  (F_mode, List.map codes ["mode of transport"; "shipping mode"]%string);
  (F_rate, List.map codes ["carrier rate"; "rate"; "charge"; "amount"]%string);
  (F_currency, List.map codes ["currency"]%string);
  (F_weight, List.map codes ["weight"]%string);
  (F_carrier_name, List.map codes ["carrier name"; "carrier"]%string)
].

(** Where a source comes from: a page number, or the string
    ["structured"]. *)
Inductive page_ref :=
| PageNo (n : Z)
| PageStructured.

Record Source := { src_page : page_ref; src_text : str }.

(** The body of a response of [/ask]. *)
Record Response := {
  answer : str;
  confidence : Q;
  sources : list Source
}.

(** The inner loop of lines 112-121 for one field whose cached value is
    [value]: the first keyword found in the question decides; a value
    that is [None] or empty ends the loop ([break]). *)
Fixpoint keyword_scan (keywords : list str) (question_lower : str)
    (value : option str) : option str :=
  match keywords with
  | [] => None
  | kw :: rest =>
      if contains kw question_lower then
        if truthy_opt value then value else None
      else keyword_scan rest question_lower value
  end.

(** The outer loop of lines 111-121; [structured_data] is [None] when
    nothing was uploaded ([STRUCTURED_CACHE.get("data", {})] is then the
    empty dictionary, and every [get] gives [None]). *)
Fixpoint field_scan (entries : list (field * list str)) (question_lower : str)
    (structured_data : option StructuredFields) : option Response :=
  match entries with
  | [] => None
  | (f, keywords) :: rest =>
      match keyword_scan keywords question_lower
              (match structured_data with
               | Some r => get_field f r
               | None => None
               end) with
      | Some value =>
          Some {| answer := value;
                  confidence := (95 # 100)%Q;
                  sources := [{| src_page := PageStructured;
                                 src_text := codes "Extracted from " ++
                                             codes (field_name f) |}] |}
      | None => field_scan rest question_lower structured_data
      end
  end.

Definition not_found : Response :=
  {| answer := codes "Not found in document."; confidence := 0%Q; sources := [] |}.

Section Ask.
Variable U : unicode.

(** Lines 92-121 of [ask_question]: the direct lookup in the cache. *)
Definition structured_answer (question : str)
    (structured_data : option StructuredFields) : option Response :=
  field_scan FIELD_KEYWORDS (lower U question) structured_data.

(** Lines 139-166 of [ask_question]: the response built from the retrieved
    results.  [llm_answer] is what [puter_generate_answer] gave, [None]
    when it failed or raised. *)
Definition answer_from_results (question : str) (results : list SearchResult)
    (llm_answer : option str) : Response :=
  let safe := final_guardrail U question results in
  if negb safe || negb (match results with [] => false | _ :: _ => true end)
  then not_found
  else
    match results with
    | [] => not_found
    | r0 :: _ =>
        let conf := calculate_confidence results max_distance_default in
        let fallback := py_slice (text (chunk r0)) 0 500 in
        let ans :=
          match llm_answer with
          | Some a =>
              if truthy a &&
                 negb (contains (codes "not found in document") (lower U a))
              then a else fallback
          | None => fallback
          end in
        {| answer := ans;
           confidence := conf;
           sources :=
             List.map (fun r => {| src_page := PageNo (page (chunk r));
                                   src_text := py_slice (text (chunk r)) 0 200 |})
               (py_slice results 0 3) |}
    end.
End Ask.

(** The dictionary that [extract_structured_fields] returns (lines
    111-123). *)
Definition fields_dict (r : StructuredFields) : gmap string (option str) :=
  list_to_map
    (List.map (fun f => (field_name f, get_field f r))
       [F_shipment_id; F_shipper; F_consignee; F_pickup_datetime;
        F_delivery_datetime; F_equipment_type; F_mode; F_rate; F_currency;
        F_weight; F_carrier_name]).

(** Lines 71-74 of [upload_file] (and 193-196 of [extract_data]): the
    values of the LLM that are not [None] overwrite the entries of
    [structured_data]; [llm_data] is the list of the dictionary's items,
    and an empty dictionary is skipped by [if llm_data]. *)
Definition merge_llm (structured_data : gmap string (option str))
    (llm_data : list (string * option str)) : gmap string (option str) :=
  fold_left
    (fun acc kv =>
       match snd kv with
       | Some v => <[fst kv := Some v]> acc
       | None => acc
       end)
    llm_data structured_data.

(** The tokens of a lower-cased text: [re.findall(r"\w+", s.lower())]. *)
Definition word_tokens (U : unicode) (s : str) : list str :=
  re_findall U false (re_compile "\w+") (lower U s).

(** The question words that count for the coverage check: the tokens that
    are no stop words and have more than one character. *)
Definition content_words (U : unicode) (question : str) : list str :=
  List.filter (fun w => negb (in_list w stop_words) && (1 <? Z.of_nat (length w)))
    (word_tokens U question).

(** The LLM's answer cannot be used: there is none, it is empty, or it
    says that nothing was found. *)
Definition llm_unusable (U : unicode) (llm_answer : option str) : Prop :=
  llm_answer = None \/ llm_answer = Some [] \/
  exists a, llm_answer = Some a /\
            substring (codes "not found in document") (lower U a).

(* ===================================================================== *)
(** * Theorems: strings *)
(* ===================================================================== *)

Lemma lstrip_nil_iff U (s : str) :
  lstrip U s = [] <-> forallb (is_space U) s = true.
Proof.
  induction s as [|c r IH]; simpl; [tauto|].
  destruct (is_space U c); simpl; [exact IH|].
  split; discriminate.
Qed.

Lemma forallb_reverse {A} (f : A -> bool) (l : list A) :
  forallb f (reverse l) = forallb f l.
Proof.
  induction l as [|a l IH]; [reflexivity|].
  rewrite reverse_cons, forallb_app, IH. simpl.
  rewrite andb_true_r. apply andb_comm.
Qed.

Lemma lstrip_suffix U (s : str) :
  forallb (is_space U) (lstrip U s) = forallb (is_space U) s.
Proof.
  induction s as [|c r IH]; simpl; [reflexivity|].
  destruct (is_space U c) eqn:E; simpl; [exact IH|].
  now rewrite E.
Qed.

(** A string strips to the empty string exactly when all its characters
    are whitespace. *)
Lemma strip_nil_iff U (s : str) :
  strip U s = [] <-> forallb (is_space U) s = true.
Proof.
  unfold strip, rstrip.
  rewrite <- (lstrip_suffix U s), <- (forallb_reverse _ (lstrip U s)).
  rewrite <- lstrip_nil_iff.
  split; intros H.
  - apply (f_equal reverse) in H. now rewrite reverse_involutive in H.
  - now rewrite H.
Qed.

Lemma truthy_strip U (s : str) :
  truthy (strip U s) = negb (forallb (is_space U) s).
Proof.
  destruct (forallb (is_space U) s) eqn:E.
  - apply strip_nil_iff in E. now rewrite E.
  - destruct (strip U s) eqn:E'; [|reflexivity].
    apply strip_nil_iff in E'. congruence.
Qed.

Lemma forallb_drop {A} (f : A -> bool) (n : nat) (l : list A) :
  forallb f l = true -> forallb f (drop n l) = true.
Proof.
  revert n; induction l as [|a l IH]; intros [|n] H; simpl in *; auto.
  apply andb_true_iff in H as [_ H]. now apply IH.
Qed.

(** A slice whose upper bound is at or past the end is a [drop]. *)
Lemma py_slice_to_end {A} (l : list A) (lo hi : Z) :
  0 <= lo -> Z.of_nat (length l) <= hi -> 0 <= hi ->
  py_slice l lo hi = drop (Z.to_nat lo) l.
Proof.
  intros Hlo Hhi Hhi0. unfold py_slice, slice_bound.
  destruct (Z.ltb_spec lo 0); [lia|].
  destruct (Z.ltb_spec hi 0); [lia|].
  rewrite (Z.min_r hi) by lia.
  destruct (Z.le_gt_cases lo (Z.of_nat (length l))).
  - rewrite Z.min_l by lia.
    apply take_ge. rewrite length_drop. lia.
  - rewrite Z.min_r by lia.
    rewrite !drop_ge by lia. now rewrite take_nil.
Qed.

(* ===================================================================== *)
(** * Theorems: the chunker *)
(* ===================================================================== *)

Section ChunkerFacts.
Variable U : unicode.

Lemma while_loop_done fuel cs ov txt pn st :
  Z.of_nat (length txt) <= fst st ->
  while_loop U fuel cs ov txt pn st = Some (snd st).
Proof.
  intros H. destruct fuel; simpl;
    destruct (Z.ltb_spec (fst st) (Z.of_nat (length txt))); (lia || reflexivity).
Qed.

Lemma while_loop_step fuel cs ov txt pn st :
  fst st < Z.of_nat (length txt) ->
  while_loop U (S fuel) cs ov txt pn st =
  while_loop U fuel cs ov txt pn (loop_body U cs ov txt pn st).
Proof.
  intros H. simpl.
  destruct (Z.ltb_spec (fst st) (Z.of_nat (length txt))); [reflexivity|lia].
Qed.

(** With [overlap < chunk_size] the window start strictly advances. *)
Lemma loop_body_advances cs ov txt pn start chunks :
  0 <= start -> ov < cs ->
  fst (loop_body U cs ov txt pn (start, chunks)) = start + (cs - ov).
Proof.
  intros H0 H. unfold loop_body. simpl.
  destruct (Z.ltb_spec (start + cs - ov) 0); simpl; lia.
Qed.

(** With [overlap >= chunk_size] the window start falls back to, or
    stays at, a position not after the current one. *)
Lemma loop_body_stuck cs ov txt pn chunks :
  cs <= ov ->
  fst (loop_body U cs ov txt pn (0, chunks)) = 0.
Proof.
  intros H. unfold loop_body. simpl.
  destruct (Z.ltb_spec (0 + cs - ov) 0); simpl; lia.
Qed.

Lemma steps_needed_succ len start step :
  0 < step -> start < len ->
  steps_needed len start step = S (steps_needed len (start + step) step).
Proof.
  intros Hs Hl. unfold steps_needed.
  replace (len - start + step - 1) with ((len - (start + step) + step - 1) + 1 * step) by lia.
  rewrite Z.div_add by lia.
  assert (0 <= (len - (start + step) + step - 1) / step)
    by (apply Z.div_pos; lia).
  lia.
Qed.

(** Termination for a valid configuration: [steps_needed] iterations are
    enough, from any non-negative window start. *)
Lemma while_loop_terminates fuel cs ov txt pn start chunks :
  0 <= start -> ov < cs ->
  (steps_needed (Z.of_nat (length txt)) start (cs - ov) <= fuel)%nat ->
  is_Some (while_loop U fuel cs ov txt pn (start, chunks)).
Proof.
  revert start chunks.
  induction fuel as [|fuel IH]; intros start chunks H0 Hov Hfuel.
  - destruct (Z.lt_ge_cases start (Z.of_nat (length txt))) as [Hlt|Hge].
    + rewrite steps_needed_succ in Hfuel by lia. lia.
    + rewrite while_loop_done by (simpl; lia). eauto.
  - destruct (Z.lt_ge_cases start (Z.of_nat (length txt))) as [Hlt|Hge].
    + rewrite while_loop_step by (simpl; lia).
      pose proof (loop_body_advances cs ov txt pn start chunks H0 Hov) as Hadv.
      destruct (loop_body U cs ov txt pn (start, chunks)) as [start' chunks'].
      simpl in Hadv. subst start'.
      apply IH; [lia|lia|].
      rewrite steps_needed_succ in Hfuel by lia. lia.
    + rewrite while_loop_done by (simpl; lia). eauto.
Qed.

(** Non-termination for [overlap >= chunk_size] on a non-empty page: no
    amount of fuel is enough. *)
Lemma while_loop_diverges fuel cs ov txt pn chunks :
  cs <= ov -> txt <> [] ->
  while_loop U fuel cs ov txt pn (0, chunks) = None.
Proof.
  intros Hov Hne. revert chunks.
  assert (0 < Z.of_nat (length txt)) as Hlen
    by (destruct txt; [congruence|simpl; lia]).
  induction fuel as [|fuel IH]; intros chunks.
  - simpl. destruct (Z.ltb_spec 0 (Z.of_nat (length txt))); [reflexivity|lia].
  - rewrite while_loop_step by (simpl; lia).
    pose proof (loop_body_stuck cs ov txt pn chunks Hov) as Hst.
    destruct (loop_body U cs ov txt pn (0, chunks)) as [start' chunks'].
    simpl in Hst. subst start'. apply IH.
Qed.

(** More fuel does not change a result. *)
Lemma while_loop_more_fuel fuel fuel' cs ov txt pn st res :
  while_loop U fuel cs ov txt pn st = Some res ->
  (fuel <= fuel')%nat ->
  while_loop U fuel' cs ov txt pn st = Some res.
Proof.
  revert fuel' st. induction fuel as [|fuel IH]; intros fuel' st H Hle.
  - simpl in H.
    destruct (Z.ltb_spec (fst st) (Z.of_nat (length txt))); [discriminate|].
    rewrite while_loop_done by lia. exact H.
  - destruct fuel' as [|fuel']; [lia|].
    destruct (Z.lt_ge_cases (fst st) (Z.of_nat (length txt))) as [Hlt|Hge].
    + rewrite while_loop_step in * by lia. apply IH; [exact H|lia].
    + rewrite while_loop_done in * by lia. exact H.
Qed.

(** The loop only appends to [chunks]. *)
Lemma while_loop_appends fuel cs ov txt pn st res :
  while_loop U fuel cs ov txt pn st = Some res ->
  exists more, res = snd st ++ more.
Proof.
  revert st. induction fuel as [|fuel IH]; intros st H.
  - simpl in H.
    destruct (Z.ltb_spec (fst st) (Z.of_nat (length txt))); [discriminate|].
    exists []. rewrite app_nil_r. congruence.
  - destruct (Z.lt_ge_cases (fst st) (Z.of_nat (length txt))) as [Hlt|Hge].
    + rewrite while_loop_step in H by lia.
      apply IH in H as [more ->].
      destruct st as [start chunks]. unfold loop_body. simpl.
      destruct (truthy _); simpl.
      * exists ({| text := py_slice txt start (start + cs); page := pn |} :: more).
        now rewrite <- app_assoc.
      * now exists more.
    + rewrite while_loop_done in H by lia.
      exists []. rewrite app_nil_r. congruence.
Qed.
End ChunkerFacts.

Section ChunkerTheorems.
Variable U : unicode.

Lemma chunk_pages_terminates fuel cs ov pages chunks :
  ov < cs ->
  Forall (fun p => (steps_needed (Z.of_nat (length (page_text p))) 0 (cs - ov)
                    <= fuel)%nat) pages ->
  is_Some (chunk_pages U fuel cs ov pages chunks).
Proof.
  intros Hov Hall. revert chunks.
  induction Hall as [|p pages Hp _ IH]; intros chunks; simpl; [eauto|].
  unfold chunk_page.
  destruct (while_loop_terminates U fuel cs ov (page_text p) (page_number p)
              0 chunks) as [res Hres]; [lia|lia|exact Hp|].
  rewrite Hres. apply IH.
Qed.

(** For [overlap < chunk_size], [chunk_text] returns: every page's loop
    ends within the ceiling of [len / (chunk_size - overlap)] steps. *)
Theorem chunk_text_terminates fuel pages cs ov :
  ov < cs ->
  Forall (fun p => (steps_needed (Z.of_nat (length (page_text p))) 0 (cs - ov)
                    <= fuel)%nat) pages ->
  is_Some (chunk_text U fuel pages cs ov).
Proof. intros. now apply chunk_pages_terminates. Qed.

Lemma chunk_pages_diverges fuel cs ov pages chunks :
  cs <= ov ->
  Exists (fun p => page_text p <> []) pages ->
  chunk_pages U fuel cs ov pages chunks = None.
Proof.
  intros Hov Hex. revert chunks.
  induction pages as [|p pages IH]; intros chunks; [inversion Hex|].
  simpl. unfold chunk_page.
  destruct (decide (page_text p = [])) as [Hnil|Hne].
  - rewrite while_loop_done by (rewrite Hnil; simpl; lia).
    apply IH. inversion Hex; subst; [contradiction|assumption].
  - now rewrite while_loop_diverges.
Qed.

(** For [overlap >= chunk_size], [chunk_text] does not return as soon as
    one page has a character: the configuration is neither rejected
    nor taken as zero-overlap. *)
Theorem chunk_text_diverges fuel pages cs ov :
  cs <= ov ->
  Exists (fun p => page_text p <> []) pages ->
  chunk_text U fuel pages cs ov = None.
Proof. intros. now apply chunk_pages_diverges. Qed.

Lemma while_loop_blank_tail fuel cs ov txt pn start chunks res :
  Z.of_nat (length txt) <= cs -> 0 <= ov < cs -> cs - ov <= start ->
  forallb (is_space U) (drop (Z.to_nat (cs - ov)) txt) = true ->
  while_loop U fuel cs ov txt pn (start, chunks) = Some res ->
  res = chunks.
Proof.
  intros Hlen Hov. revert start.
  induction fuel as [|fuel IH]; intros start Hstart Hblank H.
  - simpl in H.
    destruct (Z.ltb_spec start (Z.of_nat (length txt))); [discriminate|congruence].
  - destruct (Z.lt_ge_cases start (Z.of_nat (length txt))) as [Hlt|Hge].
    + rewrite while_loop_step in H by (simpl; lia).
      unfold loop_body in H.
      rewrite py_slice_to_end, truthy_strip in H by lia.
      replace (drop (Z.to_nat start) txt)
        with (drop (Z.to_nat (start - (cs - ov))) (drop (Z.to_nat (cs - ov)) txt)) in H
        by (rewrite drop_drop; f_equal; lia).
      rewrite forallb_drop in H by exact Hblank. simpl in H.
      destruct (Z.ltb_spec (start + cs - ov) 0); [lia|].
      apply IH in H; [exact H|lia|exact Hblank].
    + rewrite while_loop_done in H by (simpl; lia). simpl in H. congruence.
Qed.
End ChunkerTheorems.

(** C1, at the failing input [chunk_text([{"text": "a", "page": 1}],
    chunk_size=1, overlap=1)]: whatever the number of iterations allowed,
    the loop has not ended.  The window start is 0 again after every pass,
    so the call never returns, where the claim wants the configuration
    rejected or treated as zero-overlap. *)
Theorem chunk_text_overlap_eq_size_loops (U : unicode) (fuel : nat) :
  chunk_text U fuel [{| page_text := codes "a"; page_number := 1 |}] 1 1 = None.
Proof.
  apply chunk_text_diverges; [lia|].
  constructor. simpl. discriminate.
Qed.

(** C3 as stated fails under the default configuration: a page of 500
    non-blank characters yields two chunks, the page itself and its last
    100 characters. *)
Lemma exact_size_page_two_chunks :
  let txt := replicate 500 (ch "a") in
  Z.of_nat (length txt) = chunk_size_default /\
  strip ascii_tables txt <> [] /\
  chunk_text ascii_tables 2 [{| page_text := txt; page_number := 1 |}]
    chunk_size_default overlap_default
  = Some [{| text := txt; page := 1 |};
          {| text := replicate 100 (ch "a"); page := 1 |}].
Proof.
  split; [reflexivity|]. split; [vm_compute; discriminate|].
  vm_compute. reflexivity.
Qed.

(** C3, amended: a page of exactly [chunk_size] characters that is not all
    whitespace is chunked (for [0 <= overlap < chunk_size]) into the whole
    page first, and this is the only chunk exactly when the last [overlap]
    characters, [text[chunk_size - overlap : chunk_size]], are all
    whitespace; a zero overlap is such a case. *)
Theorem exact_size_page_chunks (U : unicode) (cs ov : Z) (txt : str) (pn : Z)
    (fuel : nat) :
  0 <= ov < cs ->
  Z.of_nat (length txt) = cs ->
  strip U txt <> [] ->
  (steps_needed cs 0 (cs - ov) <= fuel)%nat ->
  exists rest,
    chunk_text U fuel [{| page_text := txt; page_number := pn |}] cs ov
      = Some ({| text := txt; page := pn |} :: rest) /\
    (rest = [] <-> strip U (py_slice txt (cs - ov) cs) = []) /\
    (ov = 0 -> rest = []).
Proof.
  intros Hov Hlen Hne Hfuel.
  assert (truthy (strip U txt) = true) as Htr
    by (destruct (strip U txt); [congruence|reflexivity]).
  unfold chunk_text. simpl. unfold chunk_page. simpl.
  destruct (while_loop_terminates U fuel cs ov txt pn 0 []) as [res Hres];
    [lia|lia|now rewrite Hlen|].
  rewrite Hres.
  destruct fuel as [|fuel].
  { rewrite (steps_needed_succ cs 0 (cs - ov)) in Hfuel by lia. lia. }
  rewrite while_loop_step in Hres by (simpl; lia).
  unfold loop_body in Hres. simpl in Hres.
  rewrite py_slice_to_end in Hres by lia.
  change (drop (Z.to_nat 0) txt) with txt in Hres.
  rewrite Htr, Z.add_0_l in Hres.
  destruct (Z.ltb_spec (cs - ov) 0); [lia|].
  rewrite py_slice_to_end by lia.
  destruct (while_loop_appends _ _ _ _ _ _ _ _ Hres) as [rest ->]. simpl in *.
  exists rest. rewrite strip_nil_iff.
  assert (forallb (is_space U) (drop (Z.to_nat (cs - ov)) txt) = true -> rest = [])
    as Hblank.
  { intros Hb.
    apply while_loop_blank_tail in Hres; [|lia|lia|lia|exact Hb].
    now injection Hres. }
  split; [reflexivity|split; [split|]].
  - intros ->.
    destruct (forallb (is_space U) (drop (Z.to_nat (cs - ov)) txt)) eqn:Hb;
      [reflexivity|exfalso].
    destruct (Z.lt_ge_cases (cs - ov) (Z.of_nat (length txt))) as [Hlt|Hge].
    + destruct fuel as [|fuel].
      { simpl in Hres.
        destruct (Z.ltb_spec (cs - ov) (Z.of_nat (length txt))); [discriminate|lia]. }
      rewrite while_loop_step in Hres by (simpl; lia).
      unfold loop_body in Hres.
      rewrite py_slice_to_end, truthy_strip, Hb in Hres by lia. simpl in Hres.
      apply while_loop_appends in Hres as [more Hmore]. simpl in Hmore.
      discriminate.
    + rewrite drop_ge in Hb by lia. discriminate.
  - exact Hblank.
  - intros ->. apply Hblank.
    rewrite drop_ge by lia. reflexivity.
Qed.

Lemma exact_size_page_chunks_witness :
  exists rest,
    chunk_text ascii_tables 1 [{| page_text := codes "ab"; page_number := 7 |}] 2 0
      = Some ({| text := codes "ab"; page := 7 |} :: rest) /\
    (rest = [] <-> strip ascii_tables (py_slice (codes "ab") (2 - 0) 2) = []) /\
    (0 = 0 -> rest = []).
Proof.
  apply (exact_size_page_chunks ascii_tables 2 0 (codes "ab") 7 1).
  - lia.
  - reflexivity.
  - vm_compute. discriminate.
  - vm_compute. lia.
Defined.

(* ===================================================================== *)
(** * Theorems: the vector store *)
(* ===================================================================== *)

Lemma store_ok_init n : store_ok (VectorStore_init n).
Proof. reflexivity. Qed.

Lemma index_add_d i x i' : index_add i x = Some i' -> d i' = d i.
Proof.
  unfold index_add. destruct (Nat.eqb _ _); [|discriminate].
  now intros [= <-].
Qed.

Lemma store_ok_add s vectors chunks :
  store_ok s -> store_ok (fst (add s vectors chunks)).
Proof.
  unfold store_ok, add. intros H.
  destruct (index_add (index s) vectors) eqn:E; simpl; [|exact H].
  apply index_add_d in E. congruence.
Qed.

Lemma store_ok_load path fs s : load path fs = Return (Some s) -> store_ok s.
Proof.
  unfold load, store_ok. intros H.
  destruct (fs !! path_join path "index.faiss") as [fi|]; [|discriminate].
  destruct (fs !! path_join path "chunks.json") as [fc|]; [|discriminate].
  destruct fi, fc; try discriminate.
  injection H as <-. reflexivity.
Qed.

(** C2 as stated fails: one vector and two chunks are accepted, and the
    store is left with one vector for two chunks. *)
Lemma add_accepts_length_mismatch :
  let vectors := {| ncols := 1; rows := [[1%Q]] |} in
  let chunks := [{| text := codes "a"; page := 1 |};
                 {| text := codes "b"; page := 1 |}] in
  length (rows vectors) <> length chunks /\
  add (VectorStore_init 1) vectors chunks =
    ({| dim := 1; index := {| d := 1; xb := [[1%Q]] |}; text_chunks := chunks |},
     Return tt).
Proof. split; [discriminate|reflexivity]. Qed.

(** C2, amended: [add] fails, leaving the store as it was, exactly when the
    dimension of the vectors differs from the index's; when it agrees the
    call succeeds and appends all the vectors and all the chunks in order,
    whatever their numbers. *)
Theorem add_checks_dimension_only (s : VectorStore) (vectors : ndarray)
    (chunks : list Chunk) :
  store_ok s -> ndarray_wf vectors ->
  (ncols vectors <> dim s \/ Exists (fun v => length v <> dim s) (rows vectors) ->
   add s vectors chunks = (s, Raised)) /\
  (ncols vectors = dim s ->
   add s vectors chunks =
     ({| dim := dim s;
         index := {| d := dim s; xb := xb (index s) ++ rows vectors |};
         text_chunks := text_chunks s ++ chunks |},
      Return tt)).
Proof.
  unfold store_ok, ndarray_wf, add, index_add. intros Hok Hwf. split.
  - intros Hbad.
    assert (ncols vectors <> d (index s)) as Hne.
    { destruct Hbad as [H|H]; [congruence|].
      apply Exists_exists in H as (v & Hin & Hv).
      rewrite Forall_forall in Hwf. specialize (Hwf v Hin). congruence. }
    apply Nat.eqb_neq in Hne. now rewrite Hne.
  - intros Heq. rewrite Hok in Heq. rewrite <- Hok at 2.
    apply Nat.eqb_eq in Heq. rewrite Heq. now rewrite Hok.
Qed.

Lemma add_checks_dimension_only_witness :
  let s := VectorStore_init 1 in
  let vectors := {| ncols := 1; rows := [[1%Q]] |} in
  let chunks := [{| text := codes "a"; page := 1 |};
                 {| text := codes "b"; page := 1 |}] in
  (ncols vectors <> dim s \/ Exists (fun v => length v <> dim s) (rows vectors) ->
   add s vectors chunks = (s, Raised)) /\
  (ncols vectors = dim s ->
   add s vectors chunks =
     ({| dim := dim s;
         index := {| d := dim s; xb := xb (index s) ++ rows vectors |};
         text_chunks := text_chunks s ++ chunks |},
      Return tt)).
Proof.
  apply add_checks_dimension_only.
  - reflexivity.
  - repeat constructor.
Defined.

(** ** The order of a result row *)

Lemma closer_spec a b : closer a b = true <-> hit_le a b.
Proof.
  unfold closer, hit_le.
  destruct (snd a ?= snd b)%Q eqn:E.
  - apply Qeq_alt in E. rewrite Z.leb_le. split; [auto|].
    intros [H|[_ H]]; [exfalso; lra|exact H].
  - apply Qlt_alt in E. split; [auto|reflexivity].
  - apply Qgt_alt in E. split; [discriminate|].
    intros [H|[H _]]; exfalso; lra.
Qed.

Lemma hit_le_total a b : hit_le a b \/ hit_le b a.
Proof.
  unfold hit_le.
  destruct (Q_dec (snd a) (snd b)) as [[H|H]|H]; [auto|auto|].
  destruct (Z.le_ge_cases (fst a) (fst b)); [left|right]; right; split;
    (lra || lia || (symmetry; assumption) || assumption).
Qed.

Lemma hit_le_trans a b c : hit_le a b -> hit_le b c -> hit_le a c.
Proof.
  unfold hit_le. intros [H1|[H1 H1']] [H2|[H2 H2']].
  - left; lra.
  - left; lra.
  - left; lra.
  - right; split; [lra|lia].
Qed.

Lemma insert_hit_perm h l : insert_hit h l ≡ₚ h :: l.
Proof.
  induction l as [|y r IH]; simpl; [reflexivity|].
  destruct (closer h y); [reflexivity|].
  rewrite IH. apply Permutation_swap.
Qed.

Lemma sort_hits_perm l : sort_hits l ≡ₚ l.
Proof.
  induction l as [|h l IH]; simpl; [reflexivity|].
  rewrite insert_hit_perm. now rewrite IH.
Qed.

Lemma insert_hit_sorted h l :
  StronglySorted hit_le l -> StronglySorted hit_le (insert_hit h l).
Proof.
  induction 1 as [|y r Hs IH Hall]; simpl.
  - repeat constructor.
  - destruct (closer h y) eqn:E.
    + apply closer_spec in E. constructor; [now constructor|].
      constructor; [exact E|].
      eapply Forall_impl; [exact Hall|]. intros z Hz.
      eapply hit_le_trans; eassumption.
    + assert (hit_le y h) as Hyh.
      { destruct (hit_le_total h y) as [H|H]; [|exact H].
        apply closer_spec in H. congruence. }
      constructor; [exact IH|].
      rewrite insert_hit_perm. now constructor.
Qed.

Lemma sort_hits_sorted l : StronglySorted hit_le (sort_hits l).
Proof.
  induction l as [|h l IH]; simpl; [constructor|].
  now apply insert_hit_sorted.
Qed.

(** With distinct labels the order is strict. *)
Lemma sorted_strict l :
  NoDup (List.map fst l) -> StronglySorted hit_le l -> StronglySorted hit_lt l.
Proof.
  intros Hnd Hs. induction Hs as [|a l Hs IH Hall]; [constructor|].
  simpl in Hnd. apply NoDup_cons in Hnd as [Hnotin Hnd].
  constructor; [now apply IH|].
  rewrite Forall_forall in *. intros b Hb.
  destruct (Hall b Hb) as [H|[H H']]; [now left|right].
  split; [exact H|].
  assert (fst a <> fst b); [|lia].
  intros Heq. apply Hnotin. rewrite Heq.
  apply list_elem_of_fmap. now exists b.
Qed.

Lemma zip_map_fst_snd {A B} (l : list (A * B)) :
  zip (List.map fst l) (List.map snd l) = l.
Proof. induction l as [|[a b] l IH]; simpl; [reflexivity|now rewrite IH]. Qed.

Lemma scan_length i q : length (scan i q) = ntotal i.
Proof. apply length_imap. Qed.

Lemma scan_scanned i q : Forall (scanned i q) (scan i q).
Proof.
  apply Forall_forall. intros h Hh.
  apply elem_of_lookup_imap_1 in Hh as (j & v & -> & Hv).
  now exists j, v.
Qed.

Lemma scan_labels_nodup i q : NoDup (List.map fst (scan i q)).
Proof.
  unfold scan.
  change (NoDup (fst <$> imap (fun j v => (Z.of_nat j, l2sqr q v)) (xb i))).
  rewrite fmap_imap.
  rewrite (imap_ext _ (fun j _ => Z.of_nat j)) by reflexivity.
  rewrite imap_seq_0.
  apply NoDup_fmap_2; [|apply NoDup_seq].
  intros x y. apply Nat2Z.inj.
Qed.

Lemma sort_hits_length l : length (sort_hits l) = length l.
Proof. apply Permutation_length, sort_hits_perm. Qed.

Lemma sort_scan_strict i q : StronglySorted hit_lt (sort_hits (scan i q)).
Proof.
  apply sorted_strict; [|apply sort_hits_sorted].
  assert (List.map fst (sort_hits (scan i q)) ≡ₚ List.map fst (scan i q)) as ->
    by apply Permutation_map, sort_hits_perm.
  apply scan_labels_nodup.
Qed.

Lemma StronglySorted_take {A} (R : A -> A -> Prop) (n : nat) (l : list A) :
  StronglySorted R l -> StronglySorted R (take n l).
Proof.
  intros H. rewrite <- (take_drop n l) in H.
  now apply StronglySorted_app_1_l in H.
Qed.

Lemma collect_padding chunks n : collect chunks (replicate n (-1, FLT_MAX)) = [].
Proof. induction n as [|n IH]; simpl; [reflexivity|exact IH]. Qed.

Lemma kept_label_origin chunks hits j :
  j ∈ kept_labels chunks hits ->
  exists h, h ∈ hits /\ fst h = Z.of_nat j.
Proof.
  unfold kept_labels. intros H.
  apply list_elem_of_omap in H as (h & Hin & Hh).
  exists h. split; [exact Hin|].
  destruct (Z.leb_spec 0 (fst h)); simpl in Hh; [|discriminate].
  destruct (fst h <? _); [|discriminate].
  injection Hh as <-. lia.
Qed.

(** What [collect] returns on a strictly ordered row of scanned hits. *)
Lemma collect_sorted s q hits :
  Forall (scanned (index s) q) hits ->
  StronglySorted hit_lt hits ->
  Forall2 (fun i r => entry_result s q i = Some r)
    (kept_labels (text_chunks s) hits) (collect (text_chunks s) hits) /\
  StronglySorted (entry_before s q) (kept_labels (text_chunks s) hits).
Proof.
  intros Hsc Hs. induction Hs as [|h hits Hs IH Hall]; [split; constructor|].
  apply Forall_cons in Hsc as [Hh Hsc].
  destruct (IH Hsc) as [IH1 IH2].
  destruct Hh as (j & v & Hv & ->).
  unfold kept_labels, collect in *. simpl.
  destruct (Z.leb_spec 0 (Z.of_nat j)); [|lia]. simpl.
  destruct (Z.ltb_spec (Z.of_nat j) (Z.of_nat (length (text_chunks s))));
    [|split; assumption].
  rewrite Nat2Z.id.
  destruct (lookup_lt_is_Some_2 (text_chunks s) j) as [c Hc]; [lia|].
  rewrite Hc. simpl. split.
  - constructor; [|exact IH1].
    unfold entry_result. now rewrite Hc, Hv.
  - constructor; [exact IH2|].
    apply Forall_forall. intros j' Hj'.
    apply kept_label_origin in Hj' as (h' & Hin & Hfst).
    rewrite Forall_forall in Hall, Hsc.
    specialize (Hall h' Hin).
    destruct (Hsc h' Hin) as (j2 & w & Hw & ->).
    simpl in Hfst. apply Nat2Z.inj in Hfst. subst j2.
    unfold entry_before. rewrite Hv, Hw.
    destruct Hall as [Hlt|[Heq Hlt]]; simpl in *; [now left|right].
    split; [exact Heq|lia].
Qed.

Lemma collect_all_kept s q hits :
  length (text_chunks s) = ntotal (index s) ->
  Forall (scanned (index s) q) hits ->
  length (collect (text_chunks s) hits) = length hits.
Proof.
  intros Hlen Hsc. induction Hsc as [|h hits Hh _ IH]; [reflexivity|].
  destruct Hh as (j & v & Hv & ->).
  apply lookup_lt_Some in Hv. unfold ntotal in Hlen.
  unfold collect in *. simpl.
  destruct (Z.leb_spec 0 (Z.of_nat j)); [|lia]. simpl.
  destruct (Z.ltb_spec (Z.of_nat j) (Z.of_nat (length (text_chunks s)))); [|lia].
  rewrite Nat2Z.id.
  destruct (lookup_lt_is_Some_2 (text_chunks s) j) as [c Hc]; [lia|].
  rewrite Hc. simpl. f_equal. exact IH.
Qed.

Lemma sorted_results s q labels rs :
  Forall2 (fun i r => entry_result s q i = Some r) labels rs ->
  StronglySorted (entry_before s q) labels ->
  StronglySorted (fun r1 r2 => (distance r1 <= distance r2)%Q) rs.
Proof.
  induction 1 as [|i r labels rs Hir Hrest IH]; intros Hs; [constructor|].
  apply StronglySorted_inv in Hs as [Hs Hall].
  constructor; [now apply IH|].
  apply Forall_forall. intros r' Hr'.
  apply list_elem_of_lookup in Hr' as [n Hn].
  destruct (Forall2_lookup_r _ _ _ _ _ Hrest Hn) as (j & Hj & Hjr).
  rewrite Forall_forall in Hall.
  assert (entry_before s q i j) as Hb
    by (apply Hall; eapply list_elem_of_lookup_2; exact Hj).
  unfold entry_before, entry_result in *.
  destruct (text_chunks s !! i), (xb (index s) !! i); try discriminate.
  destruct (text_chunks s !! j), (xb (index s) !! j); try discriminate.
  injection Hir as <-. injection Hjr as <-. simpl.
  destruct Hb as [Hb|[Hb _]]; lra.
Qed.

Lemma collect_app chunks a b :
  collect chunks (a ++ b) = collect chunks a ++ collect chunks b.
Proof. apply omap_app. Qed.

Lemma index_search_row i q k :
  length q = d i -> 0 < k ->
  index_search i (as_query q) k =
  Some ([List.map snd (search_row i (Z.to_nat k) q)],
        [List.map fst (search_row i (Z.to_nat k) q)]).
Proof.
  intros Hq Hk. unfold index_search, as_query. cbn [ncols rows List.map].
  apply Nat.eqb_eq in Hq. rewrite Hq.
  destruct (Z.ltb_spec 0 k); [reflexivity|lia].
Qed.

(** The row that [search] reads back from the index. *)
Lemma search_nonempty s q top_k :
  length q = d (index s) -> ntotal (index s) <> 0%nat -> 0 < top_k ->
  search s (as_query q) top_k =
  Return (collect (text_chunks s)
            (take (Z.to_nat top_k) (sort_hits (scan (index s) q)))).
Proof.
  intros Hq Hn Hk. unfold search.
  apply Nat.eqb_neq in Hn. rewrite Hn.
  rewrite index_search_row by assumption.
  cbn [lookup list_lookup]. rewrite zip_map_fst_snd.
  unfold search_row.
  now rewrite collect_app, collect_padding, app_nil_r.
Qed.

(** C4, amended: for every state of the store and a query of the index's
    dimension, [search] returns the results of a list of distinct entries
    in ascending order of squared distance, entries at the same distance
    in insertion order; it returns the empty list on an empty index, and
    all [n] entries when the store holds [n] vectors with their [n] chunks
    and [top_k >= n].  (On a non-empty index the library refuses
    [top_k <= 0].) *)
Theorem search_ordered (s : VectorStore) (q : vec) (top_k : Z) :
  length q = d (index s) ->
  ntotal (index s) = 0%nat \/ 0 < top_k ->
  exists (labels : list nat) (rs : list SearchResult),
    search s (as_query q) top_k = Return rs /\
    Forall2 (fun i r => entry_result s q i = Some r) labels rs /\
    StronglySorted (entry_before s q) labels /\
    StronglySorted (fun r1 r2 => (distance r1 <= distance r2)%Q) rs /\
    (ntotal (index s) = 0%nat -> rs = []) /\
    (length (text_chunks s) = ntotal (index s) ->
     Z.of_nat (ntotal (index s)) <= top_k ->
     length rs = ntotal (index s)).
Proof.
  intros Hq Hk.
  destruct (decide (ntotal (index s) = 0%nat)) as [Hz|Hnz].
  - exists [], []. unfold search. rewrite Hz. simpl.
    repeat split; constructor.
  - destruct Hk as [Hk|Hk]; [contradiction|].
    set (hits := take (Z.to_nat top_k) (sort_hits (scan (index s) q))).
    assert (Forall (scanned (index s) q) hits) as Hsc.
    { apply Forall_take.
      rewrite (sort_hits_perm (scan (index s) q)). apply scan_scanned. }
    assert (StronglySorted hit_lt hits) as Hs
      by apply StronglySorted_take, sort_scan_strict.
    destruct (collect_sorted s q hits Hsc Hs) as [H1 H2].
    exists (kept_labels (text_chunks s) hits), (collect (text_chunks s) hits).
    split; [now apply search_nonempty|].
    split; [exact H1|]. split; [exact H2|].
    split; [eapply sorted_results; eassumption|].
    split; [contradiction|].
    intros Hlen Hle.
    rewrite (collect_all_kept s q hits Hlen Hsc).
    unfold hits. rewrite take_ge; rewrite sort_hits_length, scan_length; lia.
Qed.

Lemma search_ordered_witness :
  let s := {| dim := 1;
              index := {| d := 1; xb := [[1%Q]; [0%Q]; [1%Q]] |};
              text_chunks := [{| text := codes "a"; page := 1 |};
                              {| text := codes "b"; page := 1 |};
                              {| text := codes "c"; page := 2 |}] |} in
  exists (labels : list nat) (rs : list SearchResult),
    search s (as_query [1%Q]) 5 = Return rs /\
    Forall2 (fun i r => entry_result s [1%Q] i = Some r) labels rs /\
    StronglySorted (entry_before s [1%Q]) labels /\
    StronglySorted (fun r1 r2 => (distance r1 <= distance r2)%Q) rs /\
    (ntotal (index s) = 0%nat -> rs = []) /\
    (length (text_chunks s) = ntotal (index s) ->
     Z.of_nat (ntotal (index s)) <= 5 ->
     length rs = ntotal (index s)).
Proof.
  apply search_ordered.
  - reflexivity.
  - right. lia.
Defined.

(** A run with a tie: the two entries at distance 0 come first,
    in insertion order. *)
Example search_ties_by_insertion :
  search {| dim := 1;
            index := {| d := 1; xb := [[1%Q]; [0%Q]; [1%Q]] |};
            text_chunks := [{| text := codes "a"; page := 1 |};
                            {| text := codes "b"; page := 1 |};
                            {| text := codes "c"; page := 2 |}] |}
         (as_query [1%Q]) 5
  = Return [{| chunk := {| text := codes "a"; page := 1 |}; distance := 0 |};
            {| chunk := {| text := codes "c"; page := 2 |}; distance := 0 |};
            {| chunk := {| text := codes "b"; page := 1 |}; distance := 1 |}].
Proof. vm_compute. reflexivity. Qed.

(** C4 as stated fails on a state that [add] reaches: [add] checks the
    vectors against the index and not against the chunks, and takes two
    vectors with one chunk.  On the store it leaves, an index with 2
    entries, a search with [top_k = 5 >= 2] returns 1 result and not 2,
    and a search with [top_k = 1] whose nearest vector has no chunk
    returns none. *)
Lemma search_fewer_chunks_than_vectors :
  let chunk_a := {| text := codes "a"; page := 1 |} in
  let added := add (VectorStore_init 1)
                   {| ncols := 1; rows := [[0%Q]; [1%Q]] |} [chunk_a] in
  let s := fst added in
  snd added = Return tt /\
  ntotal (index s) = 2%nat /\
  length (text_chunks s) = 1%nat /\
  search s (as_query [0%Q]) 5
  = Return [{| chunk := chunk_a; distance := 0 |}] /\
  search s (as_query [1%Q]) 1 = Return [] /\
  ~ (exists rs, search s (as_query [0%Q]) 5 = Return rs /\
                length rs = ntotal (index s)).
Proof.
  vm_compute. repeat split.
  intros (rs & Hrs & Hlen). injection Hrs as <-. discriminate.
Qed.

(** ** Persistence *)

Lemma append_inj_r (p a b : string) :
  String.append p a = String.append p b -> a = b.
Proof.
  induction p as [|c p IH]; simpl; [auto|].
  intros H. injection H as H. now apply IH.
Qed.

Lemma path_join_inj p a b : path_join p a = path_join p b -> a = b.
Proof.
  unfold path_join. destruct p as [|c p]; [auto|].
  destruct (ends_with_slash (String c p)); intros H;
    apply append_inj_r in H; [exact H|now injection H].
Qed.

Lemma store_paths_differ path :
  path_join path "index.faiss" <> path_join path "chunks.json".
Proof. intros H. apply path_join_inj in H. discriminate. Qed.

(** Loading what was just saved gives back the index and the chunks. *)
Lemma load_save s path fs :
  path <> EmptyString ->
  exists fs',
    save s path fs = Return fs' /\
    load path fs' =
    Return (Some {| dim := d (index s); index := index s;
                    text_chunks := text_chunks s |}).
Proof.
  intros Hp. unfold save. destruct path as [|c path]; [contradiction|].
  eexists. split; [reflexivity|]. unfold load.
  rewrite lookup_insert_ne by (apply not_eq_sym, store_paths_differ).
  rewrite !lookup_insert_eq. reflexivity.
Qed.

(** C9: [save] to a location (any but the empty path, which [os.makedirs]
    refuses) followed by [load] from it returns a store with the same
    dimension, index entries and chunks, hence one on which every search
    gives the same answer. *)
Theorem save_load_roundtrip (s : VectorStore) (path : string)
    (fs : gmap string file) :
  store_ok s -> path <> EmptyString ->
  exists fs' s',
    save s path fs = Return fs' /\
    load path fs' = Return (Some s') /\
    dim s' = dim s /\
    index s' = index s /\
    text_chunks s' = text_chunks s /\
    forall query_vector top_k,
      search s' query_vector top_k = search s query_vector top_k.
Proof.
  intros Hok Hp. destruct (load_save s path fs Hp) as (fs' & Hs & Hl).
  exists fs'. eexists. split; [exact Hs|]. split; [exact Hl|].
  simpl. repeat split. symmetry. exact Hok.
Qed.

Lemma save_load_roundtrip_witness :
  let s := fst (add (VectorStore_init 2)
                  {| ncols := 2; rows := [[1%Q; 0%Q]; [0%Q; 1%Q]] |}
                  [{| text := codes "a"; page := 1 |};
                   {| text := codes "b"; page := 1 |}]) in
  exists fs' s',
    save s STORE_DIR ∅ = Return fs' /\
    load STORE_DIR fs' = Return (Some s') /\
    dim s' = dim s /\
    index s' = index s /\
    text_chunks s' = text_chunks s /\
    forall query_vector top_k,
      search s' query_vector top_k = search s query_vector top_k.
Proof.
  apply save_load_roundtrip.
  - reflexivity.
  - discriminate.
Defined.

(** Without a snapshot [load] reports it, and a snapshot that lacks one of
    its two files counts as none. *)
Lemma load_missing path fs :
  fs !! path_join path "index.faiss" = None \/
  fs !! path_join path "chunks.json" = None ->
  load path fs = Return None.
Proof.
  unfold load. intros [H|H]; rewrite H; [reflexivity|].
  now destruct (fs !! path_join path "index.faiss").
Qed.

(* ===================================================================== *)
(** * Theorems: the guardrails *)
(* ===================================================================== *)

Lemma starts_with_spec (p s : str) :
  starts_with p s = true <-> exists post, s = p ++ post.
Proof.
  revert s. induction p as [|a p IH]; intros s; simpl.
  - split; [eauto|reflexivity].
  - destruct s as [|b s].
    + split; [discriminate|intros [post H]; discriminate].
    + rewrite andb_true_iff, Z.eqb_eq, IH. split.
      * intros [-> [post ->]]. eauto.
      * intros [post H]. injection H as -> ->. eauto.
Qed.

Lemma contains_spec (needle hay : str) :
  contains needle hay = true <-> substring needle hay.
Proof.
  unfold substring. induction hay as [|c hay IH]; simpl.
  - rewrite orb_false_r, starts_with_spec. split.
    + intros [post H]. exists [], post. exact H.
    + intros (pre & post & H). destruct pre; [eauto|discriminate].
  - rewrite orb_true_iff, IH.
    change (match needle with
            | [] => true
            | a :: p' => (a =? c) && starts_with p' hay
            end) with (starts_with needle (c :: hay)).
    rewrite starts_with_spec. split.
    + intros [[post H]|(pre & post & H)].
      * exists [], post. exact H.
      * exists (c :: pre), post. simpl. now rewrite H.
    + intros (pre & post & H). destruct pre as [|c' pre].
      * left. eauto.
      * right. injection H as _ H. eauto.
Qed.

Lemma contains_false (needle hay : str) :
  contains needle hay = false <-> ~ substring needle hay.
Proof.
  rewrite <- contains_spec. destruct (contains needle hay); split;
    congruence || (intros H; exfalso; now apply H).
Qed.

(** C7: a question whose lower-cased form has "ifsc" is rejected whenever
    the lower-cased text of the top chunk does not, whatever the distance,
    the other results and the outcome of the other checks. *)
Theorem ifsc_question_rejected (U : unicode) (question : str)
    (r : SearchResult) (rest : list SearchResult) :
  substring (codes "ifsc") (lower U question) ->
  ~ substring (codes "ifsc") (lower U (text (chunk r))) ->
  final_guardrail U question (r :: rest) = false.
Proof.
  intros Hq Ht.
  apply contains_spec in Hq. apply contains_false in Ht.
  unfold final_guardrail.
  destruct (strong_retrieval_guardrail _ _); [simpl|reflexivity].
  unfold keyword_intent_guardrail, critical_keywords.
  cbn [List.map keyword_loop]. now rewrite Hq, Ht.
Qed.

Lemma ifsc_question_rejected_witness :
  final_guardrail ascii_tables (codes "What is the IFSC code?")
    ({| chunk := {| text := codes "Rate: $2500 USD, code 12"; page := 1 |};
        distance := 0 |} :: []) = false.
Proof.
  apply ifsc_question_rejected.
  - apply contains_spec. vm_compute. reflexivity.
  - apply contains_false. vm_compute. reflexivity.
Defined.

(** The same question passes once the chunk names the keyword: the
    rejection above is the keyword check's. *)
Example ifsc_question_accepted :
  final_guardrail ascii_tables (codes "What is the IFSC code?")
    [{| chunk := {| text := codes "IFSC code: HDFC0001234"; page := 1 |};
        distance := 0 |}] = true.
Proof. vm_compute. reflexivity. Qed.

(** [re.search(r"\d", s)] finds a match exactly when [s] has a digit. *)
Lemma search_digit U prev (s : str) :
  is_Some (search_from U false (OneOf [CDigit]) prev s) <->
  exists c, c ∈ s /\ is_digit U c = true.
Proof.
  revert prev. induction s as [|x s IH]; intros prev.
  - simpl. split; [intros [m H]; discriminate|].
    intros (c & Hc & _). inversion Hc.
  - cbn [search_from]. unfold match_here. cbn [mt existsb in_item].
    unfold fold_case. rewrite orb_false_r.
    destruct (is_digit U x) eqn:E.
    + split; [intros _|eauto]. exists x. split; [constructor|exact E].
    + rewrite IH. split.
      * intros (c & Hc & Hd). exists c. split; [now constructor|exact Hd].
      * intros (c & Hc & Hd). apply elem_of_cons in Hc as [->|Hc]; [congruence|eauto].
Qed.

Lemma compile_digit : re_compile "\d" = OneOf [CDigit].
Proof. reflexivity. Qed.

Lemma existsb_contains (l : list str) (t : str) :
  existsb (fun c => contains c t) l = true <->
  exists m, m ∈ l /\ substring m t.
Proof.
  rewrite existsb_exists. split; intros (m & Hm & H); exists m.
  - split; [now apply list_elem_of_In|now apply contains_spec].
  - split; [now apply list_elem_of_In|now apply contains_spec].
Qed.

(** C10: [rate_guardrail] returns [True] exactly when the question does
    not trigger it or the chunk has a digit and a currency marker.  The
    trigger is a substring test on the lower-cased question, so that
    "separate", "operate" and "paramount" trigger it as well; the last
    conjunct is such a run. *)
Theorem rate_guardrail_substring_trigger (U : unicode) (question txt : str) :
  (rate_guardrail U question txt = true <->
   ((exists term, term ∈ rate_terms /\ substring term (lower U question)) ->
    (exists c, c ∈ lower U txt /\ is_digit U c = true) /\
    (exists m, m ∈ currency_markers /\ substring m (lower U txt)))) /\
  Forall (fun w => exists term, term ∈ rate_terms /\ substring term (codes w))
    ["separate"; "operate"; "paramount"]%string /\
  rate_guardrail ascii_tables (codes "Is there a separate dock?")
    (codes "Dock 4 is the separate one") = false.
Proof.
  split; [|split].
  - unfold rate_guardrail.
    assert ((contains (codes "rate") (lower U question)
             || contains (codes "charge") (lower U question)
             || contains (codes "amount") (lower U question)) = true <->
            exists term, term ∈ rate_terms /\ substring term (lower U question))
      as Htrig.
    { rewrite !orb_true_iff, !contains_spec. split.
      - intros [[H|H]|H]; eexists; (split; [|exact H]);
          unfold rate_terms; simpl; set_solver.
      - intros (term & Hin & H).
        apply list_elem_of_In in Hin. simpl in Hin.
        destruct Hin as [<-|[<-|[<-|[]]]]; auto. }
    destruct (_ || _ || _) eqn:E.
    + rewrite andb_true_iff, bool_decide_eq_true, compile_digit.
      unfold re_search. rewrite search_digit, existsb_contains.
      split; [auto|]. intros H. apply H. now apply Htrig.
    + split; [|reflexivity]. intros _ H. apply Htrig in H. discriminate.
  - repeat constructor.
    + exists (codes "rate"). split; [repeat constructor|].
      now exists (codes "sepa"), [].
    + exists (codes "rate"). split; [repeat constructor|].
      now exists (codes "ope"), [].
    + exists (codes "amount"). split; [unfold rate_terms; simpl; set_solver|].
      now exists (codes "par"), [].
  - vm_compute. reflexivity.
Qed.

(* ===================================================================== *)
(** * Theorems: the confidence score *)
(* ===================================================================== *)

Lemma Qcompare_lt (x y : Q) : (x < y)%Q -> (x ?= y)%Q = Lt.
Proof. apply Qlt_alt. Qed.

Lemma round_half_even_lower (x : Q) : Qfloor x <= round_half_even x.
Proof.
  unfold round_half_even.
  destruct (x - inject_Z (Qfloor x) ?= 1 # 2)%Q; [|lia|lia].
  destruct (Z.even (Qfloor x)); lia.
Qed.

Lemma round_half_even_upper (x : Q) (n : Z) :
  (x <= inject_Z n)%Q -> round_half_even x <= n.
Proof.
  intros Hx. unfold round_half_even.
  pose proof (Qfloor_le x) as Hfl.
  assert (Qfloor x <= n) as Hle.
  { rewrite Zle_Qle. lra. }
  destruct (Z.eq_dec (Qfloor x) n) as [Heq|Hne].
  - assert (x - inject_Z (Qfloor x) < 1 # 2)%Q as Hlt by (rewrite Heq; lra).
    rewrite (Qcompare_lt _ _ Hlt). lia.
  - destruct (x - inject_Z (Qfloor x) ?= 1 # 2)%Q; [|lia|lia].
    destruct (Z.even (Qfloor x)); lia.
Qed.

Lemma round_half_even_above (x : Q) (n : Z) :
  (inject_Z n <= x)%Q -> n <= round_half_even x.
Proof.
  intros Hx. etransitivity; [|apply round_half_even_lower].
  rewrite <- (Qfloor_Z n). now apply Qfloor_resp_le.
Qed.

Lemma round_half_even_integer (x : Q) (n : Z) :
  (x == inject_Z n)%Q -> round_half_even x = n.
Proof.
  intros Hx. unfold round_half_even.
  assert (Qfloor x = n) as Hf.
  { rewrite (Qfloor_comp _ _ Hx). apply Qfloor_Z. }
  rewrite Hf.
  assert (x - inject_Z n < 1 # 2)%Q as Hlt by lra.
  now rewrite (Qcompare_lt _ _ Hlt).
Qed.

Lemma round_half_even_mono (x y : Q) :
  (x <= y)%Q -> round_half_even x <= round_half_even y.
Proof.
  intros Hxy.
  pose proof (Qfloor_resp_le _ _ Hxy) as Hf.
  destruct (Z.eq_dec (Qfloor x) (Qfloor y)) as [Heq|Hne].
  - unfold round_half_even. rewrite <- Heq.
    destruct (Qcompare_spec (x - inject_Z (Qfloor x)) (1 # 2));
      destruct (Qcompare_spec (y - inject_Z (Qfloor x)) (1 # 2));
      try (destruct (Z.even (Qfloor x))); try lia; exfalso; lra.
  - etransitivity; [apply round_half_even_upper|apply round_half_even_lower].
    pose proof (Qlt_floor x) as Hx.
    assert (inject_Z (Qfloor x + 1) <= inject_Z (Qfloor y))%Q
      by (rewrite <- Zle_Qle; lia).
    lra.
Qed.

(** ** Rounding to binary64 *)

Lemma pow2_pos (e : Z) : (0 < pow2 e)%Q.
Proof. apply Qpower_0_lt. reflexivity. Qed.

Lemma pow2_add (a b : Z) : (pow2 (a + b) == pow2 a * pow2 b)%Q.
Proof. apply Qpower_plus. discriminate. Qed.

Lemma pow2_le (a b : Z) : a <= b -> (pow2 a <= pow2 b)%Q.
Proof. intros H. apply Qpower_le_compat_l; [exact H|]. discriminate. Qed.

Lemma pow2_lt_inv (a b : Z) : (pow2 a < pow2 b)%Q -> a < b.
Proof.
  intros H. apply (Qpower_lt_compat_l_inv (2 # 1)); [exact H|reflexivity].
Qed.

Lemma pow2_inject (n : Z) : 0 <= n -> (inject_Z (2 ^ n) == pow2 n)%Q.
Proof. intros H. now rewrite Zpower_Qpower. Qed.

Lemma pow2_multiple (a e : Z) :
  e <= a -> (pow2 a == inject_Z (2 ^ (a - e)) * pow2 e)%Q.
Proof.
  intros H. rewrite pow2_inject by lia. rewrite <- pow2_add.
  now replace (a - e + e) with a by lia.
Qed.

Lemma Qpos_num (x : Q) : (0 < x)%Q <-> 0 < Qnum x.
Proof. unfold Qlt. simpl. lia. Qed.

(** [floor_log2 x] is the exponent of the binade of [x]. *)
Lemma floor_log2_spec (x : Q) :
  (0 < x)%Q -> (pow2 (floor_log2 x) <= x < pow2 (floor_log2 x + 1))%Q.
Proof.
  intros Hx. unfold floor_log2.
  set (n := Qnum x). set (dd := Zpos (Qden x)).
  assert (0 < n) as Hn by now apply Qpos_num.
  assert (0 < dd) as Hd by (unfold dd; lia).
  pose proof (Z.log2_spec n Hn) as [Hn1 Hn2].
  pose proof (Z.log2_spec dd Hd) as [Hd1 Hd2].
  pose proof (Z.log2_nonneg n) as Hln.
  pose proof (Z.log2_nonneg dd) as Hld.
  set (ln := Z.log2 n) in *. set (ld := Z.log2 dd) in *.
  assert (x == inject_Z n / inject_Z dd)%Q as Hxe.
  { unfold n, dd. rewrite <- Qmake_Qdiv. now destruct x. }
  assert (0 < inject_Z dd)%Q as Hdq by (rewrite Qpos_num; simpl; lia).
  assert (x * inject_Z dd == inject_Z n)%Q as Hxd.
  { rewrite Hxe. field. lra. }
  replace (Z.succ ln) with (ln + 1) in Hn2 by lia.
  replace (Z.succ ld) with (ld + 1) in Hd2 by lia.
  rewrite Zle_Qle in Hn1, Hd1. rewrite Zlt_Qlt in Hn2, Hd2.
  rewrite pow2_inject in Hn1, Hn2, Hd1, Hd2 by lia.
  destruct (Qle_bool (pow2 (ln - ld)) x) eqn:E.
  - apply Qle_bool_iff in E. split; [exact E|].
    apply (Qmult_lt_r _ _ (pow2 ld)); [apply pow2_pos|].
    rewrite <- pow2_add. replace (ln - ld + 1 + ld) with (ln + 1) by lia.
    apply Qle_lt_trans with (x * inject_Z dd)%Q.
    + apply Qmult_le_l; [exact Hx|exact Hd1].
    + now rewrite Hxd.
  - assert (~ (pow2 (ln - ld) <= x)%Q) as Hlt
      by (rewrite <- Qle_bool_iff; congruence).
    replace (ln - ld - 1 + 1) with (ln - ld) by lia.
    split; [|lra].
    apply Qlt_le_weak.
    apply (Qmult_lt_r _ _ (pow2 (ld + 1))); [apply pow2_pos|].
    rewrite <- pow2_add. replace (ln - ld - 1 + (ld + 1)) with ln by lia.
    apply Qle_lt_trans with (x * inject_Z dd)%Q.
    + now rewrite Hxd.
    + apply Qmult_lt_l; [exact Hx|exact Hd2].
Qed.

Lemma floor_log2_mono (x y : Q) :
  (0 < x)%Q -> (x <= y)%Q -> floor_log2 x <= floor_log2 y.
Proof.
  intros Hx Hxy.
  destruct (floor_log2_spec x Hx) as [H1 _].
  destruct (floor_log2_spec y) as [_ H2]; [lra|].
  assert (floor_log2 x < floor_log2 y + 1); [|lia].
  apply pow2_lt_inv. lra.
Qed.

(** Rounding does not cross a multiple of the last bit. *)
Lemma round_pos_upper (x : Q) (b : Z) :
  (x <= inject_Z b * pow2 (ulp_exponent x))%Q ->
  (round_pos x <= inject_Z b * pow2 (ulp_exponent x))%Q.
Proof.
  intros H. unfold round_pos.
  pose proof (pow2_pos (ulp_exponent x)) as Hp.
  apply Qmult_le_r; [exact Hp|]. rewrite <- Zle_Qle.
  apply round_half_even_upper. apply Qle_shift_div_r; assumption.
Qed.

Lemma round_pos_lower (x : Q) (b : Z) :
  (inject_Z b * pow2 (ulp_exponent x) <= x)%Q ->
  (inject_Z b * pow2 (ulp_exponent x) <= round_pos x)%Q.
Proof.
  intros H. unfold round_pos.
  pose proof (pow2_pos (ulp_exponent x)) as Hp.
  apply Qmult_le_r; [exact Hp|]. rewrite <- Zle_Qle.
  apply round_half_even_above. apply Qle_shift_div_l; assumption.
Qed.

Lemma round_pos_nonneg (x : Q) : (0 < x)%Q -> (0 <= round_pos x)%Q.
Proof.
  intros Hx.
  pose proof (round_pos_lower x 0) as H.
  rewrite Qmult_0_l in H. apply H. lra.
Qed.

(** Within a binade the mantissas are ordered; across binades the power of
    two that opens the upper one lies between the two rounded values. *)
Lemma round_pos_mono (x y : Q) :
  (0 < x)%Q -> (x <= y)%Q -> (round_pos x <= round_pos y)%Q.
Proof.
  intros Hx Hxy.
  assert (0 < y)%Q as Hy by lra.
  pose proof (floor_log2_mono x y Hx Hxy) as Hf.
  destruct (Z.eq_dec (ulp_exponent x) (ulp_exponent y)) as [He|Hne].
  - unfold round_pos. rewrite He.
    pose proof (pow2_pos (ulp_exponent y)) as Hp.
    apply Qmult_le_r; [exact Hp|]. rewrite <- Zle_Qle.
    apply round_half_even_mono.
    unfold Qdiv. apply Qmult_le_r; [|exact Hxy].
    now apply Qinv_lt_0_compat.
  - assert (ulp_exponent y = floor_log2 y - 52 /\
            floor_log2 x + 1 <= floor_log2 y /\
            ulp_exponent x <= floor_log2 y) as (Hey & Hlt & Hex)
      by (unfold ulp_exponent in *; lia).
    destruct (floor_log2_spec x Hx) as [_ Hx2].
    destruct (floor_log2_spec y Hy) as [Hy1 _].
    pose proof (pow2_le _ _ Hlt) as Hmid.
    apply Qle_trans with (pow2 (floor_log2 y)).
    + rewrite (pow2_multiple _ (ulp_exponent x)) by exact Hex.
      apply round_pos_upper.
      rewrite <- pow2_multiple by exact Hex. lra.
    + rewrite (pow2_multiple _ (ulp_exponent y)) by lia.
      apply round_pos_lower.
      rewrite <- pow2_multiple by lia. exact Hy1.
Qed.

(** The rounding depends on the number, not on the fraction that
    writes it. *)
Lemma rnd64_proper (x y : Q) : (x == y)%Q -> rnd64 x = rnd64 y.
Proof. intros H. unfold rnd64. now rewrite (Qred_complete _ _ H). Qed.

Lemma rnd64_mono (x y : Q) : (x <= y)%Q -> (rnd64 x <= rnd64 y)%Q.
Proof.
  intros Hxy. unfold rnd64.
  rewrite <- (Qred_correct x), <- (Qred_correct y) in Hxy.
  set (x' := Qred x) in *. set (y' := Qred y) in *.
  assert (forall z, (0 < z)%Q <-> exists p, Qnum z = Zpos p) as Hpos.
  { intros z. rewrite Qpos_num. destruct (Qnum z); split; try lia; eauto.
    - intros [p' ?]; discriminate.
    - intros [p' ?]; discriminate. }
  assert (forall z, (z < 0)%Q <-> exists p, Qnum z = Zneg p) as Hneg.
  { intros z. unfold Qlt. simpl. destruct (Qnum z); split; try lia; eauto.
    - intros [p' ?]; discriminate.
    - intros [p' ?]; discriminate. }
  assert (forall z, Qnum z = 0 -> (z == 0)%Q) as Hzero.
  { intros z Hz. unfold Qeq. simpl. lia. }
  destruct (Qnum x') eqn:Ex; destruct (Qnum y') eqn:Ey.
  - lra.
  - apply round_pos_nonneg. apply Hpos; eauto.
  - assert (y' < 0)%Q by (apply Hneg; eauto).
    pose proof (Hzero _ Ex). lra.
  - assert (0 < x')%Q by (apply Hpos; eauto).
    pose proof (Hzero _ Ey). lra.
  - apply round_pos_mono; [apply Hpos; eauto|exact Hxy].
  - assert (0 < x')%Q by (apply Hpos; eauto).
    assert (y' < 0)%Q by (apply Hneg; eauto). lra.
  - assert (x' < 0)%Q by (apply Hneg; eauto).
    pose proof (round_pos_nonneg (- x')). lra.
  - assert (x' < 0)%Q by (apply Hneg; eauto).
    assert (0 < y')%Q by (apply Hpos; eauto).
    pose proof (round_pos_nonneg (- x')).
    pose proof (round_pos_nonneg y'). lra.
  - assert (x' < 0)%Q by (apply Hneg; eauto).
    assert (y' < 0)%Q by (apply Hneg; eauto).
    pose proof (round_pos_mono (- y') (- x')). lra.
Qed.

Lemma rnd64_0 : rnd64 0 = 0%Q.
Proof. reflexivity. Qed.

Lemma rnd64_1 : (rnd64 1 == 1)%Q.
Proof. vm_compute. reflexivity. Qed.

Lemma rnd64_unit (x : Q) : (0 <= x <= 1)%Q -> (0 <= rnd64 x <= 1)%Q.
Proof.
  intros [H0 H1].
  pose proof (rnd64_mono _ _ H0) as Hl. rewrite rnd64_0 in Hl.
  pose proof (rnd64_mono _ _ H1) as Hu. pose proof rnd64_1. lra.
Qed.

(** Runs: 0.1 and 1/3 are not binary64 numbers, a tie goes to the even
    mantissa, and the smallest subnormal number is kept. *)
Example rnd64_runs :
  (rnd64 (1 # 10) == 3602879701896397 # 36028797018963968)%Q /\
  (rnd64 (1 # 3) == 6004799503160661 # 18014398509481984)%Q /\
  (rnd64 (inject_Z (2 ^ 53 + 1)) == inject_Z (2 ^ 53))%Q /\
  (rnd64 (inject_Z (2 ^ 53 + 3)) == inject_Z (2 ^ 53 + 4))%Q /\
  (rnd64 (pow2 (-1074)) == pow2 (-1074))%Q /\
  (rnd64 (pow2 (-1076)) == 0)%Q.
Proof. vm_compute. repeat split. Qed.

Lemma fdiv_mono (a b m : Q) :
  (0 < m)%Q -> (a <= b)%Q -> (fdiv a m <= fdiv b m)%Q.
Proof.
  intros Hm H. apply rnd64_mono. unfold Qdiv.
  apply Qmult_le_compat_r; [exact H|].
  apply Qlt_le_weak, Qinv_lt_0_compat, Hm.
Qed.

Lemma fsub_antitone (a x y : Q) : (x <= y)%Q -> (fsub a y <= fsub a x)%Q.
Proof. intros H. apply rnd64_mono. lra. Qed.

Lemma round2_mono (x y : Q) : (x <= y)%Q -> (round2 x <= round2 y)%Q.
Proof.
  intros H. apply rnd64_mono.
  assert (round_half_even (x * 100) <= round_half_even (y * 100)) as Hr
    by (apply round_half_even_mono; lra).
  unfold Qle. simpl. lia.
Qed.

Lemma round2_0 : round2 0 = 0%Q.
Proof. reflexivity. Qed.

Lemma round2_1 (x : Q) : (x == 1)%Q -> (round2 x == 1)%Q.
Proof.
  intros H. unfold round2.
  rewrite (round_half_even_integer _ 100) by (rewrite H; reflexivity).
  rewrite (rnd64_proper _ 1) by reflexivity. apply rnd64_1.
Qed.

(** [round(x, 2)] of a float between 0 and 1 is the float nearest to one
    of the decimals 0.00, 0.01, ..., 1.00. *)
Lemma round2_bounds (x : Q) :
  (0 <= x <= 1)%Q ->
  (0 <= round2 x <= 1)%Q /\
  exists n, 0 <= n <= 100 /\ round2 x = rnd64 (n # 100).
Proof.
  intros [H0 H1].
  assert (0 <= round_half_even (x * 100)) as Hlo
    by (apply round_half_even_above; change (inject_Z 0) with 0%Q; lra).
  assert (round_half_even (x * 100) <= 100) as Hhi.
  { apply round_half_even_upper. change (inject_Z 100) with (100 # 1)%Q. lra. }
  split; [|exists (round_half_even (x * 100)); now split].
  apply rnd64_unit. unfold Qle. simpl. lia.
Qed.

(** The three operations of the score keep it between 0 and 1. *)
Lemma score_unit (dist max_distance : Q) :
  (0 < max_distance)%Q -> (0 <= dist <= max_distance)%Q ->
  (0 <= fsub 1 (fdiv dist max_distance) <= 1)%Q.
Proof.
  intros Hm [H0 H1].
  assert (0 <= fdiv dist max_distance <= 1)%Q as [Hq0 Hq1].
  { apply rnd64_unit. split.
    - apply Qle_shift_div_l; lra.
    - apply Qle_shift_div_r; lra. }
  apply rnd64_unit. lra.
Qed.

(** A distance of 0 scores 1: no operation rounds. *)
Lemma score_zero (dist max_distance : Q) :
  (0 < max_distance)%Q -> (dist == 0)%Q ->
  (round2 (fsub 1 (fdiv dist max_distance)) == 1)%Q.
Proof.
  intros Hm Hz. apply round2_1. unfold fsub, fdiv.
  rewrite (rnd64_proper (dist / max_distance) 0)
    by (rewrite Hz; field; lra).
  rewrite rnd64_0.
  rewrite (rnd64_proper (1 - 0) 1) by ring. apply rnd64_1.
Qed.

(** C5: the score is 0 on no results and when the best distance reaches
    the threshold, and [round(1 - d / max_distance, 2)] in float
    arithmetic below it; a best distance of 0 scores 1, and the score of
    a non-negative distance lies between 0 and 1 and is the float of a
    decimal with two digits. *)
Theorem calculate_confidence_spec (max_distance : Q) (r : SearchResult)
    (rest : list SearchResult) :
  (0 < max_distance)%Q ->
  calculate_confidence [] max_distance = 0%Q /\
  ((max_distance <= distance r)%Q ->
   calculate_confidence (r :: rest) max_distance = 0%Q) /\
  ((distance r < max_distance)%Q ->
   calculate_confidence (r :: rest) max_distance =
   round2 (fsub 1 (fdiv (distance r) max_distance))) /\
  ((distance r == 0)%Q ->
   (calculate_confidence (r :: rest) max_distance == 1)%Q) /\
  ((distance r == max_distance)%Q ->
   calculate_confidence (r :: rest) max_distance = 0%Q) /\
  ((0 <= distance r)%Q ->
   (0 <= calculate_confidence (r :: rest) max_distance <= 1)%Q /\
   exists n, 0 <= n <= 100 /\
     calculate_confidence (r :: rest) max_distance = rnd64 (n # 100)).
Proof.
  intros Hm.
  assert ((max_distance <= distance r)%Q ->
          calculate_confidence (r :: rest) max_distance = 0%Q) as Hge.
  { intros H. simpl. apply Qle_bool_iff in H. now rewrite H. }
  assert ((distance r < max_distance)%Q ->
          calculate_confidence (r :: rest) max_distance =
          round2 (fsub 1 (fdiv (distance r) max_distance))) as Hlt.
  { intros H. simpl.
    destruct (Qle_bool max_distance (distance r)) eqn:E; [|reflexivity].
    apply Qle_bool_iff in E. lra. }
  split; [reflexivity|]. split; [exact Hge|]. split; [exact Hlt|].
  split; [|split].
  - intros Hz. rewrite Hlt by lra. now apply score_zero.
  - intros He. apply Hge. lra.
  - intros H0.
    destruct (Qlt_le_dec (distance r) max_distance) as [Hl|Hl].
    + rewrite Hlt by exact Hl. apply round2_bounds, score_unit; lra.
    + rewrite Hge by exact Hl. split; [lra|].
      exists 0. split; [lia|reflexivity].
Qed.

Lemma calculate_confidence_spec_witness :
  let r := {| chunk := {| text := codes "a"; page := 1 |}; distance := 3 # 4 |} in
  calculate_confidence [] max_distance_default = 0%Q /\
  ((max_distance_default <= distance r)%Q ->
   calculate_confidence (r :: []) max_distance_default = 0%Q) /\
  ((distance r < max_distance_default)%Q ->
   calculate_confidence (r :: []) max_distance_default =
   round2 (fsub 1 (fdiv (distance r) max_distance_default))) /\
  ((distance r == 0)%Q ->
   (calculate_confidence (r :: []) max_distance_default == 1)%Q) /\
  ((distance r == max_distance_default)%Q ->
   calculate_confidence (r :: []) max_distance_default = 0%Q) /\
  ((0 <= distance r)%Q ->
   (0 <= calculate_confidence (r :: []) max_distance_default <= 1)%Q /\
   exists n, 0 <= n <= 100 /\
     calculate_confidence (r :: []) max_distance_default = rnd64 (n # 100)).
Proof.
  apply calculate_confidence_spec. reflexivity.
Defined.

(** A run: a best distance of 0.75 under the default threshold
    of 1.5 scores 0.5. *)
Example confidence_half :
  (calculate_confidence
     [{| chunk := {| text := codes "a"; page := 1 |}; distance := 3 # 4 |}]
     max_distance_default == 1 # 2)%Q.
Proof. vm_compute. reflexivity. Qed.

(** A run where the float operations show: at the best distance
    [0.1875 + 2 ** -55] the quotient by 1.5 rounds to [0.125 + 2 ** -55]
    and the difference from 1 to 0.875, a tie between 0.87 and 0.88 that
    goes to the even digit, so the score is the float 0.88; the exact
    [1 - d / 1.5] lies below 0.875 and its nearest decimal is 0.87. *)
Example confidence_float_operations :
  let dist := ((3 # 16) + (1 # 36028797018963968))%Q in
  (fdiv dist max_distance_default
   == (1 # 8) + (1 # 36028797018963968))%Q /\
  (fsub 1 (fdiv dist max_distance_default) == 7 # 8)%Q /\
  calculate_confidence
    [{| chunk := {| text := codes "a"; page := 1 |}; distance := dist |}]
    max_distance_default = rnd64 (88 # 100) /\
  round_half_even ((1 - dist / max_distance_default) * 100) = 87.
Proof. vm_compute. repeat split. Qed.

(** X17: the score does not increase with the best distance. *)
Lemma calculate_confidence_monotone (max_distance : Q) (r1 r2 : SearchResult)
    (rest1 rest2 : list SearchResult) :
  (0 < max_distance)%Q -> (distance r1 <= distance r2)%Q ->
  (calculate_confidence (r2 :: rest2) max_distance
   <= calculate_confidence (r1 :: rest1) max_distance)%Q.
Proof.
  intros Hm Hd. simpl.
  destruct (Qle_bool max_distance (distance r2)) eqn:E2;
    destruct (Qle_bool max_distance (distance r1)) eqn:E1.
  - lra.
  - assert (~ (max_distance <= distance r1)%Q) as Hn
      by (rewrite <- Qle_bool_iff; congruence).
    rewrite <- round2_0. apply round2_mono.
    rewrite <- rnd64_0. apply rnd64_mono.
    assert (fdiv (distance r1) max_distance <= rnd64 1)%Q.
    { apply rnd64_mono. apply Qle_shift_div_r; lra. }
    pose proof rnd64_1. lra.
  - apply Qle_bool_iff in E1.
    assert (~ (max_distance <= distance r2)%Q) as Hn
      by (rewrite <- Qle_bool_iff; congruence).
    lra.
  - apply round2_mono, fsub_antitone, fdiv_mono; assumption.
Qed.

(* ===================================================================== *)
(** * Theorems: the embedder *)
(* ===================================================================== *)

Lemma alter_succ_total (v : list Z) (i : nat) :
  (i < length v)%nat -> total (alter Z.succ i v) = total v + 1.
Proof.
  unfold total.
  revert i. induction v as [|x v IH]; intros [|i] Hi; simpl in *; try lia.
  specialize (IH i). unfold alter in IH. rewrite IH by lia. lia.
Qed.

Lemma alter_succ_nonneg (v : list Z) (i : nat) :
  Forall (fun z => 0 <= z) v -> Forall (fun z => 0 <= z) (alter Z.succ i v).
Proof.
  intros H. revert i. induction H as [|x v Hx Hv IH]; intros [|i]; simpl.
  - constructor.
  - constructor.
  - constructor; [lia|exact Hv].
  - constructor; [exact Hx|apply IH].
Qed.

Section EmbedderFacts.
Variable U : unicode.

(** For a positive dimension the counting loop does not raise; it keeps
    the length of the vector and adds one unit per character. *)
Lemma count_chars_total dim v s :
  0 < dim -> length v = Z.to_nat dim -> Forall (fun z => 0 <= z) v ->
  exists v',
    count_chars dim v s = Some v' /\
    length v' = length v /\
    total v' = total v + Z.of_nat (length s) /\
    Forall (fun z => 0 <= z) v'.
Proof.
  intros Hd. revert v. induction s as [|c s IH]; intros v Hlen Hnn.
  - exists v. simpl. repeat split; [lia|exact Hnn].
  - simpl. unfold bump. destruct (Z.eqb_spec dim 0); [lia|].
    assert (Z.to_nat (c mod dim) < length v)%nat as Hi.
    { pose proof (Z.mod_pos_bound c dim Hd). lia. }
    destruct (IH (alter Z.succ (Z.to_nat (c mod dim)) v)) as (v' & H1 & H2 & H3 & H4).
    + now rewrite length_alter.
    + now apply alter_succ_nonneg.
    + exists v'. rewrite H1, H2, H3, length_alter, alter_succ_total by exact Hi.
      repeat split; [lia|exact H4].
Qed.

Lemma total_replicate_zero n : total (replicate n 0) = 0.
Proof. induction n as [|n IH]; simpl; [reflexivity|exact IH]. Qed.

Lemma char_counts_total txt dim :
  0 < dim ->
  exists counts,
    char_counts U txt dim = Some counts /\
    length counts = Z.to_nat dim /\
    total counts = Z.of_nat (length (lower U txt)) /\
    Forall (fun z => 0 <= z) counts.
Proof.
  intros Hd. unfold char_counts. destruct (Z.ltb_spec dim 0); [lia|].
  destruct (count_chars_total dim (replicate (Z.to_nat dim) 0) (lower U txt))
    as (v' & H1 & H2 & H3 & H4).
  - exact Hd.
  - apply length_replicate.
  - apply Forall_replicate. lia.
  - exists v'. rewrite length_replicate in H2.
    rewrite total_replicate_zero in H3. repeat split; assumption.
Qed.

Lemma positive_total_has_nonzero (v : list Z) :
  0 < total v -> Exists (fun c => c <> 0) v.
Proof.
  induction v as [|x v IH]; simpl; [lia|]. intros H.
  destruct (Z.eq_dec x 0) as [->|Hx]; [right; apply IH; lia|now left].
Qed.
End EmbedderFacts.

Lemma sumsq_nonneg (v : list R) : (0 <= sumsq v)%R.
Proof.
  induction v as [|x v IH]; simpl; [lra|].
  pose proof (Rle_0_sqr x) as Hx. unfold Rsqr in Hx. lra.
Qed.

Lemma sumsq_counts_pos (counts : list Z) :
  Exists (fun c => c <> 0) counts -> (0 < sumsq (List.map IZR counts))%R.
Proof.
  induction 1 as [c v Hc|c v _ IH]; simpl.
  - pose proof (sumsq_nonneg (List.map IZR v)).
    assert (IZR c <> 0)%R as Hr by (now apply not_0_IZR).
    pose proof (Rsqr_pos_lt _ Hr) as Hp. unfold Rsqr in Hp. lra.
  - pose proof (Rle_0_sqr (IZR c)) as Hx. unfold Rsqr in Hx. lra.
Qed.

Lemma sumsq_scale (n : R) (v : list R) :
  (n <> 0)%R ->
  sumsq (List.map (fun x => x / n)%R v) = (sumsq v / (n * n))%R.
Proof.
  intros Hn. induction v as [|x v IH]; simpl.
  - field. exact Hn.
  - rewrite IH. field. exact Hn.
Qed.

Lemma norm_sumsq (v : list R) : norm v = sqrt (sumsq v).
Proof. reflexivity. Qed.

(** Dividing by a non-zero norm gives a vector of norm one. *)
Lemma norm_normalize (v : list R) :
  (norm v <> 0)%R -> norm (normalize v) = 1%R.
Proof.
  intros Hn. unfold normalize.
  destruct (Req_dec_T (norm v) 0) as [H0|_]; [contradiction|].
  rewrite norm_sumsq, sumsq_scale by exact Hn.
  rewrite norm_sumsq in *.
  rewrite sqrt_sqrt by apply sumsq_nonneg.
  replace (sumsq v / sumsq v)%R with 1%R; [apply sqrt_1|].
  field. intros Hz. apply Hn. rewrite Hz. apply sqrt_0.
Qed.

Lemma sumsq_replicate_zero (n : nat) : sumsq (replicate n 0%R) = 0%R.
Proof. induction n as [|n IH]; simpl; [reflexivity|]. rewrite IH. lra. Qed.

Lemma normalize_zero (n : nat) :
  normalize (replicate n 0%R) = replicate n 0%R.
Proof.
  unfold normalize.
  destruct (Req_dec_T (norm (replicate n 0%R)) 0) as [_|Hn]; [reflexivity|].
  exfalso. apply Hn. rewrite norm_sumsq, sumsq_replicate_zero. apply sqrt_0.
Qed.

Lemma map_IZR_replicate (n : nat) :
  List.map IZR (replicate n 0) = replicate n 0%R.
Proof. induction n as [|n IH]; simpl; [reflexivity|now rewrite IH]. Qed.

(** C6: for a positive dimension, [simple_embed] gives the same vector on
    a string and on its lower-cased form; the vector has the configured
    length, and Euclidean norm 1 whenever the raw count vector is not zero,
    which is the case for every non-empty string; the empty string gives
    the zero vector. *)
Theorem simple_embed_spec (U : unicode) (dim : Z) :
  lower_laws U -> 0 < dim ->
  (forall s, simple_embed U (lower U s) dim = simple_embed U s dim) /\
  (forall s, exists counts v,
      char_counts U s dim = Some counts /\
      simple_embed U s dim = Some v /\
      length v = Z.to_nat dim /\
      (Exists (fun c => c <> 0) counts -> norm v = 1%R) /\
      (s <> [] -> Exists (fun c => c <> 0) counts)) /\
  simple_embed U [] dim = Some (replicate (Z.to_nat dim) 0%R).
Proof.
  intros HL Hd. split; [|split].
  - intros s. unfold simple_embed, char_counts, lower.
    now rewrite (lower_idem U HL).
  - intros s.
    destruct (char_counts_total U s dim Hd) as (counts & Hc & Hlen & Htot & Hnn).
    exists counts, (normalize (List.map IZR counts)).
    split; [exact Hc|]. split; [unfold simple_embed; now rewrite Hc|].
    split; [|split].
    + unfold normalize. destruct (Req_dec_T _ _);
        now rewrite ?length_map, ?List.length_map.
    + intros Hex. apply norm_normalize. rewrite norm_sumsq.
      intros Hz. apply sqrt_eq_0 in Hz; [|apply sumsq_nonneg].
      pose proof (sumsq_counts_pos counts Hex). lra.
    + intros Hs. apply positive_total_has_nonzero. rewrite Htot.
      pose proof (lower_nonempty U HL s Hs) as Hl. unfold lower.
      destruct (str_lower U s); [congruence|simpl; lia].
  - unfold simple_embed, char_counts, lower.
    destruct (Z.ltb_spec dim 0); [lia|].
    rewrite (lower_nil U HL). simpl.
    now rewrite map_IZR_replicate, normalize_zero.
Qed.

(** The ASCII tables obey the laws of [str.lower]. *)
Lemma ascii_lower_laws : lower_laws ascii_tables.
Proof.
  split; simpl.
  - intros s. rewrite List.map_map. apply List.map_ext. intros c.
    unfold ascii_lower_chr.
    destruct ((65 <=? c) && (c <=? 90)) eqn:E; [|now rewrite E].
    destruct ((65 <=? c + 32) && (c + 32 <=? 90)) eqn:E'; [|reflexivity].
    lia.
  - reflexivity.
  - intros [|c s] H; [congruence|discriminate].
Qed.

Lemma simple_embed_spec_witness :
  (forall s, simple_embed ascii_tables (lower ascii_tables s) embed_dim_default
             = simple_embed ascii_tables s embed_dim_default) /\
  (forall s, exists counts v,
      char_counts ascii_tables s embed_dim_default = Some counts /\
      simple_embed ascii_tables s embed_dim_default = Some v /\
      length v = Z.to_nat embed_dim_default /\
      (Exists (fun c => c <> 0) counts -> norm v = 1%R) /\
      (s <> [] -> Exists (fun c => c <> 0) counts)) /\
  simple_embed ascii_tables [] embed_dim_default
    = Some (replicate (Z.to_nat embed_dim_default) 0%R).
Proof.
  apply simple_embed_spec.
  - exact ascii_lower_laws.
  - reflexivity.
Defined.

(** "ABC" and "abc" have the same character counts. *)
Example counts_ABC_abc :
  char_counts ascii_tables (codes "ABC") 128 = char_counts ascii_tables (codes "abc") 128.
Proof. vm_compute. reflexivity. Qed.

(* ===================================================================== *)
(** * Theorems: the structured extractor *)
(* ===================================================================== *)

Lemma has_group_none : has_group None.
Proof. intros m H. discriminate. Qed.

Lemma rep_loop_group body (b greedy : bool) (lo : nat) k (cap0 : option str) :
  (forall prev s cap k',
      (forall p s' c, (b = true \/ is_Some cap -> is_Some c) -> has_group (k' p s' c)) ->
      has_group (body prev s cap k')) ->
  (forall p s' c,
      ((0 <? lo)%nat && b = true \/ is_Some cap0 -> is_Some c) ->
      has_group (k p s' c)) ->
  forall n i prev s c,
    (is_Some cap0 -> is_Some c) ->
    (b = true -> (0 < i)%nat -> is_Some c) ->
    has_group (rep_loop body greedy lo k n i prev s c).
Proof.
  intros Hbody Hk.
  assert (forall i prev s c,
             (is_Some cap0 -> is_Some c) ->
             (b = true -> (0 < i)%nat -> is_Some c) ->
             has_group (if (lo <=? i)%nat then k prev s c else None)) as Hstop.
  { intros i prev s c H1 H2.
    destruct (Nat.leb_spec lo i); [|apply has_group_none].
    apply Hk. intros [Hb|Hc]; [|auto].
    apply andb_true_iff in Hb as [Hlo Hb]. apply Nat.ltb_lt in Hlo.
    apply H2; [exact Hb|lia]. }
  induction n as [|n IH]; intros i prev s c H1 H2; simpl.
  - now apply Hstop.
  - assert (has_group
              (body prev s c
                 (fun p s' c' => rep_loop body greedy lo k n (S i) p s' c')))
      as Hmore.
    { apply Hbody. intros p s' c' Hc'. apply IH.
      - intros H. apply Hc'. right. now apply H1.
      - intros Hb _. apply Hc'. now left. }
    specialize (Hstop i prev s c H1 H2).
    destruct greedy.
    + destruct (body prev s c _); [exact Hmore|exact Hstop].
    + destruct (if (lo <=? i)%nat then k prev s c else None);
        [exact Hstop|exact Hmore].
Qed.

Section GroupFacts.
Variable U : unicode.
Variable ignorecase : bool.

(** The continuation of [mt] is only called with group 1 set when the
    pattern sets it or it was set before. *)
Lemma mt_group (r : regex) :
  forall prev s cap k,
    (forall p s' c, (sets_group r = true \/ is_Some cap -> is_Some c) ->
                    has_group (k p s' c)) ->
    has_group (mt U ignorecase r prev s cap k).
Proof.
  induction r as [|ch0| |items|r1 IH1 r2 IH2|r1 IH1 r2 IH2|g lo hi r' IH|r' IH| |];
    intros prev s cap k Hk; simpl.
  - apply Hk. intros [H|H]; [discriminate|exact H].
  - destruct s as [|x s]; [apply has_group_none|].
    destruct (_ =? _); [|apply has_group_none].
    apply Hk. intros [H|H]; [discriminate|exact H].
  - destruct s as [|x s]; [apply has_group_none|].
    destruct (_ =? _); [apply has_group_none|].
    apply Hk. intros [H|H]; [discriminate|exact H].
  - destruct s as [|x s]; [apply has_group_none|].
    destruct (existsb _ _); [|apply has_group_none].
    apply Hk. intros [H|H]; [discriminate|exact H].
  - apply IH1. intros p s' c Hc. apply IH2. intros p2 s2 c2 Hc2.
    apply Hk. intros [H|H].
    + apply orb_true_iff in H as [H|H]; [|auto].
      apply Hc2. right. apply Hc. now left.
    + apply Hc2. right. apply Hc. now right.
  - assert (forall r, (forall prev s cap k,
               (forall p s' c, (sets_group r = true \/ is_Some cap -> is_Some c) ->
                               has_group (k p s' c)) ->
               has_group (mt U ignorecase r prev s cap k)) ->
               (sets_group r1 && sets_group r2 = true -> sets_group r = true) ->
               has_group (mt U ignorecase r prev s cap k)) as Hside.
    { intros r IHr Himp. apply IHr. intros p s' c Hc. apply Hk.
      intros [H|H]; [apply Hc; left; now apply Himp|apply Hc; now right]. }
    pose proof (Hside r1 IH1) as H1. pose proof (Hside r2 IH2) as H2.
    destruct (mt U ignorecase r1 prev s cap k).
    + apply H1. intros H. now apply andb_true_iff in H as [H _].
    + apply H2. intros H. now apply andb_true_iff in H as [_ H].
  - apply (rep_loop_group _ (sets_group r') g lo k cap).
    + intros prev0 s0 cap1 k' Hk'. now apply IH.
    + exact Hk.
    + auto.
    + intros _ Hi. lia.
  - apply IH. intros p s' c _. apply Hk. intros _. eauto.
  - destruct (xorb _ _); [|apply has_group_none].
    apply Hk. intros [H|H]; [discriminate|exact H].
  - destruct s as [|x [|y s]]; try apply has_group_none.
    + apply Hk. intros [H|H]; [discriminate|exact H].
    + destruct (_ =? _); [|apply has_group_none].
      apply Hk. intros [H|H]; [discriminate|exact H].
Qed.

Lemma search_from_group (r : regex) prev (s : str) :
  sets_group r = true -> has_group (search_from U ignorecase r prev s).
Proof.
  intros Hr. revert prev. induction s as [|x s IH]; intros prev.
  - cbn [search_from].
    assert (has_group (match_here U ignorecase r prev [])) as H.
    { apply mt_group. intros p s' c Hc m [= <-]. simpl. apply Hc. now left. }
    destruct (match_here U ignorecase r prev []); [exact H|apply has_group_none].
  - cbn [search_from].
    assert (has_group (match_here U ignorecase r prev (x :: s))) as H.
    { apply mt_group. intros p s' c Hc m [= <-]. simpl. apply Hc. now left. }
    destruct (match_here U ignorecase r prev (x :: s)); [exact H|apply IH].
Qed.
End GroupFacts.

Section ExtractorFacts.
Variable U : unicode.

(** [find] does not raise on patterns that always set group 1. *)
Lemma find_returns patterns source :
  Forall (fun p => sets_group (re_compile p) = true) patterns ->
  exists o, find U patterns source = Return o.
Proof.
  induction 1 as [|p patterns Hp _ IH]; simpl; [eauto|].
  pose proof (search_from_group U true (re_compile p) None source Hp) as Hg.
  unfold re_search.
  destruct (search_from U true (re_compile p) None source) as [m|]; [|exact IH].
  destruct (Hg m eq_refl) as [g Hm]. rewrite Hm. eauto.
Qed.

(** [find] returns [None] when no pattern of the list matches. *)
Lemma find_none patterns source :
  Forall (fun p => re_search U true (re_compile p) source = None) patterns ->
  find U patterns source = Return None.
Proof.
  induction 1 as [|p patterns Hp _ IH]; simpl; [reflexivity|].
  now rewrite Hp.
Qed.

(** What [find] returns is not the result of a later pattern when an
    earlier one matches: the first match decides. *)
Lemma find_first p patterns source m g :
  re_search U true (re_compile p) source = Some m ->
  m_group1 m = Some g ->
  find U (p :: patterns) source = Return (Some (strip U g)).
Proof. intros Hm Hg. simpl. now rewrite Hm, Hg. Qed.

Lemma find_currency_returns txt lower_ :
  exists o, find_currency U txt lower_ = Return o.
Proof.
  unfold find_currency.
  assert (sets_group (re_compile currency_pattern) = true) as Hp by reflexivity.
  pose proof (search_from_group U false _ None lower_ Hp) as Hg.
  unfold re_search.
  destruct (search_from U false (re_compile currency_pattern) None lower_) as [m|].
  - destruct (Hg m eq_refl) as [g Hm]. rewrite Hm. eauto.
  - destruct (contains _ _); eauto.
Qed.

(** The extractor returns a record for every text, with the shipment id
    that [find] gives on the whitespace-normalised text. *)
Lemma extract_returns full_text :
  exists r,
    extract_structured_fields U full_text = Return r /\
    find U shipment_id_patterns
      (re_sub U false (re_compile "\s+") (codes " ") full_text)
    = Return (shipment_id r).
Proof.
  unfold extract_structured_fields.
  set (txt := re_sub U false (re_compile "\s+") (codes " ") full_text).
  set (lower_ := lower U txt).
  destruct (find_returns shipment_id_patterns txt) as [o1 H1];
    [repeat constructor|].
  destruct (find_returns shipper_patterns lower_) as [o2 H2];
    [repeat constructor|].
  destruct (find_returns consignee_patterns lower_) as [o3 H3];
    [repeat constructor|].
  destruct (find_returns pickup_datetime_patterns lower_) as [o4 H4];
    [repeat constructor|].
  destruct (find_returns delivery_datetime_patterns lower_) as [o5 H5];
    [repeat constructor|].
  destruct (find_returns equipment_type_patterns lower_) as [o6 H6];
    [repeat constructor|].
  destruct (find_returns mode_patterns lower_) as [o7 H7];
    [repeat constructor|].
  destruct (find_currency_returns txt lower_) as [o8 H8].
  destruct (find_returns weight_patterns lower_) as [o9 H9];
    [repeat constructor|].
  destruct (find_returns carrier_name_patterns lower_) as [o10 H10];
    [repeat constructor|].
  rewrite H1, H2, H3, H4, H5, H6, H7, H8, H9, H10. simpl.
  eexists. split; reflexivity.
Qed.
End ExtractorFacts.

(** C8: on the text of the specification the extractor finds the shipment
    id, the rate and the currency; and for every text on which none of the
    six shipment-id patterns matches (after whitespace normalisation) it
    returns a record whose [shipment_id] is [None], not the empty string. *)
Theorem extract_shipment_id_rate_currency :
  (exists r,
     extract_structured_fields ascii_tables
       (codes "Shipment ID: LD12345, Rate: $2500 USD") = Return r /\
     shipment_id r = Some (codes "LD12345") /\
     rate r = Some (codes "2500") /\
     currency r = Some (codes "USD")) /\
  (forall (U : unicode) (full_text : str),
     Forall (fun p =>
               re_search U true (re_compile p)
                 (re_sub U false (re_compile "\s+") (codes " ") full_text) = None)
       shipment_id_patterns ->
     exists r,
       extract_structured_fields U full_text = Return r /\
       shipment_id r = None /\
       shipment_id r <> Some []).
Proof.
  split.
  - eexists. split; [vm_compute; reflexivity|]. simpl. repeat split.
  - intros U full_text Hno.
    destruct (extract_returns U full_text) as (r & Hr & Hid).
    exists r. split; [exact Hr|].
    rewrite (find_none U _ _ Hno) in Hid.
    injection Hid as <-. split; [reflexivity|discriminate].
Qed.

Lemma extract_shipment_id_rate_currency_witness :
  exists r,
    extract_structured_fields ascii_tables (codes "Rate: $2500 USD") = Return r /\
    shipment_id r = None /\
    shipment_id r <> Some [].
Proof.
  apply (proj2 extract_shipment_id_rate_currency ascii_tables (codes "Rate: $2500 USD")).
  repeat constructor; vm_compute; reflexivity.
Defined.

(* ===================================================================== *)
(** * More on the chunker *)
(* ===================================================================== *)

Lemma py_slice_split {A} (l : list A) (lo hi : Z) :
  0 <= lo <= Z.of_nat (length l) ->
  l = take (Z.to_nat lo) l ++ py_slice l lo hi ++
      drop (Z.to_nat (slice_bound (Z.of_nat (length l)) hi - lo))
        (drop (Z.to_nat lo) l).
Proof.
  intros Hlo. unfold py_slice.
  assert (slice_bound (Z.of_nat (length l)) lo = lo) as ->.
  { unfold slice_bound. destruct (Z.ltb_spec lo 0); lia. }
  now rewrite take_drop, take_drop.
Qed.

Lemma py_slice_substring (l : str) (lo hi : Z) :
  0 <= lo -> substring (py_slice l lo hi) l.
Proof.
  intros Hlo.
  destruct (Z.le_gt_cases lo (Z.of_nat (length l))) as [Hle|Hgt].
  - eexists _, _. apply py_slice_split. lia.
  - exists l, []. unfold py_slice, slice_bound.
    destruct (Z.ltb_spec lo 0); [lia|].
    rewrite (Z.min_r lo) by lia. rewrite drop_ge by lia.
    now rewrite take_nil, !app_nil_r.
Qed.

Lemma py_slice_length {A} (l : list A) (lo size : Z) :
  0 <= lo -> 0 < size ->
  Z.of_nat (length (py_slice l lo (lo + size))) <= size.
Proof.
  intros Hlo Hs. unfold py_slice, slice_bound.
  destruct (Z.ltb_spec lo 0); [lia|].
  destruct (Z.ltb_spec (lo + size) 0); [lia|].
  rewrite length_take. lia.
Qed.

Section ChunkerMore.
Variable U : unicode.

Lemma loop_body_nonneg cs ov txt pn st :
  0 <= fst (loop_body U cs ov txt pn st).
Proof.
  destruct st as [start chunks]. unfold loop_body. simpl.
  destruct (Z.ltb_spec (start + cs - ov) 0); simpl; lia.
Qed.

(** What one pass appends, if anything, is cut out of the page. *)
Lemma loop_body_piece cs ov p st (P : Chunk -> Prop) :
  0 <= fst st ->
  (forall c, page_piece U p c -> (0 < cs -> Z.of_nat (length (text c)) <= cs) -> P c) ->
  Forall P (snd st) ->
  Forall P (snd (loop_body U cs ov (page_text p) (page_number p) st)).
Proof.
  destruct st as [start chunks]. simpl. intros Hs HP Hall.
  unfold loop_body. simpl.
  destruct (truthy (strip U (py_slice (page_text p) start (start + cs)))) eqn:E;
    simpl; [|exact Hall].
  apply Forall_app. split; [exact Hall|]. constructor; [|constructor].
  apply HP.
  - repeat split; simpl.
    + now apply py_slice_substring.
    + intros Hn. now rewrite Hn in E.
  - intros Hcs. simpl. now apply py_slice_length.
Qed.

Lemma while_loop_pieces fuel cs ov p st res (P : Chunk -> Prop) :
  0 <= fst st ->
  (forall c, page_piece U p c -> (0 < cs -> Z.of_nat (length (text c)) <= cs) -> P c) ->
  Forall P (snd st) ->
  while_loop U fuel cs ov (page_text p) (page_number p) st = Some res ->
  Forall P res.
Proof.
  intros Hs HP. revert st Hs.
  induction fuel as [|fuel IH]; intros st Hs Hall H.
  - simpl in H. destruct (_ <? _); [discriminate|]. now injection H as <-.
  - simpl in H. destruct (_ <? _); [|now injection H as <-].
    apply IH in H; [exact H|apply loop_body_nonneg|].
    now apply loop_body_piece.
Qed.

Lemma chunk_pages_pieces fuel cs ov pages acc res (P : Chunk -> Prop) :
  (forall p c, p ∈ pages -> page_piece U p c ->
               (0 < cs -> Z.of_nat (length (text c)) <= cs) -> P c) ->
  Forall P acc ->
  chunk_pages U fuel cs ov pages acc = Some res ->
  Forall P res.
Proof.
  revert acc. induction pages as [|p pages IH]; intros acc HP Hacc H; simpl in H.
  - now injection H as <-.
  - unfold chunk_page in H.
    destruct (while_loop U fuel cs ov (page_text p) (page_number p) (0, acc))
      as [acc'|] eqn:E; [|discriminate].
    apply IH in H; [exact H| |].
    + intros p' c Hp'. apply HP. now right.
    + apply (while_loop_pieces fuel cs ov p (0, acc) acc' P);
        [simpl; lia| |exact Hacc|exact E].
      intros c. apply HP. now left.
Qed.

(** The list that the loop appends to does not influence what it appends. *)
Lemma while_loop_acc fuel cs ov txt pn start acc chunks :
  while_loop U fuel cs ov txt pn (start, acc ++ chunks) =
  (fun r => acc ++ r) <$> while_loop U fuel cs ov txt pn (start, chunks).
Proof.
  revert start chunks. induction fuel as [|fuel IH]; intros start chunks; simpl.
  - destruct (_ <? _); reflexivity.
  - destruct (_ <? _); [|reflexivity].
    unfold loop_body. destruct (truthy _).
    + rewrite <- app_assoc. apply IH.
    + apply IH.
Qed.

Lemma chunk_pages_acc fuel cs ov pages acc :
  chunk_pages U fuel cs ov pages acc =
  (fun r => acc ++ r) <$> chunk_pages U fuel cs ov pages [].
Proof.
  revert acc. induction pages as [|p pages IH]; intros acc; simpl.
  - now rewrite app_nil_r.
  - unfold chunk_page.
    rewrite <- (app_nil_r acc) at 1. rewrite while_loop_acc.
    destruct (while_loop U fuel cs ov (page_text p) (page_number p) (0, []))
      as [c1|]; simpl; [|reflexivity].
    rewrite (IH (acc ++ c1)), (IH c1).
    destruct (chunk_pages U fuel cs ov pages []); simpl; [|reflexivity].
    now rewrite app_assoc.
Qed.

Lemma chunk_pages_app fuel cs ov ps1 ps2 acc :
  chunk_pages U fuel cs ov (ps1 ++ ps2) acc =
  match chunk_pages U fuel cs ov ps1 acc with
  | Some acc' => chunk_pages U fuel cs ov ps2 acc'
  | None => None
  end.
Proof.
  revert acc. induction ps1 as [|p ps1 IH]; intros acc; simpl; [reflexivity|].
  destruct (chunk_page U fuel cs ov p acc); [apply IH|reflexivity].
Qed.

(** ** The closed form *)

Lemma steps_needed_index len step (j : nat) :
  0 < step -> 0 <= len ->
  (j < steps_needed len 0 step)%nat <-> Z.of_nat j * step < len.
Proof.
  intros Hs Hl. unfold steps_needed.
  pose proof (Z.mul_div_le (len - 0 + step - 1) step Hs) as H1.
  pose proof (Z.mul_succ_div_gt (len - 0 + step - 1) step Hs) as H2.
  assert (0 <= (len - 0 + step - 1) / step) as H0 by (apply Z.div_pos; lia).
  split; intros H; nia.
Qed.

Lemma while_loop_windows fuel cs ov p (m j : nat) chunks :
  ov < cs ->
  (j + m = steps_needed (Z.of_nat (length (page_text p))) 0 (cs - ov))%nat ->
  (m <= fuel)%nat ->
  while_loop U fuel cs ov (page_text p) (page_number p)
    (Z.of_nat j * (cs - ov), chunks) =
  Some (chunks ++
        omap (fun k =>
                let w := window (page_text p) cs (cs - ov) k in
                if forallb (is_space U) w then None
                else Some {| text := w; page := page_number p |})
          (seq j m)).
Proof.
  intros Hov. revert j fuel chunks.
  induction m as [|m IH]; intros j fuel chunks Hn Hfuel.
  - rewrite while_loop_done; [simpl; now rewrite app_nil_r|]. simpl.
    destruct (Z.lt_ge_cases (Z.of_nat j * (cs - ov))
                (Z.of_nat (length (page_text p)))) as [Hlt|Hge]; [|exact Hge].
    apply steps_needed_index in Hlt; lia.
  - destruct fuel as [|fuel]; [lia|].
    assert (Z.of_nat j * (cs - ov) < Z.of_nat (length (page_text p))) as Hlt
      by (apply steps_needed_index; lia).
    rewrite while_loop_step by exact Hlt.
    unfold loop_body.
    replace (Z.of_nat j * (cs - ov) + cs - ov) with (Z.of_nat (S j) * (cs - ov))
      by lia.
    destruct (Z.ltb_spec (Z.of_nat (S j) * (cs - ov)) 0); [nia|].
    rewrite IH by lia. rewrite truthy_strip. cbn [seq omap list_omap].
    unfold window at 3 4.
    destruct (forallb (is_space U)
                (py_slice (page_text p) (Z.of_nat j * (cs - ov))
                   (Z.of_nat j * (cs - ov) + cs))); simpl.
    + reflexivity.
    + now rewrite <- app_assoc.
Qed.

Lemma chunk_pages_windows fuel cs ov pages acc :
  ov < cs ->
  Forall (fun p => (steps_needed (Z.of_nat (length (page_text p))) 0 (cs - ov)
                    <= fuel)%nat) pages ->
  chunk_pages U fuel cs ov pages acc =
  Some (acc ++ concat (List.map (page_windows U cs ov) pages)).
Proof.
  intros Hov Hall. revert acc.
  induction Hall as [|p pages Hp _ IH]; intros acc; simpl.
  - now rewrite app_nil_r.
  - unfold chunk_page.
    change 0 with (Z.of_nat 0 * (cs - ov)).
    rewrite (while_loop_windows fuel cs ov p
               (steps_needed (Z.of_nat (length (page_text p))) 0 (cs - ov)) 0)
      by (assumption || reflexivity).
    rewrite IH. unfold page_windows. now rewrite app_assoc.
Qed.

Lemma forallb_take {A} (f : A -> bool) (n : nat) (l : list A) :
  forallb f l = true -> forallb f (take n l) = true.
Proof.
  revert n; induction l as [|a l IH]; intros [|n] H; simpl in *; auto.
  apply andb_true_iff in H as [Ha H]. rewrite Ha. simpl. now apply IH.
Qed.

Lemma window_blank cs step txt k :
  forallb (is_space U) txt = true ->
  forallb (is_space U) (window txt cs step k) = true.
Proof.
  intros H. unfold window, py_slice. now apply forallb_take, forallb_drop.
Qed.
End ChunkerMore.

Lemma page_windows_blank U cs ov p :
  forallb (is_space U) (page_text p) = true -> page_windows U cs ov p = [].
Proof.
  intros H. unfold page_windows.
  induction (seq 0 _) as [|k l IH]; [reflexivity|].
  cbn [omap list_omap]. now rewrite (window_blank U _ _ _ _ H).
Qed.

Lemma omap_length_le {A B} (f : A -> option B) (l : list A) :
  (length (omap f l) <= length l)%nat.
Proof.
  induction l as [|a l IH]; [reflexivity|].
  cbn [omap list_omap]. destruct (f a); simpl; lia.
Qed.

Lemma page_windows_length U cs ov p :
  (length (page_windows U cs ov p)
   <= steps_needed (Z.of_nat (length (page_text p))) 0 (cs - ov))%nat.
Proof.
  unfold page_windows.
  etransitivity; [apply omap_length_le|]. now rewrite length_seq.
Qed.

Lemma in_concat_windows U cs ov pages p c :
  p ∈ pages -> c ∈ page_windows U cs ov p ->
  c ∈ concat (List.map (page_windows U cs ov) pages).
Proof.
  induction 1 as [p pages|p q pages _ IH]; intros Hc; simpl;
    apply elem_of_app; [now left|right; now apply IH].
Qed.

(** The window that holds position [i] of the page. *)
Lemma window_holds_index U cs ov p (i : nat) x :
  0 <= ov < cs ->
  page_text p !! i = Some x -> is_space U x = false ->
  exists c pre post,
    c ∈ page_windows U cs ov p /\
    page c = page_number p /\
    page_text p = pre ++ text c ++ post /\
    (length pre <= i < length pre + length (text c))%nat.
Proof.
  intros Hov Hx Hsp.
  pose proof (lookup_lt_Some _ _ _ Hx) as Hi.
  set (step := cs - ov). assert (0 < step) as Hstep by (unfold step; lia).
  set (k := Z.to_nat (Z.of_nat i / step)).
  assert (0 <= Z.of_nat i / step) as Hq by (apply Z.div_pos; lia).
  pose proof (Z.mul_div_le (Z.of_nat i) step Hstep) as H1.
  pose proof (Z.mul_succ_div_gt (Z.of_nat i) step Hstep) as H2.
  set (lo := Z.of_nat k * step).
  assert (0 <= lo <= Z.of_nat i /\ Z.of_nat i < lo + step) as [Hlo Hhi]
    by (unfold lo, k; rewrite Z2Nat.id by lia; nia).
  set (w := window (page_text p) cs step k).
  assert (w = py_slice (page_text p) lo (lo + cs)) as Hw by reflexivity.
  assert (w !! (i - Z.to_nat lo)%nat = Some x) as Hwx.
  { rewrite Hw. unfold py_slice, slice_bound.
    destruct (Z.ltb_spec lo 0); [lia|].
    destruct (Z.ltb_spec (lo + cs) 0); [lia|].
    rewrite lookup_take_lt by lia. rewrite lookup_drop.
    rewrite <- Hx. f_equal. lia. }
  assert (forallb (is_space U) w = false) as Hnb.
  { destruct (forallb (is_space U) w) eqn:E; [|reflexivity].
    rewrite forallb_forall in E.
    specialize (E x). rewrite E in Hsp; [discriminate|].
    apply list_elem_of_In. eapply list_elem_of_lookup_2. exact Hwx. }
  exists {| text := w; page := page_number p |},
    (take (Z.to_nat lo) (page_text p)),
    (drop (Z.to_nat (slice_bound (Z.of_nat (length (page_text p))) (lo + cs) - lo))
       (drop (Z.to_nat lo) (page_text p))).
  split; [|split; [reflexivity|split]].
  - unfold page_windows. apply list_elem_of_omap. exists k. split.
    + apply elem_of_seq. split; [lia|]. simpl.
      apply steps_needed_index; [exact Hstep|lia|]. fold lo. lia.
    + fold step. fold w. now rewrite Hnb.
  - simpl. rewrite Hw. apply py_slice_split. lia.
  - simpl. apply lookup_lt_Some in Hwx. rewrite length_take. lia.
Qed.

(** X1: for [overlap < chunk_size], [chunk_text] returns, in page order,
    the windows [text[k*step : k*step + chunk_size]] of every page for
    [step = chunk_size - overlap] and [k = 0 .. ceil(len / step) - 1],
    without the windows that are all whitespace; a page gives at most
    [ceil(len / step)] chunks. *)
Theorem chunk_text_closed_form (U : unicode) (fuel : nat) (pages : list Page)
    (cs ov : Z) :
  ov < cs ->
  Forall (fun p => (steps_needed (Z.of_nat (length (page_text p))) 0 (cs - ov)
                    <= fuel)%nat) pages ->
  chunk_text U fuel pages cs ov =
    Some (concat (List.map (page_windows U cs ov) pages)) /\
  Forall (fun p => (length (page_windows U cs ov p)
                    <= steps_needed (Z.of_nat (length (page_text p))) 0 (cs - ov))%nat)
    pages.
Proof.
  intros Hov Hall. split.
  - unfold chunk_text. now rewrite chunk_pages_windows.
  - apply Forall_forall. intros p _. apply page_windows_length.
Qed.

Lemma chunk_text_closed_form_witness :
  let pages := [{| page_text := codes "ab cd efg"; page_number := 1 |};
                {| page_text := codes "hi"; page_number := 2 |}] in
  chunk_text ascii_tables 5 pages 4 1 =
    Some (concat (List.map (page_windows ascii_tables 4 1) pages)) /\
  Forall (fun p => (length (page_windows ascii_tables 4 1 p)
                    <= steps_needed (Z.of_nat (length (page_text p))) 0 (4 - 1))%nat)
    pages.
Proof.
  apply chunk_text_closed_form.
  - lia.
  - repeat constructor; vm_compute; lia.
Defined.

(** X2: whatever the configuration, every chunk that [chunk_text] returns
    carries the number of one of the pages and its text is a run of
    consecutive characters of that page, not all whitespace, of at most
    [chunk_size] characters when [chunk_size] is positive. *)
Theorem chunks_cut_from_pages (U : unicode) (fuel : nat) (pages : list Page)
    (cs ov : Z) (chunks : list Chunk) :
  chunk_text U fuel pages cs ov = Some chunks ->
  Forall (fun c => exists p, p ∈ pages /\ page_piece U p c /\
                             (0 < cs -> Z.of_nat (length (text c)) <= cs))
    chunks.
Proof.
  intros H. eapply chunk_pages_pieces; [|constructor|exact H].
  intros p c Hp Hc Hlen. now exists p.
Qed.

Lemma chunks_cut_from_pages_witness :
  Forall (fun c => exists p,
              p ∈ [{| page_text := codes "ab cd efg"; page_number := 1 |}] /\
              page_piece ascii_tables p c /\
              (0 < 4 -> Z.of_nat (length (text c)) <= 4))
    [{| text := codes "ab c"; page := 1 |};
     {| text := codes "cd e"; page := 1 |};
     {| text := codes "efg"; page := 1 |}].
Proof.
  apply (chunks_cut_from_pages ascii_tables 5
           [{| page_text := codes "ab cd efg"; page_number := 1 |}] 4 1).
  vm_compute. reflexivity.
Defined.

(** X3: for [overlap < chunk_size], pages whose text is empty or all
    whitespace give no chunk at all. *)
Theorem blank_pages_give_no_chunks (U : unicode) (fuel : nat)
    (pages : list Page) (cs ov : Z) :
  ov < cs ->
  Forall (fun p => (steps_needed (Z.of_nat (length (page_text p))) 0 (cs - ov)
                    <= fuel)%nat) pages ->
  Forall (fun p => strip U (page_text p) = []) pages ->
  chunk_text U fuel pages cs ov = Some [].
Proof.
  intros Hov Hall Hblank. unfold chunk_text.
  rewrite chunk_pages_windows by assumption. f_equal. simpl.
  induction Hblank as [|p pages Hp _ IH]; [reflexivity|]. simpl.
  apply strip_nil_iff in Hp. rewrite (page_windows_blank U cs ov p Hp).
  apply IH. now inversion Hall.
Qed.

Lemma blank_pages_give_no_chunks_witness :
  chunk_text ascii_tables 3
    [{| page_text := codes "   "; page_number := 1 |};
     {| page_text := []; page_number := 2 |}] 2 1 = Some [].
Proof.
  apply blank_pages_give_no_chunks.
  - lia.
  - repeat constructor; vm_compute; lia.
  - repeat constructor.
Defined.

(** X4: the chunks of a list of pages are the chunks of its first part
    followed by the chunks of the rest: pages are chunked independently
    and in order, and the call returns only if it returns on both parts. *)
Theorem chunk_text_app (U : unicode) (fuel : nat) (ps1 ps2 : list Page)
    (cs ov : Z) :
  chunk_text U fuel (ps1 ++ ps2) cs ov =
  match chunk_text U fuel ps1 cs ov, chunk_text U fuel ps2 cs ov with
  | Some c1, Some c2 => Some (c1 ++ c2)
  | _, _ => None
  end.
Proof.
  unfold chunk_text. rewrite chunk_pages_app.
  destruct (chunk_pages U fuel cs ov ps1 []) as [c1|]; [|reflexivity].
  rewrite chunk_pages_acc.
  now destruct (chunk_pages U fuel cs ov ps2 []).
Qed.

(** X5: for [0 <= overlap < chunk_size] no character is lost: every
    character of a page that is not whitespace lies, at its position,
    inside one of the chunks returned for that page. *)
Theorem chunk_text_covers (U : unicode) (fuel : nat) (pages : list Page)
    (cs ov : Z) (p : Page) (i : nat) (x : Z) :
  0 <= ov < cs ->
  Forall (fun p => (steps_needed (Z.of_nat (length (page_text p))) 0 (cs - ov)
                    <= fuel)%nat) pages ->
  p ∈ pages ->
  page_text p !! i = Some x -> is_space U x = false ->
  exists chunks c pre post,
    chunk_text U fuel pages cs ov = Some chunks /\
    c ∈ chunks /\
    page c = page_number p /\
    page_text p = pre ++ text c ++ post /\
    (length pre <= i < length pre + length (text c))%nat.
Proof.
  intros Hov Hall Hp Hx Hsp.
  destruct (window_holds_index U cs ov p i x Hov Hx Hsp)
    as (c & pre & post & Hc & Hpage & Htext & Hpos).
  exists (concat (List.map (page_windows U cs ov) pages)), c, pre, post.
  split; [unfold chunk_text; apply chunk_pages_windows; [lia|exact Hall]|].
  split; [now apply in_concat_windows with p|].
  repeat split; (assumption || lia).
Qed.

Lemma chunk_text_covers_witness :
  let p := {| page_text := codes "ab cd efg"; page_number := 1 |} in
  exists chunks c pre post,
    chunk_text ascii_tables 5 [p] 4 1 = Some chunks /\
    c ∈ chunks /\
    page c = page_number p /\
    page_text p = pre ++ text c ++ post /\
    (length pre <= 7 < length pre + length (text c))%nat.
Proof.
  apply (chunk_text_covers ascii_tables 5 _ 4 1 _ 7 (ch "f")).
  - lia.
  - repeat constructor; vm_compute; lia.
  - constructor.
  - reflexivity.
  - reflexivity.
Defined.

(* ===================================================================== *)
(** * More on the embedder *)
(* ===================================================================== *)

Lemma count_chars_slots dim (s : str) :
  0 < dim ->
  forall v v', count_chars dim v s = Some v' ->
  forall j, v' !! j = (fun x => x + slot_count dim s j) <$> v !! j.
Proof.
  intros Hd. induction s as [|c s IH]; intros v v' H j.
  - injection H as <-. unfold slot_count. simpl.
    destruct (v !! j); simpl; [f_equal; lia|reflexivity].
  - simpl in H. unfold bump in H. destruct (Z.eqb_spec dim 0); [lia|].
    rewrite (IH _ _ H j). unfold slot_count. simpl.
    destruct (Nat.eqb_spec (Z.to_nat (c mod dim)) j) as [<-|Hne].
    + rewrite list_lookup_alter_eq.
      destruct (v !! Z.to_nat (c mod dim)); simpl; [f_equal; lia|reflexivity].
    + rewrite list_lookup_alter_ne by exact Hne. reflexivity.
Qed.

Lemma alter_succ_swap (v : list Z) (i j : nat) :
  alter Z.succ i (alter Z.succ j v) = alter Z.succ j (alter Z.succ i v).
Proof.
  destruct (decide (i = j)) as [->|Hne]; [reflexivity|].
  now apply list_alter_alter_ne.
Qed.

(** The counting loop does not depend on the order of the characters. *)
Lemma count_chars_perm dim (s1 s2 : str) :
  s1 ≡ₚ s2 -> forall v, count_chars dim v s1 = count_chars dim v s2.
Proof.
  induction 1 as [|x l l' _ IH|x y l|l l' l'' _ IH1 _ IH2]; intros v.
  - reflexivity.
  - simpl. destruct (bump dim v x); [apply IH|reflexivity].
  - simpl. unfold bump. destruct (dim =? 0); [reflexivity|].
    now rewrite alter_succ_swap.
  - now rewrite IH1, IH2.
Qed.

Lemma in_sumsq (v : list R) (x : R) : In x v -> (x * x <= sumsq v)%R.
Proof.
  induction v as [|y v IH]; simpl; [tauto|].
  pose proof (sumsq_nonneg v) as Hv.
  pose proof (Rle_0_sqr y) as Hy. unfold Rsqr in Hy.
  intros [->|Hin]; [lra|]. specialize (IH Hin). lra.
Qed.

(** After the division every non-negative vector has its components
    between 0 and 1. *)
Lemma normalize_bounds (v : list R) :
  (forall x, In x v -> 0 <= x)%R ->
  forall y, In y (normalize v) -> (0 <= y <= 1)%R.
Proof.
  intros Hnn y Hy. unfold normalize in Hy.
  pose proof (sumsq_nonneg v) as Hs.
  destruct (Req_dec_T (norm v) 0) as [H0|Hn].
  - rewrite norm_sumsq in H0. apply sqrt_eq_0 in H0; [|exact Hs].
    pose proof (in_sumsq v y Hy) as Hle. pose proof (Hnn y Hy).
    assert (y = 0)%R by nra. lra.
  - apply in_map_iff in Hy as (x & <- & Hx).
    pose proof (Hnn x Hx) as Hx0.
    assert (x <= norm v)%R as Hle.
    { rewrite <- (sqrt_square x Hx0), norm_sumsq.
      apply sqrt_le_1_alt. now apply in_sumsq. }
    assert (0 < norm v)%R as Hpos.
    { pose proof (sqrt_pos (sumsq v)). rewrite norm_sumsq in *. lra. }
    split.
    + apply Rmult_le_pos; [exact Hx0|]. left. now apply Rinv_0_lt_compat.
    + apply (Rmult_le_reg_r (norm v)); [exact Hpos|].
      unfold Rdiv. rewrite Rmult_assoc, Rinv_l by lra. lra.
Qed.

Lemma count_chars_zero_dim v (s : str) :
  count_chars 0 v s = match s with [] => Some v | _ :: _ => None end.
Proof. destruct s; reflexivity. Qed.

(** X6: for a positive dimension, slot [j] of the raw count vector holds
    the number of characters of the lower-cased text whose code is [j]
    modulo the dimension. *)
Theorem char_counts_slots (U : unicode) (txt : str) (dim : Z) :
  0 < dim ->
  exists counts,
    char_counts U txt dim = Some counts /\
    length counts = Z.to_nat dim /\
    forall j, (j < Z.to_nat dim)%nat ->
              counts !! j = Some (slot_count dim (lower U txt) j).
Proof.
  intros Hd.
  destruct (char_counts_total U txt dim Hd) as (counts & Hc & Hlen & _).
  exists counts. split; [exact Hc|]. split; [exact Hlen|].
  intros j Hj. unfold char_counts in Hc.
  destruct (Z.ltb_spec dim 0); [lia|].
  rewrite (count_chars_slots dim _ Hd _ _ Hc j).
  rewrite lookup_replicate_2 by exact Hj. reflexivity.
Qed.

Lemma char_counts_slots_witness :
  exists counts,
    char_counts ascii_tables (codes "Abba") 128 = Some counts /\
    length counts = Z.to_nat 128 /\
    forall j, (j < Z.to_nat 128)%nat ->
              counts !! j = Some (slot_count 128 (lower ascii_tables (codes "Abba")) j).
Proof. apply char_counts_slots. lia. Defined.

(** X7: two texts whose lower-cased forms have the same characters in
    another order have the same embedding, whatever the dimension. *)
Theorem simple_embed_permutation (U : unicode) (s1 s2 : str) (dim : Z) :
  lower U s1 ≡ₚ lower U s2 ->
  simple_embed U s1 dim = simple_embed U s2 dim.
Proof.
  intros H. unfold simple_embed, char_counts.
  destruct (dim <? 0); [reflexivity|].
  now rewrite (count_chars_perm dim _ _ H).
Qed.

Lemma simple_embed_permutation_witness :
  simple_embed ascii_tables (codes "Dog") 128 =
  simple_embed ascii_tables (codes "god") 128.
Proof.
  apply simple_embed_permutation.
  change (lower ascii_tables (codes "Dog")) with (codes "dog").
  change (lower ascii_tables (codes "god")) with (codes "god").
  change (codes "dog") with ([ch "d"] ++ [ch "o"; ch "g"]).
  change (codes "god") with ([ch "g"; ch "o"] ++ [ch "d"]).
  rewrite (Permutation_app_comm [ch "d"]).
  apply Permutation_app_tail, Permutation_swap.
Defined.

(** X8: [simple_embed] raises exactly for a negative dimension and for
    the dimension 0 with a text that has a character (the modulo by zero);
    with dimension 0 and no character it returns the empty vector. *)
Theorem simple_embed_raises_iff (U : unicode) (txt : str) (dim : Z) :
  (simple_embed U txt dim = None <-> dim < 0 \/ (dim = 0 /\ lower U txt <> [])) /\
  (lower U txt = [] -> simple_embed U txt 0 = Some []).
Proof.
  split.
  - destruct (Z.lt_trichotomy dim 0) as [Hneg|[->|Hpos]].
    + unfold simple_embed, char_counts.
      destruct (Z.ltb_spec dim 0); [|lia]. simpl. split; [auto|reflexivity].
    + unfold simple_embed, char_counts. simpl.
      rewrite count_chars_zero_dim.
      destruct (lower U txt); simpl.
      * split; [discriminate|]. intros [H|[_ H]]; [lia|congruence].
      * split; [|reflexivity]. intros _. right. split; [reflexivity|discriminate].
    + destruct (char_counts_total U txt dim Hpos) as (counts & Hc & _).
      unfold simple_embed. rewrite Hc. simpl.
      split; [discriminate|]. intros [H|[H _]]; lia.
  - intros Hnil. unfold simple_embed, char_counts. simpl. rewrite Hnil. simpl.
    f_equal. unfold normalize. now destruct (Req_dec_T _ _).
Qed.

(** X9: every component of an embedding lies between 0 and 1. *)
Theorem simple_embed_components (U : unicode) (txt : str) (dim : Z) (v : list R) :
  simple_embed U txt dim = Some v ->
  Forall (fun x => 0 <= x <= 1)%R v.
Proof.
  unfold simple_embed. intros H.
  destruct (char_counts U txt dim) as [counts|] eqn:Hc; [|discriminate].
  injection H as <-. apply List.Forall_forall. apply normalize_bounds.
  assert (Forall (fun z => 0 <= z) counts) as Hnn.
  { destruct (Z.lt_trichotomy dim 0) as [Hneg|[->|Hpos]].
    - unfold char_counts in Hc. destruct (Z.ltb_spec dim 0); [discriminate|lia].
    - unfold char_counts in Hc. simpl in Hc. rewrite count_chars_zero_dim in Hc.
      destruct (lower U txt); [|discriminate]. injection Hc as <-. constructor.
    - destruct (char_counts_total U txt dim Hpos) as (c' & Hc' & _ & _ & Hn).
      congruence. }
  intros x Hx. apply in_map_iff in Hx as (z & <- & Hz).
  rewrite Forall_forall in Hnn. apply IZR_le, Hnn. now apply list_elem_of_In.
Qed.

Lemma simple_embed_components_witness :
  Forall (fun x => 0 <= x <= 1)%R (normalize (List.map IZR [1; 1])).
Proof.
  apply (simple_embed_components ascii_tables (codes "ab") 2).
  reflexivity.
Defined.

(* ===================================================================== *)
(** * More on the vector store and the retriever *)
(* ===================================================================== *)

Lemma Qsquare_nonneg (x : Q) : (0 <= x * x)%Q.
Proof.
  destruct (Qlt_le_dec x 0) as [Hneg|Hpos].
  - assert (x * x == (- x) * (- x))%Q as -> by ring.
    apply Qmult_le_0_compat; lra.
  - now apply Qmult_le_0_compat.
Qed.

Lemma l2sqr_nonneg (x y : vec) : (0 <= l2sqr x y)%Q.
Proof.
  unfold l2sqr. revert y. induction x as [|a x IH]; intros [|b y]; simpl;
    try apply Qle_refl.
  specialize (IH y). pose proof (Qsquare_nonneg (a - b)). lra.
Qed.

Lemma l2sqr_self (x : vec) : (l2sqr x x == 0)%Q.
Proof.
  unfold l2sqr. induction x as [|a x IH]; simpl; [reflexivity|].
  rewrite IH. ring.
Qed.

Lemma scanned_distance i q h : scanned i q h -> (0 <= snd h)%Q.
Proof. intros (j & v & _ & ->). apply l2sqr_nonneg. Qed.

(** Every result that [collect] keeps pairs a stored chunk with a
    non-negative distance. *)
Lemma collect_members s q hits :
  Forall (scanned (index s) q) hits ->
  Forall (fun r => chunk r ∈ text_chunks s /\ (0 <= distance r)%Q)
    (collect (text_chunks s) hits).
Proof.
  induction 1 as [|h hits Hh _ IH]; [constructor|].
  pose proof (scanned_distance _ _ _ Hh) as Hd.
  destruct h as [idx dist]. unfold collect in *. cbn [omap list_omap].
  destruct ((0 <=? idx) && (idx <? Z.of_nat (length (text_chunks s))));
    [|exact IH].
  destruct (text_chunks s !! Z.to_nat idx) as [c|] eqn:Hc; [|exact IH].
  constructor; [|exact IH]. simpl. split; [|exact Hd].
  eapply list_elem_of_lookup_2. exact Hc.
Qed.

Lemma collect_length_le chunks hits :
  (length (collect chunks hits) <= length hits)%nat.
Proof. apply omap_length_le. Qed.

Lemma sorted_hits_scanned i q (k : nat) :
  Forall (scanned i q) (take k (sort_hits (scan i q))).
Proof.
  apply Forall_take. rewrite (sort_hits_perm (scan i q)). apply scan_scanned.
Qed.

(** The head of the sorted row is at least as close as every entry. *)
Lemma sorted_head_nearest i q h rest :
  sort_hits (scan i q) = h :: rest ->
  forall v, v ∈ xb i -> (snd h <= l2sqr q v)%Q.
Proof.
  intros Hs v Hv.
  apply list_elem_of_lookup in Hv as [j Hj].
  assert ((Z.of_nat j, l2sqr q v) ∈ sort_hits (scan i q)) as Hin.
  { rewrite (sort_hits_perm (scan i q)). unfold scan.
    apply (elem_of_lookup_imap_2 (fun j v => (Z.of_nat j, l2sqr q v)) _ _ _ Hj). }
  pose proof (sort_hits_sorted (scan i q)) as Hsorted.
  rewrite Hs in Hsorted, Hin.
  apply StronglySorted_inv in Hsorted as [_ Hall].
  apply elem_of_cons in Hin as [<-|Hin]; [apply Qle_refl|].
  rewrite Forall_forall in Hall. specialize (Hall _ Hin).
  destruct Hall as [H|[H _]]; simpl in *; lra.
Qed.

Lemma StronglySorted_irrefl_NoDup {A} (R : A -> A -> Prop) (l : list A) :
  (forall x, ~ R x x) -> StronglySorted R l -> NoDup l.
Proof.
  intros Hirr. induction 1 as [|x l Hs IH Hall]; constructor; [|exact IH].
  intros Hin. rewrite Forall_forall in Hall. exact (Hirr x (Hall x Hin)).
Qed.

Lemma entry_before_irrefl s q (i : nat) : ~ entry_before s q i i.
Proof.
  unfold entry_before. destruct (xb (index s) !! i); [|tauto].
  intros [H|[_ H]]; [lra|lia].
Qed.

Lemma entry_result_position s q (i : nat) r :
  entry_result s q i = Some r ->
  (i < ntotal (index s))%nat /\ (i < length (text_chunks s))%nat.
Proof.
  unfold entry_result, ntotal.
  destruct (text_chunks s !! i) eqn:Hc; [|discriminate].
  destruct (xb (index s) !! i) eqn:Hv; [|discriminate].
  intros _. split; eapply lookup_lt_Some; eassumption.
Qed.

(** X10: a search that the index accepts returns at most [top_k] results,
    and they are the results of pairwise distinct positions of the index:
    no stored vector appears twice, so there are at most as many results
    as vectors; every result pairs one of the store's chunks with a
    non-negative distance. *)
Theorem search_results_bounded (s : VectorStore) (q : vec) (top_k : Z) :
  length q = d (index s) ->
  ntotal (index s) = 0%nat \/ 0 < top_k ->
  exists (labels : list nat) (rs : list SearchResult),
    search s (as_query q) top_k = Return rs /\
    Z.of_nat (length rs) <= Z.max 0 top_k /\
    NoDup labels /\
    Forall (fun i => (i < ntotal (index s))%nat) labels /\
    Forall2 (fun i r => entry_result s q i = Some r) labels rs /\
    (length rs <= ntotal (index s))%nat /\
    Forall (fun r => chunk r ∈ text_chunks s /\ (0 <= distance r)%Q) rs.
Proof.
  intros Hq Hk.
  destruct (decide (ntotal (index s) = 0%nat)) as [Hz|Hnz].
  - exists [], []. unfold search. rewrite Hz. simpl.
    repeat split; try constructor; lia.
  - destruct Hk as [Hk|Hk]; [contradiction|].
    set (hits := take (Z.to_nat top_k) (sort_hits (scan (index s) q))).
    pose proof (sorted_hits_scanned (index s) q (Z.to_nat top_k)) as Hsc.
    assert (StronglySorted hit_lt hits) as Hs
      by apply StronglySorted_take, sort_scan_strict.
    destruct (collect_sorted s q hits Hsc Hs) as [H1 H2].
    exists (kept_labels (text_chunks s) hits), (collect (text_chunks s) hits).
    split; [now apply search_nonempty|].
    pose proof (collect_length_le (text_chunks s) hits) as Hlen.
    assert (length hits <= Z.to_nat top_k /\
            length hits <= ntotal (index s))%nat as [Hh1 Hh2].
    { unfold hits.
      rewrite length_take, sort_hits_length, scan_length. lia. }
    split; [lia|].
    split; [eapply StronglySorted_irrefl_NoDup;
            [apply entry_before_irrefl|exact H2]|].
    split.
    { clear -H1. induction H1 as [|i r ls rs Hir _ IH]; constructor;
        [|exact IH].
      eapply entry_result_position. exact Hir. }
    split; [exact H1|]. split; [lia|].
    apply (collect_members s q), Hsc.
Qed.

Lemma search_results_bounded_witness :
  let s := {| dim := 1;
              index := {| d := 1; xb := [[1%Q]; [0%Q]; [1%Q]] |};
              text_chunks := [{| text := codes "a"; page := 1 |};
                              {| text := codes "b"; page := 1 |};
                              {| text := codes "c"; page := 2 |}] |} in
  exists (labels : list nat) (rs : list SearchResult),
    search s (as_query [1%Q]) 2 = Return rs /\
    Z.of_nat (length rs) <= Z.max 0 2 /\
    NoDup labels /\
    Forall (fun i => (i < ntotal (index s))%nat) labels /\
    Forall2 (fun i r => entry_result s [1%Q] i = Some r) labels rs /\
    (length rs <= ntotal (index s))%nat /\
    Forall (fun r => chunk r ∈ text_chunks s /\ (0 <= distance r)%Q) rs.
Proof.
  apply search_results_bounded.
  - reflexivity.
  - right. lia.
Defined.

(** On a store with as many chunks as vectors, at least one, a search
    has a first result, and no stored vector is strictly closer. *)
Lemma search_head_nearest (s : VectorStore) (q : vec) (top_k : Z) :
  length q = d (index s) -> 0 < top_k ->
  ntotal (index s) <> 0%nat ->
  length (text_chunks s) = ntotal (index s) ->
  exists r rest,
    search s (as_query q) top_k = Return (r :: rest) /\
    chunk r ∈ text_chunks s /\
    (0 <= distance r)%Q /\
    forall v, v ∈ xb (index s) -> (distance r <= l2sqr q v)%Q.
Proof.
  intros Hq Hk Hn Hlen.
  rewrite search_nonempty by assumption.
  destruct (sort_hits (scan (index s) q)) as [|h hits] eqn:Hs.
  { apply (f_equal length) in Hs.
    rewrite sort_hits_length, scan_length in Hs. simpl in Hs. contradiction. }
  pose proof (sorted_head_nearest _ _ _ _ Hs) as Hnear.
  pose proof (sorted_hits_scanned (index s) q 1) as Hsc.
  rewrite Hs in Hsc. simpl in Hsc. apply Forall_inv in Hsc.
  destruct Hsc as (j & v & Hv & ->).
  destruct (Z.to_nat top_k) as [|k] eqn:Ek; [lia|]. simpl firstn.
  change (take (S k) ((Z.of_nat j, l2sqr q v) :: hits))
    with ((Z.of_nat j, l2sqr q v) :: take k hits).
  unfold collect. cbn [omap list_omap].
  apply lookup_lt_Some in Hv as Hj. unfold ntotal in Hlen.
  destruct (Z.leb_spec 0 (Z.of_nat j)); [|lia].
  destruct (Z.ltb_spec (Z.of_nat j) (Z.of_nat (length (text_chunks s)))); [|lia].
  simpl. rewrite Nat2Z.id.
  destruct (lookup_lt_is_Some_2 (text_chunks s) j) as [c Hc]; [lia|].
  rewrite Hc. eexists _, _. split; [reflexivity|]. simpl.
  split; [eapply list_elem_of_lookup_2; exact Hc|].
  split; [apply l2sqr_nonneg|exact Hnear].
Qed.

(** X12: on a store with as many chunks as vectors, at least one, the
    first result of a search is a nearest entry: no stored vector is
    strictly closer to the query. *)
Theorem search_first_is_nearest (s : VectorStore) (q : vec) (top_k : Z) :
  length q = d (index s) -> 0 < top_k ->
  ntotal (index s) <> 0%nat ->
  length (text_chunks s) = ntotal (index s) ->
  exists r rest,
    search s (as_query q) top_k = Return (r :: rest) /\
    chunk r ∈ text_chunks s /\
    forall v, v ∈ xb (index s) -> (distance r <= l2sqr q v)%Q.
Proof.
  intros Hq Hk Hn Hlen.
  destruct (search_head_nearest s q top_k Hq Hk Hn Hlen)
    as (r & rest & H1 & H2 & _ & H3).
  now exists r, rest.
Qed.

Lemma search_first_is_nearest_witness :
  let s := {| dim := 1;
              index := {| d := 1; xb := [[1%Q]; [0%Q]; [1%Q]] |};
              text_chunks := [{| text := codes "a"; page := 1 |};
                              {| text := codes "b"; page := 1 |};
                              {| text := codes "c"; page := 2 |}] |} in
  exists r rest,
    search s (as_query [0%Q]) 1 = Return (r :: rest) /\
    chunk r ∈ text_chunks s /\
    forall v, v ∈ xb (index s) -> (distance r <= l2sqr [0%Q] v)%Q.
Proof.
  apply search_first_is_nearest.
  - reflexivity.
  - lia.
  - discriminate.
  - reflexivity.
Defined.

(** X13: asking for fewer results gives the first ones of the longer
    answer. *)
Theorem search_fewer_is_prefix (s : VectorStore) (q : vec) (k1 k2 : Z) :
  length q = d (index s) -> 0 < k1 <= k2 ->
  exists rs1 rs2,
    search s (as_query q) k1 = Return rs1 /\
    search s (as_query q) k2 = Return rs2 /\
    rs1 `prefix_of` rs2.
Proof.
  intros Hq Hk.
  destruct (decide (ntotal (index s) = 0%nat)) as [Hz|Hnz].
  - exists [], []. unfold search. rewrite Hz. now repeat split.
  - rewrite !search_nonempty by (assumption || lia).
    eexists _, _. split; [reflexivity|]. split; [reflexivity|].
    set (l := sort_hits (scan (index s) q)).
    rewrite <- (take_drop (Z.to_nat k1) (take (Z.to_nat k2) l)).
    rewrite take_take, Nat.min_l by lia.
    rewrite collect_app. now apply prefix_app_r.
Qed.

Lemma search_fewer_is_prefix_witness :
  let s := {| dim := 1;
              index := {| d := 1; xb := [[1%Q]; [0%Q]; [1%Q]] |};
              text_chunks := [{| text := codes "a"; page := 1 |};
                              {| text := codes "b"; page := 1 |};
                              {| text := codes "c"; page := 2 |}] |} in
  exists rs1 rs2,
    search s (as_query [1%Q]) 1 = Return rs1 /\
    search s (as_query [1%Q]) 3 = Return rs2 /\
    rs1 `prefix_of` rs2.
Proof.
  apply search_fewer_is_prefix.
  - reflexivity.
  - lia.
Defined.

Lemma count_embed_length (s : str) : length (count_embed s) = 128%nat.
Proof.
  unfold count_embed.
  destruct (char_counts_total ascii_tables s 128) as (c & -> & Hlen & _); [lia|].
  simpl. now rewrite List.length_map, Hlen.
Qed.

(** What [build_vector_store] returns on a non-empty list of chunks. *)
Lemma build_vector_store_returns (embed32 : str -> vec) (n : nat)
    (chunks : list Chunk) :
  (forall s, length (embed32 s) = n) -> chunks <> [] ->
  build_vector_store embed32 chunks =
  Return {| dim := n;
            index := {| d := n;
                        xb := List.map (fun c => embed32 (text c)) chunks |};
            text_chunks := chunks |}.
Proof.
  intros Hlen Hne. unfold build_vector_store.
  destruct chunks as [|c chunks]; [contradiction|].
  cbn [List.map]. unfold add, index_add, VectorStore_init. cbn [ncols d index].
  rewrite Nat.eqb_refl, Hlen. reflexivity.
Qed.

(** X15: [build_vector_store] raises on an empty list of chunks (the
    array of vectors has no second dimension); on a non-empty list it
    returns a store of the embedder's dimension that holds the chunks in
    their order, each paired with the embedding of its own text. *)
Theorem build_vector_store_pairs (embed32 : str -> vec) (n : nat)
    (chunks : list Chunk) :
  (forall s, length (embed32 s) = n) ->
  build_vector_store embed32 [] = Raised /\
  (chunks <> [] ->
   exists s,
     build_vector_store embed32 chunks = Return s /\
     store_ok s /\ dim s = n /\
     text_chunks s = chunks /\
     xb (index s) = List.map (fun c => embed32 (text c)) chunks /\
     length (xb (index s)) = length (text_chunks s)).
Proof.
  intros Hlen. split; [reflexivity|]. intros Hne.
  eexists. split; [now apply build_vector_store_returns|].
  simpl. repeat split. now rewrite List.length_map.
Qed.

Lemma build_vector_store_pairs_witness :
  let chunks := [{| text := codes "Rate: $2500 USD"; page := 1 |};
                 {| text := codes "Carrier: Acme"; page := 2 |}] in
  build_vector_store count_embed [] = Raised /\
  (chunks <> [] ->
   exists s,
     build_vector_store count_embed chunks = Return s /\
     store_ok s /\ dim s = 128%nat /\
     text_chunks s = chunks /\
     xb (index s) = List.map (fun c => count_embed (text c)) chunks /\
     length (xb (index s)) = length (text_chunks s)).
Proof.
  apply build_vector_store_pairs. exact count_embed_length.
Defined.

(** X16: a query that is the text of one of the indexed chunks retrieves
    a first result at distance 0; the retrieval-strength check accepts it
    and its confidence is 1. *)
Theorem retrieve_own_text (embed32 : str -> vec) (n : nat)
    (chunks : list Chunk) (c : Chunk) (top_k : Z) :
  (forall s, length (embed32 s) = n) -> c ∈ chunks -> 0 < top_k ->
  exists s r rest,
    build_vector_store embed32 chunks = Return s /\
    retrieve embed32 (text c) s top_k = Return (r :: rest) /\
    (distance r == 0)%Q /\
    strong_retrieval_guardrail (r :: rest) distance_threshold_default = true /\
    (calculate_confidence (r :: rest) max_distance_default == 1)%Q.
Proof.
  intros Hlen Hc Hk.
  assert (chunks <> []) as Hne by (intros ->; inversion Hc).
  set (s := {| dim := n;
               index := {| d := n;
                           xb := List.map (fun c => embed32 (text c)) chunks |};
               text_chunks := chunks |}).
  destruct (search_head_nearest s (embed32 (text c)) top_k)
    as (r & rest & Hs & _ & Hpos & Hnear).
  { apply Hlen. }
  { exact Hk. }
  { unfold ntotal. simpl. rewrite List.length_map. now destruct chunks. }
  { unfold ntotal. simpl. now rewrite List.length_map. }
  assert (distance r == 0)%Q as Hzero.
  { specialize (Hnear (embed32 (text c))).
    pose proof (l2sqr_self (embed32 (text c))) as Hself.
    assert (distance r <= l2sqr (embed32 (text c)) (embed32 (text c)))%Q.
    { apply Hnear. simpl.
      apply (list_elem_of_fmap_2 (fun c => embed32 (text c))). exact Hc. }
    lra. }
  exists s, r, rest.
  split; [now apply build_vector_store_returns|].
  split; [exact Hs|]. split; [exact Hzero|]. split.
  - simpl. apply Qle_bool_iff. rewrite Hzero. unfold distance_threshold_default.
    unfold Qle. simpl. lia.
  - simpl.
    destruct (Qle_bool max_distance_default (distance r)) eqn:E.
    + apply Qle_bool_iff in E. rewrite Hzero in E.
      unfold max_distance_default, Qle in E. simpl in E. lia.
    + apply score_zero; [reflexivity|exact Hzero].
Qed.

Lemma retrieve_own_text_witness :
  let chunks := [{| text := codes "Rate: $2500 USD"; page := 1 |};
                 {| text := codes "Carrier: Acme"; page := 2 |}] in
  let c := {| text := codes "Carrier: Acme"; page := 2 |} in
  exists s r rest,
    build_vector_store count_embed chunks = Return s /\
    retrieve count_embed (text c) s 5 = Return (r :: rest) /\
    (distance r == 0)%Q /\
    strong_retrieval_guardrail (r :: rest) distance_threshold_default = true /\
    (calculate_confidence (r :: rest) max_distance_default == 1)%Q.
Proof.
  apply (retrieve_own_text count_embed 128).
  - exact count_embed_length.
  - right. left.
  - lia.
Defined.

(* ===================================================================== *)
(** * More on the confidence score and the guardrails *)
(* ===================================================================== *)

Lemma calculate_confidence_monotone_witness :
  (calculate_confidence
     [{| chunk := {| text := codes "a"; page := 1 |}; distance := 1 |}]
     max_distance_default
   <= calculate_confidence
        [{| chunk := {| text := codes "b"; page := 1 |}; distance := 1 # 2 |}]
        max_distance_default)%Q.
Proof.
  apply calculate_confidence_monotone.
  - reflexivity.
  - unfold Qle. simpl. lia.
Defined.

(** X18: whenever the retrieval-strength check rejects a result list, its
    confidence under the same threshold is 0; at a best distance equal to
    the threshold the check accepts, and the confidence is 0 all the
    same. *)
Theorem rejected_retrieval_scores_zero (results : list SearchResult) (t : Q) :
  (strong_retrieval_guardrail results t = false ->
   calculate_confidence results t = 0%Q) /\
  (forall r rest, results = r :: rest -> (distance r == t)%Q ->
   strong_retrieval_guardrail results t = true /\
   calculate_confidence results t = 0%Q).
Proof.
  split.
  - destruct results as [|r rest]; [reflexivity|]. simpl. intros H.
    destruct (Qle_bool t (distance r)) eqn:E; [reflexivity|].
    assert (~ (distance r <= t)%Q) by (rewrite <- Qle_bool_iff; congruence).
    assert (~ (t <= distance r)%Q) by (rewrite <- Qle_bool_iff; congruence).
    lra.
  - intros r rest -> Heq. simpl.
    assert (Qle_bool (distance r) t = true) as -> by (apply Qle_bool_iff; lra).
    assert (Qle_bool t (distance r) = true) as -> by (apply Qle_bool_iff; lra).
    split; reflexivity.
Qed.

Lemma keyword_loop_spec (kws : list str) (question txt : str) :
  keyword_loop kws question txt = true <->
  forall kw, kw ∈ kws -> substring kw question -> substring kw txt.
Proof.
  induction kws as [|kw kws IH]; simpl.
  - split; [intros _ kw H; inversion H|reflexivity].
  - destruct (contains kw question && negb (contains kw txt)) eqn:E.
    + apply andb_true_iff in E as [Eq Et]. apply negb_true_iff in Et.
      split; [discriminate|]. intros H.
      assert (substring kw txt) as Hs
        by (apply H; [now left|now apply contains_spec]).
      apply contains_spec in Hs. congruence.
    + rewrite IH. split.
      * intros H kw' Hin Hq. apply elem_of_cons in Hin as [->|Hin]; [|now apply H].
        apply contains_spec in Hq. rewrite Hq in E. simpl in E.
        apply negb_false_iff in E. now apply contains_spec.
      * intros H kw' Hin. apply H. now right.
Qed.

(** X19: the keyword check passes exactly when each of "ifsc", "swift",
    "iban" and "routing" that occurs in the lower-cased question (as a
    substring) occurs in the lower-cased text as well. *)
Theorem keyword_intent_guardrail_iff (U : unicode) (question txt : str) :
  keyword_intent_guardrail U question txt = true <->
  forall kw, kw ∈ critical_keywords ->
             substring kw (lower U question) -> substring kw (lower U txt).
Proof. apply keyword_loop_spec. Qed.

Lemma in_list_spec (w : str) (l : list str) : in_list w l = true <-> w ∈ l.
Proof.
  unfold in_list, str_eqb. rewrite existsb_exists. split.
  - intros (x & Hx & He). apply bool_decide_eq_true in He. subst.
    now apply list_elem_of_In.
  - intros H. exists w. split; [now apply list_elem_of_In|].
    now apply bool_decide_eq_true.
Qed.

Lemma filter_nil_forall {A} (f : A -> bool) (l : list A) :
  Forall (fun x => f x = false) l -> List.filter f l = [].
Proof.
  induction 1 as [|x l Hx _ IH]; simpl; [reflexivity|]. now rewrite Hx.
Qed.

Lemma filter_all_forall {A} (f : A -> bool) (l : list A) :
  Forall (fun x => f x = true) l -> List.filter f l = l.
Proof.
  induction 1 as [|x l Hx _ IH]; simpl; [reflexivity|]. now rewrite Hx, IH.
Qed.

Lemma coverage_unfold U question txt ratio :
  question_coverage_guardrail U question txt ratio =
  match content_words U question with
  | [] => true
  | _ :: _ =>
      Qle_bool ratio
        (inject_Z (Z.of_nat (length (List.filter
                                       (fun w => in_list w (word_tokens U txt))
                                       (content_words U question)))) /
         inject_Z (Z.of_nat (length (content_words U question))))
  end.
Proof. reflexivity. Qed.

(** X20: a question all of whose tokens are stop words or single
    characters passes the coverage check, whatever the text and the
    ratio. *)
Theorem coverage_passes_without_content_words (U : unicode)
    (question txt : str) (ratio : Q) :
  Forall (fun w => w ∈ stop_words \/ (length w <= 1)%nat)
    (word_tokens U question) ->
  question_coverage_guardrail U question txt ratio = true.
Proof.
  intros H. rewrite coverage_unfold. unfold content_words.
  rewrite filter_nil_forall; [reflexivity|].
  eapply Forall_impl; [exact H|]. intros w [Hw|Hw]; cbv beta.
  - apply in_list_spec in Hw. now rewrite Hw.
  - destruct (Z.ltb_spec 1 (Z.of_nat (length w))); [lia|apply andb_false_r].
Qed.

Lemma coverage_passes_without_content_words_witness :
  question_coverage_guardrail ascii_tables (codes "What is the a?")
    (codes "unrelated") min_match_ratio_default = true.
Proof.
  apply coverage_passes_without_content_words.
  assert (forall l,
             forallb (fun w => in_list w stop_words
                               || (Z.of_nat (length w) <=? 1)) l = true ->
             Forall (fun w => w ∈ stop_words \/ (length w <= 1)%nat) l) as Hb.
  { induction l as [|w l IH]; simpl; [constructor|].
    intros [Hw Hl]%andb_true_iff. constructor; [|now apply IH].
    apply orb_true_iff in Hw as [Hw|Hw]; [left; now apply in_list_spec|right].
    apply Z.leb_le in Hw. lia. }
  apply Hb. vm_compute. reflexivity.
Defined.

(** X21: for a ratio of at most 1, the coverage check passes when every
    content word of the question is a token of the text; in particular a
    text passes as the answer to itself. *)
Theorem coverage_passes_when_words_present (U : unicode)
    (question txt : str) (ratio : Q) :
  (ratio <= 1)%Q ->
  (Forall (fun w => w ∈ word_tokens U txt) (content_words U question) ->
   question_coverage_guardrail U question txt ratio = true) /\
  question_coverage_guardrail U question question ratio = true.
Proof.
  intros Hr.
  assert (forall t,
             Forall (fun w => w ∈ word_tokens U t) (content_words U question) ->
             question_coverage_guardrail U question t ratio = true) as Hgen.
  { intros t Hall. rewrite coverage_unfold.
    destruct (content_words U question) as [|w ws] eqn:E; [reflexivity|].
    rewrite filter_all_forall.
    - apply Qle_bool_iff.
      assert (inject_Z (Z.of_nat (length (w :: ws))) /
              inject_Z (Z.of_nat (length (w :: ws))) == 1)%Q as ->; [|exact Hr].
      apply Qmult_inv_r. simpl length. unfold Qeq. simpl. lia.
    - eapply Forall_impl; [exact Hall|]. intros x Hx. now apply in_list_spec. }
  split; [apply Hgen|]. apply Hgen.
  unfold content_words. apply Forall_forall. intros w Hw.
  apply list_elem_of_In, filter_In in Hw as [Hw _]. now apply list_elem_of_In.
Qed.

Lemma coverage_passes_when_words_present_witness :
  (Forall (fun w => w ∈ word_tokens ascii_tables (codes "Carrier rate: $2500 USD"))
     (content_words ascii_tables (codes "What is the carrier rate?")) ->
   question_coverage_guardrail ascii_tables (codes "What is the carrier rate?")
     (codes "Carrier rate: $2500 USD") min_match_ratio_default = true) /\
  question_coverage_guardrail ascii_tables (codes "What is the carrier rate?")
    (codes "What is the carrier rate?") min_match_ratio_default = true.
Proof.
  apply coverage_passes_when_words_present.
  unfold min_match_ratio_default, Qle. simpl. lia.
Defined.

(** X22: the guardrail chain does not depend on the letter case of the
    question: lower-casing the question first changes no decision. *)
Theorem final_guardrail_ignores_question_case (U : unicode) (question : str)
    (results : list SearchResult) :
  lower_laws U ->
  final_guardrail U (lower U question) results = final_guardrail U question results.
Proof.
  intros HL.
  unfold final_guardrail, keyword_intent_guardrail, question_coverage_guardrail,
    rate_guardrail, lower.
  now rewrite !(lower_idem U HL).
Qed.

Lemma final_guardrail_ignores_question_case_witness :
  final_guardrail ascii_tables (lower ascii_tables (codes "What is the RATE?"))
    [{| chunk := {| text := codes "Rate: $2500 USD"; page := 1 |}; distance := 0 |}]
  = final_guardrail ascii_tables (codes "What is the RATE?")
    [{| chunk := {| text := codes "Rate: $2500 USD"; page := 1 |}; distance := 0 |}].
Proof.
  apply final_guardrail_ignores_question_case. exact ascii_lower_laws.
Defined.

(* ===================================================================== *)
(** * The endpoints *)
(* ===================================================================== *)

Lemma keyword_scan_spec (keywords : list str) (q : str) (value : option str) v :
  keyword_scan keywords q value = Some v <->
  value = Some v /\ v <> [] /\ exists kw, kw ∈ keywords /\ substring kw q.
Proof.
  induction keywords as [|kw kws IH]; simpl.
  - split; [discriminate|]. intros (_ & _ & kw & H & _). inversion H.
  - destruct (contains kw q) eqn:E.
    + apply contains_spec in E. destruct value as [[|c s]|]; simpl.
      * split; [discriminate|]. intros ([= <-] & H & _). congruence.
      * split.
        -- intros [= <-]. split; [reflexivity|]. split; [discriminate|].
           exists kw. split; [now left|exact E].
        -- now intros (-> & _).
      * split; [discriminate|]. now intros (H & _).
    + rewrite IH. apply contains_false in E. split.
      * intros (Hv & Hne & kw' & Hin & Hs). repeat split; try assumption.
        exists kw'. split; [now right|exact Hs].
      * intros (Hv & Hne & kw' & Hin & Hs). repeat split; try assumption.
        apply elem_of_cons in Hin as [->|Hin]; [contradiction|]. eauto.
Qed.

(** What the scan over the fields returns comes from one of its entries. *)
Lemma field_scan_sound entries q data resp :
  field_scan entries q data = Some resp ->
  exists r f keywords kw,
    data = Some r /\ (f, keywords) ∈ entries /\ kw ∈ keywords /\
    substring kw q /\
    get_field f r = Some (answer resp) /\ answer resp <> [] /\
    confidence resp = (95 # 100)%Q /\
    sources resp = [{| src_page := PageStructured;
                       src_text := codes "Extracted from " ++ codes (field_name f) |}].
Proof.
  induction entries as [|[f kws] entries IH]; simpl; [discriminate|].
  destruct (keyword_scan kws q _) as [v|] eqn:E.
  - intros [= <-]. apply keyword_scan_spec in E as (Hv & Hne & kw & Hin & Hs).
    destruct data as [r|]; [|discriminate].
    exists r, f, kws, kw. simpl. repeat split; try assumption. now left.
  - intros H. destruct (IH H) as (r & f' & kws' & kw & ? & ? & ? & ? & ? & ? & ? & ?).
    exists r, f', kws', kw. repeat split; try assumption. now right.
Qed.

Lemma field_scan_complete entries q r f keywords kw v :
  (f, keywords) ∈ entries -> kw ∈ keywords -> substring kw q ->
  get_field f r = Some v -> v <> [] ->
  is_Some (field_scan entries q (Some r)).
Proof.
  intros Hin Hkw Hs Hv Hne.
  induction entries as [|[f' kws'] entries IH]; [inversion Hin|]. simpl.
  destruct (keyword_scan kws' q (get_field f' r)) eqn:E; [eauto|].
  apply elem_of_cons in Hin as [[= <- <-]|Hin]; [|now apply IH].
  assert (keyword_scan keywords q (get_field f r) = Some v) as Hsome
    by (apply keyword_scan_spec; eauto).
  congruence.
Qed.

Lemma field_scan_no_data entries q : field_scan entries q None = None.
Proof.
  induction entries as [|[f kws] entries IH]; simpl; [reflexivity|].
  assert (keyword_scan kws q None = None) as ->; [|exact IH].
  induction kws as [|kw kws IHk]; simpl; [reflexivity|].
  now destruct (contains kw q).
Qed.

(** X23: a direct answer from the cache is the non-empty cached value of a
    field one of whose keywords occurs in the lower-cased question; it
    comes with confidence 0.95 and the single source "structured". *)
Theorem structured_answer_sound (U : unicode) (question : str)
    (data : option StructuredFields) (resp : Response) :
  structured_answer U question data = Some resp ->
  exists r f keywords kw,
    data = Some r /\ (f, keywords) ∈ FIELD_KEYWORDS /\ kw ∈ keywords /\
    substring kw (lower U question) /\
    get_field f r = Some (answer resp) /\ answer resp <> [] /\
    confidence resp = (95 # 100)%Q /\
    sources resp = [{| src_page := PageStructured;
                       src_text := codes "Extracted from " ++ codes (field_name f) |}].
Proof. apply field_scan_sound. Qed.

Lemma structured_answer_sound_witness :
  let r := {| shipment_id := Some (codes "LD12345"); shipper := None;
              consignee := None; pickup_datetime := None;
              delivery_datetime := None; equipment_type := None; mode := None;
              rate := Some (codes "2500"); currency := Some (codes "USD");
              weight := None; carrier_name := None |} in
  let resp := {| answer := codes "2500"; confidence := (95 # 100)%Q;
                 sources := [{| src_page := PageStructured;
                                src_text := codes "Extracted from rate" |}] |} in
  exists r' f keywords kw,
    Some r = Some r' /\ (f, keywords) ∈ FIELD_KEYWORDS /\ kw ∈ keywords /\
    substring kw (lower ascii_tables (codes "What is the carrier rate?")) /\
    get_field f r' = Some (answer resp) /\ answer resp <> [] /\
    confidence resp = (95 # 100)%Q /\
    sources resp = [{| src_page := PageStructured;
                       src_text := codes "Extracted from " ++ codes (field_name f) |}].
Proof.
  apply (structured_answer_sound ascii_tables (codes "What is the carrier rate?")).
  vm_compute. reflexivity.
Defined.

(** X24: the cache answers a question exactly when something was uploaded
    and some field has a keyword in the lower-cased question and a
    non-empty cached value; without an upload it never answers. *)
Theorem structured_answer_iff (U : unicode) (question : str)
    (data : option StructuredFields) :
  (is_Some (structured_answer U question data) <->
   exists r f keywords kw v,
     data = Some r /\ (f, keywords) ∈ FIELD_KEYWORDS /\ kw ∈ keywords /\
     substring kw (lower U question) /\ get_field f r = Some v /\ v <> []) /\
  structured_answer U question None = None.
Proof.
  split; [split|apply field_scan_no_data].
  - intros [resp H].
    apply field_scan_sound in H as (r & f & kws & kw & ? & ? & ? & ? & ? & ? & _).
    exists r, f, kws, kw, (answer resp). repeat split; assumption.
  - intros (r & f & kws & kw & v & -> & Hin & Hkw & Hs & Hv & Hne).
    eapply field_scan_complete; eassumption.
Qed.

(** X25: when the result list is empty, when the best distance exceeds
    1.5, and more generally whenever the guardrail chain rejects, [/ask]
    answers "Not found in document." with confidence 0 and no sources,
    whatever the LLM answered. *)
Theorem weak_retrieval_not_found (U : unicode) (question : str)
    (results : list SearchResult) (llm_answer : option str) :
  (final_guardrail U question results = false ->
   answer_from_results U question results llm_answer = not_found) /\
  (results = [] ->
   answer_from_results U question results llm_answer = not_found) /\
  (forall r rest, results = r :: rest ->
   (distance_threshold_default < distance r)%Q ->
   answer_from_results U question results llm_answer = not_found).
Proof.
  assert (final_guardrail U question results = false ->
          answer_from_results U question results llm_answer = not_found) as H0.
  { intros H. unfold answer_from_results. now rewrite H. }
  split; [exact H0|]. split.
  - intros ->. reflexivity.
  - intros r rest -> Hd. apply H0. unfold final_guardrail. simpl.
    destruct (Qle_bool (distance r) distance_threshold_default) eqn:E;
      [|reflexivity].
    apply Qle_bool_iff in E. lra.
Qed.

Lemma slice_prefix_length {A} (l : list A) (n : Z) :
  0 < n -> Z.of_nat (length (py_slice l 0 n)) <= n.
Proof. intros Hn. apply (py_slice_length l 0 n); lia. Qed.

Lemma slice_prefix_min {A} (l : list A) (n : nat) :
  length (py_slice l 0 (Z.of_nat n)) = min n (length l).
Proof.
  unfold py_slice, slice_bound.
  replace (0 <? 0) with false by reflexivity.
  destruct (Z.ltb_spec (Z.of_nat n) 0); [lia|].
  rewrite length_take, length_drop. lia.
Qed.

(** X26: when the guardrail chain accepts, the response carries the
    confidence of the result list, between one and three sources (one per
    result, in order), each with at most 200 characters of its chunk; the
    answer is the LLM's when it is non-empty and does not contain "not
    found in document" in any letter case, and otherwise the first 500
    characters of the top chunk. *)
Theorem answered_response_shape (U : unicode) (question : str)
    (results : list SearchResult) (llm_answer : option str) :
  final_guardrail U question results = true ->
  exists r0 rest,
    results = r0 :: rest /\
    let resp := answer_from_results U question results llm_answer in
    confidence resp = calculate_confidence results max_distance_default /\
    length (sources resp) = min 3 (length results) /\
    Forall (fun src => (length (src_text src) <= 200)%nat) (sources resp) /\
    (llm_unusable U llm_answer ->
     answer resp = py_slice (text (chunk r0)) 0 500 /\
     (length (answer resp) <= 500)%nat) /\
    (forall a, llm_answer = Some a -> ~ llm_unusable U llm_answer ->
     answer resp = a).
Proof.
  intros Hsafe.
  destruct results as [|r0 rest]; [discriminate|].
  exists r0, rest. split; [reflexivity|].
  unfold answer_from_results. rewrite Hsafe. cbn [negb orb].
  cbv zeta. cbn [confidence sources answer].
  split; [reflexivity|]. split; [|split; [|split]].
  - rewrite List.length_map. apply (slice_prefix_min (r0 :: rest) 3).
  - apply Forall_forall. intros src Hsrc.
    apply list_elem_of_In, in_map_iff in Hsrc as (r & <- & _). simpl.
    pose proof (slice_prefix_length (text (chunk r)) 200). lia.
  - intros Hun.
    assert (forall a, llm_answer = Some a ->
              truthy a && negb (contains (codes "not found in document")
                                  (lower U a)) = false) as Hf.
    { intros a Ha. destruct Hun as [H|[H|(a' & H & Hs)]]; try congruence.
      - assert (a = []) as -> by congruence. reflexivity.
      - assert (a = a') as -> by congruence.
        apply contains_spec in Hs. rewrite Hs. apply andb_false_r. }
    assert (match llm_answer with
            | Some a =>
                if truthy a && negb (contains (codes "not found in document")
                                       (lower U a))
                then a else py_slice (text (chunk r0)) 0 500
            | None => py_slice (text (chunk r0)) 0 500
            end = py_slice (text (chunk r0)) 0 500) as ->.
    { destruct llm_answer as [a|]; [|reflexivity]. now rewrite (Hf a). }
    split; [reflexivity|].
    pose proof (slice_prefix_length (text (chunk r0)) 500). lia.
  - intros a -> Hok.
    destruct (truthy a) eqn:Et.
    + destruct (contains (codes "not found in document") (lower U a)) eqn:Ec;
        [|reflexivity].
      exfalso. apply Hok. right. right. exists a. split; [reflexivity|].
      now apply contains_spec.
    + exfalso. apply Hok. right. left. now destruct a.
Qed.

Lemma answered_response_shape_witness :
  let results :=
    [{| chunk := {| text := codes "Rate: $2500 USD"; page := 3 |};
        distance := 3 # 4 |}] in
  let question := codes "What is the rate?" in
  exists r0 rest,
    results = r0 :: rest /\
    let resp := answer_from_results ascii_tables question results None in
    confidence resp = calculate_confidence results max_distance_default /\
    length (sources resp) = min 3 (length results) /\
    Forall (fun src => (length (src_text src) <= 200)%nat) (sources resp) /\
    (llm_unusable ascii_tables None ->
     answer resp = py_slice (text (chunk r0)) 0 500 /\
     (length (answer resp) <= 500)%nat) /\
    (forall a, None = Some a -> ~ llm_unusable ascii_tables None ->
     answer resp = a).
Proof.
  apply (answered_response_shape ascii_tables).
  vm_compute. reflexivity.
Defined.

(** ** Merging the LLM's fields *)

Lemma merge_llm_untouched sd llm (k : string) :
  (forall v, (k, Some v) ∉ llm) ->
  merge_llm sd llm !! k = sd !! k.
Proof.
  unfold merge_llm. revert sd.
  induction llm as [|[k' v'] llm IH]; intros sd Hno; simpl; [reflexivity|].
  rewrite IH by (intros v Hin; apply (Hno v); now right).
  destruct v' as [v|]; simpl; [|reflexivity].
  apply lookup_insert_ne. intros ->. apply (Hno v). now left.
Qed.

Lemma merge_llm_keeps_keys sd llm (k : string) :
  is_Some (sd !! k) -> is_Some (merge_llm sd llm !! k).
Proof.
  unfold merge_llm. revert sd.
  induction llm as [|[k' v'] llm IH]; intros sd Hk; simpl; [exact Hk|].
  apply IH. destruct v' as [v|]; simpl; [|exact Hk].
  destruct (decide (k' = k)) as [->|Hne].
  - rewrite lookup_insert_eq. eauto.
  - now rewrite lookup_insert_ne.
Qed.

Lemma fields_dict_lookup r f :
  fields_dict r !! field_name f = Some (get_field f r).
Proof. destruct f; reflexivity. Qed.

(** X27: after the merge of the LLM's items into the record of the regex
    extractor, a field has the LLM's value when that value is not [None],
    and keeps the extractor's value when the LLM gave [None] for it or did
    not mention it; all eleven keys stay present. *)
Theorem merge_llm_fields (r : StructuredFields)
    (llm : list (string * option str)) (f : field) :
  NoDup (List.map fst llm) ->
  (forall v, (field_name f, Some v) ∈ llm ->
   merge_llm (fields_dict r) llm !! field_name f = Some (Some v)) /\
  ((forall v, (field_name f, Some v) ∉ llm) ->
   merge_llm (fields_dict r) llm !! field_name f = Some (get_field f r)) /\
  (forall f', is_Some (merge_llm (fields_dict r) llm !! field_name f')).
Proof.
  intros Hnd. split; [|split].
  - generalize (fields_dict r). intros sd v Hin. revert sd.
    induction llm as [|[k' v'] llm IH]; intros sd; [inversion Hin|].
    simpl in Hnd. apply NoDup_cons in Hnd as [Hk' Hnd].
    apply elem_of_cons in Hin as [[= <- <-]|Hin].
    + unfold merge_llm. simpl. fold (merge_llm (<[field_name f := Some v]> sd) llm).
      rewrite merge_llm_untouched; [apply lookup_insert_eq|].
      intros v0 Hin. apply Hk'.
      apply (list_elem_of_fmap_2 fst) in Hin. exact Hin.
    + unfold merge_llm. simpl. apply (IH Hnd Hin).
  - intros Hno. rewrite merge_llm_untouched by exact Hno.
    apply fields_dict_lookup.
  - intros f'. apply merge_llm_keeps_keys. rewrite fields_dict_lookup. eauto.
Qed.

Lemma merge_llm_fields_witness :
  let r := {| shipment_id := Some (codes "LD12345"); shipper := None;
              consignee := None; pickup_datetime := None;
              delivery_datetime := None; equipment_type := None; mode := None;
              rate := Some (codes "2500"); currency := Some (codes "USD");
              weight := None; carrier_name := None |} in
  let llm := [("rate"%string, None);
              ("shipper"%string, Some (codes "Acme"))] in
  (forall v, (field_name F_rate, Some v) ∈ llm ->
   merge_llm (fields_dict r) llm !! field_name F_rate = Some (Some v)) /\
  ((forall v, (field_name F_rate, Some v) ∉ llm) ->
   merge_llm (fields_dict r) llm !! field_name F_rate = Some (get_field F_rate r)) /\
  (forall f', is_Some (merge_llm (fields_dict r) llm !! field_name f')).
Proof.
  apply merge_llm_fields.
  apply NoDup_cons. split; [|apply NoDup_singleton].
  intros H. apply elem_of_cons in H as [H|H]; [discriminate|inversion H].
Defined.
